(** * revng-c: the DLA layout type system and the IR-to-AST statement builder

A shallow embedding of
- [lib/Decompiler/DLATypeSystem.h]: layout-type keys, offset
  expressions, link tags, the type-system graph and its link insertion;
- [lib/Decompiler/ASTBuildAnalysis.cpp]: cast synthesis, literals,
  expressions for IR values and statements for IR instructions.

Pointers are addresses ([N], with [nullptr] = 0).  A [std::set] is the
list of its elements in iteration order.  A failed [revng_assert], a
[revng_abort] and [std::map::at] on a missing key are all the result
[None].  The check of an [llvm::cast] is an [assert]: where assertions are
compiled in, a failed cast is the result [None]; where they are not, the
pointer is handed on unchecked, and the embedding follows it where the code
only passes it on ([cast<ConstantInt>], [cast<Expr>]) and has no result
where the code reads through it ([cast<BuiltinType>],
[cast<ClangPointerType>]), which C++ leaves undefined. *)

From stdpp Require Import gmap list strings pretty sorting.

Set Warnings "-register-all,-clear-no-such-hyp".

Open Scope Z_scope.

(** ** Pointers and assertions *)

Abbreviation ptr := N.

Definition nullptr : ptr := 0%N.

Definition revng_assert (Cond : bool) : option unit :=
  if Cond then Some tt else None.

Definition revng_abort {A : Type} : option A := None.

(** ** std::set, std::pair and std::vector comparison

[StdSet.insert] is [std::set::insert]: it returns the element the
returned iterator points to, the set after the call, and whether the
element was inserted. *)

Module StdSet.
Section set.
Context {A : Type} (less : A → A → bool).

Fixpoint insert (x : A) (s : list A) : A * list A * bool :=
  match s with
  | [] => (x, [x], true)
  | y :: s' =>
      if less x y then (x, x :: s, true)
      else if less y x then
        let '(it, r, new) := insert x s' in (it, y :: r, new)
      else (y, s, false)
  end.

(** Equivalence of two elements for the set: neither is below the
    other. *)
Definition incomparable (x y : A) : Prop := less x y = false ∧ less y x = false.

(** Iteration order of a well-formed set: strictly ascending. *)
Definition ordered (s : list A) : Prop := StronglySorted (λ a b, less a b = true) s.
End set.
End StdSet.

(** [std::pair<T1,T2>::operator<]. *)
Definition pair_less {A B : Type} (lessA : A → A → bool) (lessB : B → B → bool)
    (p q : A * B) : bool :=
  lessA p.1 q.1 || (negb (lessA q.1 p.1) && lessB p.2 q.2).

(** [std::lexicographical_compare], the [operator<] of vectors. *)
Fixpoint lexicographical_compare {A : Type} (less : A → A → bool) (a b : list A) : bool :=
  match a, b with
  | _, [] => false
  | [], _ :: _ => true
  | x :: a', y :: b' =>
      if less x y then true
      else if less y x then false
      else lexicographical_compare less a' b'
  end.

(** [operator<] of [std::optional<int64_t>]: an empty optional is below
    every value. *)
Definition optional_less (a b : option Z) : bool :=
  match b with
  | None => false
  | Some y => match a with None => true | Some x => x <? y end
  end.

(** ** Offset expressions and link tags *)

Record OffsetExpression := mkOffsetExpression {
  TripCounts : list (option Z);
  Strides : list Z;
  Offset : Z
}.

#[global] Instance OffsetExpression_eq_dec : EqDecision OffsetExpression.
Proof. solve_decision. Defined.

(** [explicit OffsetExpression(int64_t Off)] *)
Definition OffsetExpression_of (Off : Z) : OffsetExpression :=
  {| TripCounts := []; Strides := []; Offset := Off |}.

(** [explicit OffsetExpression()] *)
Definition OffsetExpression_default : OffsetExpression := OffsetExpression_of 0.

(** [OffsetExpression::operator<=>] *)
Definition OffsetExpression_cmp (a b : OffsetExpression) : comparison :=
  match Offset a ?= Offset b with
  | Eq =>
      if lexicographical_compare Z.ltb (Strides a) (Strides b) then Lt
      else if lexicographical_compare Z.ltb (Strides b) (Strides a) then Gt
      else if lexicographical_compare optional_less (TripCounts a) (TripCounts b) then Lt
      else if lexicographical_compare optional_less (TripCounts b) (TripCounts a) then Gt
      else Eq
  | c => c
  end.

Inductive LinkKind := LK_Inheritance | LK_Equality | LK_Instance | LK_All.

#[global] Instance LinkKind_eq_dec : EqDecision LinkKind.
Proof. solve_decision. Defined.

Definition LinkKind_value (K : LinkKind) : Z :=
  match K with
  | LK_Inheritance => 0
  | LK_Equality => 1
  | LK_Instance => 2
  | LK_All => 3
  end.

Record TypeLinkTag := mkTypeLinkTag {
  OE : OffsetExpression;
  Kind : LinkKind
}.

#[global] Instance TypeLinkTag_eq_dec : EqDecision TypeLinkTag.
Proof. solve_decision. Defined.

Definition getKind (T : TypeLinkTag) : LinkKind := Kind T.

Definition getOffsetExpr (T : TypeLinkTag) : option OffsetExpression :=
  _ ← revng_assert (bool_decide (LinkKind_value (getKind T) = LinkKind_value LK_Instance));
  Some (OE T).

Definition equalityTag : TypeLinkTag := mkTypeLinkTag OffsetExpression_default LK_Equality.

Definition inheritanceTag : TypeLinkTag := mkTypeLinkTag OffsetExpression_default LK_Inheritance.

Definition instanceTag (O : OffsetExpression) : TypeLinkTag := mkTypeLinkTag O LK_Instance.

(** [TypeLinkTag::operator<=>] *)
Definition TypeLinkTag_cmp (a b : TypeLinkTag) : comparison :=
  match LinkKind_value (Kind a) ?= LinkKind_value (Kind b) with
  | Eq => OffsetExpression_cmp (OE a) (OE b)
  | c => c
  end.

(** [TypeLinkTag::operator<] *)
Definition TypeLinkTag_less (a b : TypeLinkTag) : bool :=
  match TypeLinkTag_cmp a b with Lt => true | _ => false end.

(** ** The LLVM IR consumed by both components *)

Inductive LLVMType :=
| VoidTy
| LabelTy
| FloatingPointTy (BitWidth : N)
| IntegerTy (BitWidth : N)
| PointerTy (ElementType : LLVMType)
| StructTy (Elements : list LLVMType)
| ArrayTy (ElementType : LLVMType) (NumElements : N)
| VectorTy (ElementType : LLVMType) (NumElements : N)
| FunctionTy (ReturnType : LLVMType) (Params : list LLVMType) (VarArg : bool).

(** LLVM types are uniqued, so comparing two [llvm::Type *] compares the
    types. *)
Fixpoint LLVMType_eqb (a b : LLVMType) {struct a} : bool :=
  let fix all_eqb (l m : list LLVMType) {struct l} : bool :=
    match l, m with
    | [], [] => true
    | x :: l', y :: m' => LLVMType_eqb x y && all_eqb l' m'
    | _, _ => false
    end in
  match a, b with
  | VoidTy, VoidTy => true
  | LabelTy, LabelTy => true
  | FloatingPointTy w, FloatingPointTy w' => (w =? w')%N
  | IntegerTy w, IntegerTy w' => (w =? w')%N
  | PointerTy t, PointerTy t' => LLVMType_eqb t t'
  | StructTy es, StructTy es' => all_eqb es es'
  | ArrayTy t n, ArrayTy t' n' => LLVMType_eqb t t' && (n =? n')%N
  | VectorTy t n, VectorTy t' n' => LLVMType_eqb t t' && (n =? n')%N
  | FunctionTy r ps v, FunctionTy r' ps' v' =>
      LLVMType_eqb r r' && all_eqb ps ps' && Bool.eqb v v'
  | _, _ => false
  end.

Definition isIntegerTy (T : LLVMType) : bool :=
  match T with IntegerTy _ => true | _ => false end.

Definition isPointerTy (T : LLVMType) : bool :=
  match T with PointerTy _ => true | _ => false end.

Definition isIntOrPtrTy (T : LLVMType) : bool := isIntegerTy T || isPointerTy T.

Inductive Opcode :=
(* terminators *)
| Ret | Br | Switch | IndirectBr | Invoke | Resume | Unreachable
| CleanupRet | CatchRet | CatchSwitch | CallBr
(* unary and binary operators *)
| FNeg | Add | FAdd | Sub | FSub | Mul | FMul | UDiv | SDiv | FDiv
| URem | SRem | FRem
(* logical operators *)
| Shl | LShr | AShr | And | Or | Xor
(* memory *)
| Alloca | Load | Store | GetElementPtr | Fence | AtomicCmpXchg | AtomicRMW
(* casts *)
| Trunc | ZExt | SExt | FPToUI | FPToSI | UIToFP | SIToFP | FPTrunc | FPExt
| PtrToInt | IntToPtr | BitCast | AddrSpaceCast
(* others *)
| CleanupPad | CatchPad | ICmp | FCmp | PHI | Call | Select
| VAArg | ExtractElement | InsertElement | ShuffleVector
| ExtractValue | InsertValue | LandingPad.

#[global] Instance Opcode_eq_dec : EqDecision Opcode.
Proof. solve_decision. Defined.

Inductive Predicate :=
| ICMP_EQ | ICMP_NE | ICMP_UGT | ICMP_UGE | ICMP_ULT | ICMP_ULE
| ICMP_SGT | ICMP_SGE | ICMP_SLT | ICMP_SLE
| FCMP (code : N).

(** [CmpInst::isSigned] *)
Definition isSigned (P : Predicate) : bool :=
  match P with
  | ICMP_SGT | ICMP_SGE | ICMP_SLT | ICMP_SLE => true
  | _ => false
  end.

Record FunctionData := mkFunctionData {
  FunctionId : N;
  FunctionName : string;
  getReturnType : LLVMType;
  getParamTypes : list LLVMType;
  isVarArg : bool
}.

Definition getFunctionType (F : FunctionData) : LLVMType :=
  FunctionTy (getReturnType F) (getParamTypes F) (isVarArg F).

Record InstructionData := mkInstructionData {
  InstructionId : N;
  getOpcode : Opcode;
  getPredicate : Predicate;          (* meaningful for compare instructions *)
  InstructionTy : LLVMType;
  getNumUses : N;
  isStaticAlloca : bool;             (* meaningful for allocas *)
  getAllocationSizeInBits : option N (* meaningful for allocas *)
}.

Inductive Value :=
| ConstantInt (Ty : LLVMType) (Val : Z)
| ConstantPointerNull (Ty : LLVMType)
| OtherConstantData (Ty : LLVMType)
| ConstantExpr (Op : Opcode) (Ty : LLVMType) (Operands : list Value)
| Function (F : FunctionData)
| GlobalVariable (Id : N) (ValueType : LLVMType)
| Argument (Parent : FunctionData) (ArgNo : N) (Ty : LLVMType)
| Instruction (Inst : InstructionData) (Operands : list Value)
| OtherValue (Ty : LLVMType).

(** [Value::getType] *)
Definition getType (V : Value) : LLVMType :=
  match V with
  | ConstantInt Ty _ | ConstantPointerNull Ty | OtherConstantData Ty
  | ConstantExpr _ Ty _ | Argument _ _ Ty | OtherValue Ty => Ty
  | Function F => PointerTy (getFunctionType F)
  | GlobalVariable _ VT => PointerTy VT
  | Instruction Inst _ => InstructionTy Inst
  end.

Definition isa_Function (V : Value) : bool :=
  match V with Function _ => true | _ => false end.

Definition isa_GlobalVariable (V : Value) : bool :=
  match V with GlobalVariable _ _ => true | _ => false end.

Definition isa_ConstantPointerNull (V : Value) : bool :=
  match V with ConstantPointerNull _ => true | _ => false end.

Definition isa_ConstantInt (V : Value) : bool :=
  match V with ConstantInt _ _ => true | _ => false end.

(** The IR objects of a module, by address. *)
Abbreviation Module := (gmap ptr Value).

(** ** Layout-type keys *)

(** [std::numeric_limits<unsigned>::max()] *)
Definition UINT_MAX : N := 4294967295%N.

Record LayoutTypePtr := mkLayoutTypePtr {
  V : ptr;
  FieldIdx : N
}.

(** [dyn_cast<llvm::StructType>(F->getReturnType())] for
    [F = dyn_cast<llvm::Function>(V)]: the elements of the struct that [V]
    returns, when [V] is a function that returns a struct. *)
Definition returnedStruct (Vobj : Value) : option (list LLVMType) :=
  let F := match Vobj with Function F => Some F | _ => None end in
  match F with
  | None => None
  | Some F => match getReturnType F with
              | StructTy Elements => Some Elements
              | _ => None
              end
  end.

(** The constructor [LayoutTypePtr(const llvm::Value *Val, unsigned Idx)].
    The pointer [Val] is looked up in the module; dereferencing a pointer to
    no IR object has no result. *)
Definition LayoutTypePtr_new (M : Module) (Val : ptr) (Idx : N) : option LayoutTypePtr :=
  _ ← revng_assert (negb (Val =? nullptr)%N);
  Vobj ← M !! Val;
  let Ty := getType Vobj in
  _ ← revng_assert (isa_Function Vobj || isIntegerTy Ty || isPointerTy Ty);
  let StructT := returnedStruct Vobj in
  let VIsFunctionAndReturnsStruct := bool_decide (StructT ≠ None) in
  _ ← revng_assert (xorb VIsFunctionAndReturnsStruct (Idx =? UINT_MAX)%N);
  _ ← revng_assert (negb VIsFunctionAndReturnsStruct
                    || match StructT with
                       | Some Elements => (Idx <? N.of_nat (length Elements))%N
                       | None => false
                       end);
  Some (mkLayoutTypePtr Val Idx).

(** [LayoutTypePtr(Val)], with the default index. *)
Definition LayoutTypePtr_of (M : Module) (Val : ptr) : option LayoutTypePtr :=
  LayoutTypePtr_new M Val UINT_MAX.

(** The defaulted copy and move assignment, [operator=]: each member of
    the object [This] is overwritten with the member of [Other]; the result
    is the object [This] after the assignment.  The two members are private
    and the class has no other member function that writes them. *)
Definition LayoutTypePtr_assign (This Other : LayoutTypePtr) : LayoutTypePtr :=
  {| V := V Other; FieldIdx := FieldIdx Other |}.

(** [LayoutTypePtr::operator<=>] *)
Definition LayoutTypePtr_cmp (a b : LayoutTypePtr) : comparison :=
  match (V a ?= V b)%N with
  | Eq => (FieldIdx a ?= FieldIdx b)%N
  | c => c
  end.

Definition LayoutTypePtr_less (a b : LayoutTypePtr) : bool :=
  match LayoutTypePtr_cmp a b with Lt => true | _ => false end.

Definition LayoutTypePtr_eq (a b : LayoutTypePtr) : bool :=
  match LayoutTypePtr_cmp a b with Eq => true | _ => false end.

(** ** The type-system graph *)

Record LayoutType := mkLayoutType {
  Accesses : list ptr;   (* llvm::SmallPtrSet<const llvm::Use *, 1> *)
  Size : N
}.

(** [Link = std::pair<LayoutTypeSystemNode *, const TypeLinkTag *>] *)
Abbreviation Link := (ptr * ptr)%type.

(** The order of [NeighborsSet = std::set<Link>]: [std::less] on a pair of
    pointers, that is on the two addresses. *)
Definition Link_less : Link → Link → bool := pair_less N.ltb N.ltb.

Record LayoutTypeSystemNode := mkLayoutTypeSystemNode {
  ID : N;
  Successors : list Link;
  Predecessors : list Link;
  L : LayoutType
}.

(** [LayoutTypeSystemNode(uint64_t I)] *)
Definition LayoutTypeSystemNode_new (I : N) : LayoutTypeSystemNode :=
  {| ID := I; Successors := []; Predecessors := []; L := mkLayoutType [] 0 |}.

Definition hasValidLayout (N : option LayoutTypeSystemNode) : bool :=
  match N with
  | None => false
  | Some N => negb (bool_decide (Accesses (L N) = []))
  end.

(** An element of [std::set<TypeLinkTag> LinkTags] together with the address
    of the set cell that holds it: that address is the [const TypeLinkTag *]
    stored in the links. *)
Abbreviation TagCell := (TypeLinkTag * ptr)%type.

Definition TagCell_less (a b : TagCell) : bool := TypeLinkTag_less a.1 b.1.

(** Where the allocator places the cell of a tag that [LinkTags.insert]
    adds: some address that holds no other cell. *)
Class TagAllocator := {
  newTagCell : list TagCell → ptr;
  newTagCell_fresh : ∀ cells, newTagCell cells ∉ cells.*2
}.

Record LayoutTypeSystem := mkLayoutTypeSystem {
  M : Module;
  NID : N;
  (* std::set<std::unique_ptr<LayoutTypeSystemNode>>: the nodes by address *)
  Layouts : gmap ptr LayoutTypeSystemNode;
  TypePtrToLayoutMap : gmap (ptr * N) ptr;
  LayoutToTypePtrsMap : gmap ptr (list (ptr * N));
  LinkTags : list TagCell
}.

(** [LayoutTypeSystem(llvm::Module &Mod)] *)
Definition LayoutTypeSystem_new (Mod : Module) : LayoutTypeSystem :=
  {| M := Mod; NID := 0; Layouts := ∅; TypePtrToLayoutMap := ∅;
     LayoutToTypePtrsMap := ∅; LinkTags := [] |}.

Definition set_Layouts (Ls : gmap ptr LayoutTypeSystemNode) (TS : LayoutTypeSystem)
    : LayoutTypeSystem :=
  {| M := M TS; NID := NID TS; Layouts := Ls;
     TypePtrToLayoutMap := TypePtrToLayoutMap TS;
     LayoutToTypePtrsMap := LayoutToTypePtrsMap TS; LinkTags := LinkTags TS |}.

Definition set_LinkTags (Tags : list TagCell) (TS : LayoutTypeSystem)
    : LayoutTypeSystem :=
  {| M := M TS; NID := NID TS; Layouts := Layouts TS;
     TypePtrToLayoutMap := TypePtrToLayoutMap TS;
     LayoutToTypePtrsMap := LayoutToTypePtrsMap TS; LinkTags := Tags |}.

Definition set_Successors (S : list Link) (Node : LayoutTypeSystemNode)
    : LayoutTypeSystemNode :=
  {| ID := ID Node; Successors := S; Predecessors := Predecessors Node; L := L Node |}.

Definition set_Predecessors (P : list Link) (Node : LayoutTypeSystemNode)
    : LayoutTypeSystemNode :=
  {| ID := ID Node; Successors := Successors Node; Predecessors := P; L := L Node |}.

(** [Layouts.count(P)] *)
Definition Layouts_count (TS : LayoutTypeSystem) (P : ptr) : bool :=
  bool_decide (is_Some (Layouts TS !! P)).

Section links.
Context `{TagAllocator}.

(** [LayoutTypeSystem::addLink]: the result is the returned pair and the
    type system after the call. *)
Definition addLink (Src Tgt : ptr) (Tag : TypeLinkTag) (TS : LayoutTypeSystem)
    : option ((ptr * bool) * LayoutTypeSystem) :=
  if (Src =? nullptr)%N || (Tgt =? nullptr)%N || (Src =? Tgt)%N then
    Some ((nullptr, false), TS)
  else
    _ ← revng_assert (Layouts_count TS Src);
    _ ← revng_assert (Layouts_count TS Tgt);
    let '(It, Tags, _) :=
      StdSet.insert TagCell_less (Tag, newTagCell (LinkTags TS)) (LinkTags TS) in
    let TS := set_LinkTags Tags TS in
    (* [It != LinkTags.end()] holds: [insert] returns an element *)
    let T := It.2 in
    SrcNode ← Layouts TS !! Src;
    let '(_, Succs, New) := StdSet.insert Link_less (Tgt, T) (Successors SrcNode) in
    let TS := set_Layouts (<[Src := set_Successors Succs SrcNode]> (Layouts TS)) TS in
    TgtNode ← Layouts TS !! Tgt;
    let '(_, Preds, New') := StdSet.insert Link_less (Src, T) (Predecessors TgtNode) in
    let TS := set_Layouts (<[Tgt := set_Predecessors Preds TgtNode]> (Layouts TS)) TS in
    Some ((T, New || New'), TS).

(** [LayoutTypeSystem::addEqualityLink] *)
Definition addEqualityLink (Src Tgt : ptr) (TS : LayoutTypeSystem)
    : option ((ptr * bool) * LayoutTypeSystem) :=
  '(ForwardLinkTag, TS) ← addLink Src Tgt equalityTag TS;
  '(BackwardLinkTag, TS) ← addLink Tgt Src equalityTag TS;
  _ ← revng_assert (bool_decide (ForwardLinkTag = BackwardLinkTag));
  Some (ForwardLinkTag, TS).

(** [LayoutTypeSystem::addInheritanceLink] *)
Definition addInheritanceLink (Src Tgt : ptr) (TS : LayoutTypeSystem)
    : option ((ptr * bool) * LayoutTypeSystem) :=
  addLink Src Tgt inheritanceTag TS.

(** [LayoutTypeSystem::addInstanceLink] *)
Definition addInstanceLink (Src Tgt : ptr) (OE : OffsetExpression) (TS : LayoutTypeSystem)
    : option ((ptr * bool) * LayoutTypeSystem) :=
  addLink Src Tgt (instanceTag OE) TS.
End links.

(** The tag a link's handle points to. *)
Definition tagAt (TS : LayoutTypeSystem) (T : ptr) : option TypeLinkTag :=
  fst <$> find (λ c : TagCell, (c.2 =? T)%N) (LinkTags TS).

(** [hasLinkKind<K>] *)
Definition hasLinkKind (K : LinkKind) (TS : LayoutTypeSystem) (Lk : Link) : option bool :=
  match K with
  | LK_All => Some true
  | _ => T ← tagAt TS Lk.2; Some (bool_decide (getKind T = K))
  end.

(** An allocator that places each new cell above all the cells in use. *)
Definition bumpTagCell (cells : list TagCell) : ptr :=
  (1 + foldr N.max 0 (cells.*2))%N.

(** ** The clang AST produced by the builder *)

Inductive BuiltinKind :=
| Void | Bool
| Char_U | UChar | UShort | UInt | ULong | ULongLong | UInt128
| Char_S | SChar | Short | Int | Long | LongLong | Int128
| Float | Double.

#[global] Instance BuiltinKind_eq_dec : EqDecision BuiltinKind.
Proof. solve_decision. Defined.

Inductive ClangType :=
| BuiltinType (Kind : BuiltinKind)
| ClangPointerType (Pointee : QualType)
| ConstantArrayType (Element : QualType) (ArraySize : N)
| FunctionProtoType (Result : QualType)
| OtherClangType (Id : N)
with QualType :=
| NullQualType
| mkQualType (Ty : ClangType) (Volatile : bool).

Scheme ClangType_QualType_ind := Induction for ClangType Sort Prop
  with QualType_ClangType_ind := Induction for QualType Sort Prop.

Combined Scheme ClangType_QualType_mutind
  from ClangType_QualType_ind, QualType_ClangType_ind.

Fixpoint ClangType_eqb (a b : ClangType) {struct a} : bool :=
  match a, b with
  | BuiltinType k, BuiltinType k' => bool_decide (k = k')
  | ClangPointerType p, ClangPointerType p' => QualType_eqb p p'
  | ConstantArrayType e n, ConstantArrayType e' n' => QualType_eqb e e' && (n =? n')%N
  | FunctionProtoType r, FunctionProtoType r' => QualType_eqb r r'
  | OtherClangType i, OtherClangType i' => (i =? i')%N
  | _, _ => false
  end
with QualType_eqb (a b : QualType) {struct a} : bool :=
  match a, b with
  | NullQualType, NullQualType => true
  | mkQualType t v, mkQualType t' v' => ClangType_eqb t t' && Bool.eqb v v'
  | _, _ => false
  end.

Definition unqualified (T : ClangType) : QualType := mkQualType T false.

Definition ASTCtx_VoidTy : QualType := unqualified (BuiltinType Void).
Definition ShortTy : QualType := unqualified (BuiltinType Short).
Definition UnsignedShortTy : QualType := unqualified (BuiltinType UShort).
Definition IntTy : QualType := unqualified (BuiltinType Int).
Definition UnsignedIntTy : QualType := unqualified (BuiltinType UInt).
Definition LongLongTy : QualType := unqualified (BuiltinType LongLong).
Definition UnsignedLongLongTy : QualType := unqualified (BuiltinType ULongLong).
Definition Int128Ty : QualType := unqualified (BuiltinType Int128).
Definition UnsignedInt128Ty : QualType := unqualified (BuiltinType UInt128).

(** [Type::isIntegerType] on the types of the model. *)
Definition isIntegerKind (K : BuiltinKind) : bool :=
  match K with
  | Void | Float | Double => false
  | _ => true
  end.

Definition isUnsignedIntegerKind (K : BuiltinKind) : bool :=
  match K with
  | Bool | Char_U | UChar | UShort | UInt | ULong | ULongLong | UInt128 => true
  | _ => false
  end.

Definition isIntegerType (T : QualType) : bool :=
  match T with
  | mkQualType (BuiltinType K) _ => isIntegerKind K
  | _ => false
  end.

Definition isUnsignedIntegerType (T : QualType) : bool :=
  match T with
  | mkQualType (BuiltinType K) _ => isUnsignedIntegerKind K
  | _ => false
  end.

Definition isPointerType (T : QualType) : bool :=
  match T with
  | mkQualType (ClangPointerType _) _ => true
  | _ => false
  end.

Definition isBuiltinType (T : QualType) : bool :=
  match T with
  | mkQualType (BuiltinType _) _ => true
  | _ => false
  end.

(** [ASTContext::getPointerType] *)
Definition getPointerType (T : QualType) : QualType := unqualified (ClangPointerType T).

(** [ASTContext::getConstantArrayType] *)
Definition getConstantArrayType (EltTy : QualType) (ArySize : N) : QualType :=
  unqualified (ConstantArrayType EltTy ArySize).

(** [QualType::addVolatile] *)
Definition addVolatile (T : QualType) : QualType :=
  match T with
  | NullQualType => NullQualType
  | mkQualType t _ => mkQualType t true
  end.

(** What the builder asks of clang's [ASTContext]: the target's plain
    [char], the widths of types, [uintptr_t] (an integer type) and the
    integer type of a given width and signedness. *)
Class ASTContext := {
  CharTy : QualType;
  getTypeSize : QualType → N;
  getIntWidth : QualType → N;
  getUIntPtrType : QualType;
  getIntTypeForBitwidth : N → bool → QualType;
  getUIntPtrType_isIntegerType : isIntegerType getUIntPtrType = true
}.

(** The translation of IR types to C types, [IRASTTypeTranslation], on a
    value and on a type. *)
Class IRASTTypeTranslation := {
  getQualType : Value → QualType;
  getQualTypeOfType : LLVMType → QualType
}.

(** Whether LLVM was built with its assertions ([assert] not compiled
    out). *)
Class LLVMBuild := {
  LLVM_ENABLE_ASSERTIONS : bool
}.

(** The check of [llvm::cast<To>(Val)], [assert(isa<To>(Val))]: it stops
    the program where the assertions are compiled in, and is no check where
    they are not. *)
Definition llvm_cast_assert `{LLVMBuild} (IsA : bool) : option unit :=
  if LLVM_ENABLE_ASSERTIONS then revng_assert IsA else Some tt.

Record APInt := mkAPInt {
  BitWidth : N;
  APVal : Z      (* the bits, as an unsigned number below 2^BitWidth *)
}.

(** [APInt(unsigned numBits, uint64_t val, bool isSigned)] *)
Definition APInt_new (numBits : N) (val : Z) (isSigned : bool) : APInt :=
  let val64 := val `mod` 2 ^ 64 in
  if (numBits <=? 64)%N then mkAPInt numBits (val64 `mod` 2 ^ Z.of_N numBits)
  else if isSigned && (2 ^ 63 <=? val64) then
    mkAPInt numBits (val64 + (2 ^ Z.of_N numBits - 2 ^ 64))
  else mkAPInt numBits val64.

(** [APInt::getNullValue] *)
Definition APInt_getNullValue (numBits : N) : APInt := mkAPInt numBits 0.

(** [APInt::getZExtValue]: a value of more than 64 active bits trips an
    assertion of LLVM, and without assertions gives its low word. *)
Definition getZExtValue `{LLVMBuild} (A : APInt) : option Z :=
  if (BitWidth A <=? 64)%N then Some (APVal A)
  else
    _ ← revng_assert (negb LLVM_ENABLE_ASSERTIONS || (APVal A <? 2 ^ 64));
    Some (APVal A `mod` 2 ^ 64).

(** [ConstantInt::getValue]: the [APInt] of the width of the type of the
    constant.  A constant [ConstantInt Ty Val] of the embedding stands for
    the constant of type [Ty] whose bits are those of [Val] in two's
    complement, so that [i128 -1] is the bit pattern [2^128 - 1]. *)
Definition ConstantInt_getValue (Ty : LLVMType) (Val : Z) : APInt :=
  let w := match Ty with IntegerTy w => w | _ => 0%N end in
  mkAPInt w (Val `mod` 2 ^ Z.of_N w).

Inductive ExprValueKind := VK_RValue | VK_LValue.

Inductive CastKind :=
| CK_IntegralCast | CK_PointerToIntegral | CK_IntegralToPointer | CK_BitCast
| CK_LValueToRValue | CK_ArrayToPointerDecay.

Inductive BinaryOperatorKind :=
| BO_Mul | BO_Div | BO_Rem | BO_Add | BO_Sub | BO_Shl | BO_Shr
| BO_LT | BO_GT | BO_LE | BO_GE | BO_EQ | BO_NE
| BO_And | BO_Xor | BO_Or | BO_Assign.

Inductive UnaryOperatorKind := UO_AddrOf | UO_Deref.

Record ParmVarDecl := mkParmVarDecl {
  ParmName : string;
  ParmType : QualType
}.

Record VarDecl := mkVarDecl {
  VarName : string;
  VarType : QualType
}.

Record FunctionDecl := mkFunctionDecl {
  FunctionDeclName : string;
  FunctionDeclType : QualType;
  Params : list ParmVarDecl
}.

Record LabelDecl := mkLabelDecl {
  LabelName : string
}.

Inductive ValueDecl :=
| DeclFunction (D : FunctionDecl)
| DeclVar (D : VarDecl)
| DeclParmVar (D : ParmVarDecl).

Inductive Expr :=
| IntegerLiteral (Val : APInt) (Ty : QualType)
| CharacterLiteral (Val : Z) (Ty : QualType)
| DeclRefExpr (D : ValueDecl) (Ty : QualType) (VK : ExprValueKind)
| ParenExpr (E : Expr)
| ImplicitCastExpr (Ty : QualType) (CK : CastKind) (Op : Expr) (VK : ExprValueKind)
| CStyleCastExpr (Ty : QualType) (VK : ExprValueKind) (CK : CastKind) (Op : Expr)
| BinaryOperator (LHS RHS : Expr) (Opc : BinaryOperatorKind) (Ty : QualType)
                 (VK : ExprValueKind)
| UnaryOperator (Input : Expr) (Opc : UnaryOperatorKind) (Ty : QualType)
                (VK : ExprValueKind)
| ArraySubscriptExpr (LHS RHS : Expr) (Ty : QualType) (VK : ExprValueKind)
| ConditionalOperator (Cond LHS RHS : Expr) (Ty : QualType) (VK : ExprValueKind)
| CallExpr (Callee : Expr) (Args : list (option Expr)) (Ty : QualType)
           (VK : ExprValueKind)
(* a [ReturnStmt] behind an [Expr *]: what an unchecked [cast<Expr>] of
   a return statement hands on *)
| ReturnStmtAsExpr (RetExpr : option Expr).

Inductive Stmt :=
| ExprStmt (E : Expr)
| ReturnStmt (RetExpr : option Expr).

(** [Expr::getType].  A return statement has no type: reading one through
    an [Expr *] is undefined, and the embedding reads the null type, which no
    check of the builder accepts. *)
Fixpoint Expr_getType (E : Expr) : QualType :=
  match E with
  | IntegerLiteral _ Ty | CharacterLiteral _ Ty | DeclRefExpr _ Ty _
  | ImplicitCastExpr Ty _ _ _ | CStyleCastExpr Ty _ _ _
  | BinaryOperator _ _ _ Ty _ | UnaryOperator _ _ Ty _
  | ArraySubscriptExpr _ _ Ty _ | ConditionalOperator _ _ _ Ty _
  | CallExpr _ _ Ty _ => Ty
  | ParenExpr E => Expr_getType E
  | ReturnStmtAsExpr _ => NullQualType
  end.

(** [Expr::isLValue] *)
Fixpoint isLValue (E : Expr) : bool :=
  match E with
  | IntegerLiteral _ _ | CharacterLiteral _ _ => false
  | DeclRefExpr _ _ VK | ImplicitCastExpr _ _ _ VK | CStyleCastExpr _ VK _ _
  | BinaryOperator _ _ _ _ VK | UnaryOperator _ _ _ VK
  | ArraySubscriptExpr _ _ _ VK | ConditionalOperator _ _ _ _ VK
  | CallExpr _ _ _ VK => match VK with VK_LValue => true | VK_RValue => false end
  | ParenExpr E => isLValue E
  | ReturnStmtAsExpr _ => false
  end.

Definition isa_BinaryOperator (E : Expr) : bool :=
  match E with BinaryOperator _ _ _ _ _ => true | _ => false end.

Definition isa_ConditionalOperator (E : Expr) : bool :=
  match E with ConditionalOperator _ _ _ _ _ => true | _ => false end.

(** ** The statement builder *)

Module IR2AST.

Record BasicBlock := mkBasicBlock {
  BasicBlockId : N;
  Instructions : list Value
}.

(** The state of a [StmtBuilder]; the maps keyed by an IR object are keyed
    by its identifier. *)
Record StmtBuilder := mkStmtBuilder {
  TheFunction : FunctionData;             (* F *)
  ModuleFunctions : list FunctionData;    (* the functions of F.getParent() *)
  ToSerialize : gset N;
  FDeclDecls : list VarDecl;              (* declarations added to FDecl *)
  FunctionDecls : gmap N FunctionDecl;
  GlobalDecls : gmap N VarDecl;
  AllocaDecls : gmap N VarDecl;
  BBLabelDecls : gmap N LabelDecl;
  InstrStmts : gmap N Stmt;
  VarDecls : gmap N VarDecl;
  NVar : N
}.

(** [Module::getFunction] *)
Definition getFunction (Fs : list FunctionData) (Name : string) : option FunctionData :=
  find (λ F, bool_decide (FunctionName F = Name)) Fs.

Definition isa_CastInst (Op : Opcode) : bool :=
  match Op with
  | Trunc | ZExt | SExt | FPToUI | FPToSI | UIToFP | SIToFP | FPTrunc | FPExt
  | PtrToInt | IntToPtr | BitCast | AddrSpaceCast => true
  | _ => false
  end.

Section builder.
Context `{ASTContext} `{IRASTTypeTranslation} `{LLVMBuild}.

(** [createCast].  The function calls itself once, with [uintptr_t] as
    destination, which is an integer type: the second call never reaches
    a third, and [depth] only bounds the recursion. *)
Fixpoint createCast_rec (depth : nat) (LHSQualTy : QualType) (RHS : Expr)
    : option Expr :=
  match depth with
  | O => None
  | S depth =>
      let RHSQualTy := Expr_getType RHS in
      '(CK, RHS) ←
        (if isIntegerType LHSQualTy then
           if isIntegerType RHSQualTy then Some (CK_IntegralCast, RHS)
           else if isPointerType RHSQualTy then Some (CK_PointerToIntegral, RHS)
           else revng_abort
         else if isPointerType LHSQualTy then
           if isIntegerType RHSQualTy then
             let PtrSize := getTypeSize LHSQualTy in
             let IntegerSize := getTypeSize RHSQualTy in
             _ ← revng_assert (IntegerSize <=? PtrSize)%N;
             RHS ← (if (IntegerSize <? PtrSize)%N
                    then createCast_rec depth getUIntPtrType RHS
                    else Some RHS);
             Some (CK_IntegralToPointer, RHS)
           else if isPointerType RHSQualTy then Some (CK_BitCast, RHS)
           else revng_abort
         else revng_abort);
      Some (CStyleCastExpr LHSQualTy VK_RValue CK RHS)
  end.

Definition createCast (LHSQualTy : QualType) (RHS : Expr) : option Expr :=
  createCast_rec 2 LHSQualTy RHS.

(** [getClangBinaryOpKind].  [Res] is the local variable of the source;
    a case that does not end in [break] runs on into the next one. *)
Definition getClangBinaryOpKind (I : InstructionData) : option BinaryOperatorKind :=
  match getOpcode I with
  | Add => let Res := BO_Add in Some Res
  | Sub => let Res := BO_Sub in Some Res
  | Mul =>
      let Res := BO_Mul in
      (* no break: control falls through into the case of And *)
      let Res := BO_And in Some Res
  | And => let Res := BO_And in Some Res
  | Or => let Res := BO_Or in Some Res
  | Xor => let Res := BO_Xor in Some Res
  | ICmp =>
      match getPredicate I with
      | ICMP_EQ => Some BO_EQ
      | ICMP_NE => Some BO_NE
      | ICMP_UGT | ICMP_SGT => Some BO_GT
      | ICMP_UGE | ICMP_SGE => Some BO_GE
      | ICMP_ULT | ICMP_SLT => Some BO_LT
      | ICMP_ULE | ICMP_SLE => Some BO_LE
      | FCMP _ => revng_abort
      end
  | Shl => Some BO_Shl
  | LShr | AShr => Some BO_Shr
  | UDiv | SDiv => Some BO_Div
  | URem | SRem => Some BO_Rem
  | _ => revng_abort
  end.

(** [is128Int]: the comparison is on the type without its qualifiers. *)
Definition is128Int (E : Expr) : bool :=
  match Expr_getType E with
  | mkQualType (BuiltinType Int128) _ | mkQualType (BuiltinType UInt128) _ => true
  | _ => false
  end.

(** [getCastedBinaryOperands] *)
Definition getCastedBinaryOperands (I : InstructionData) (LHS RHS : Expr)
    : option (Expr * Expr) :=
  let Res := (LHS, RHS) in
  let LHSQualTy := Expr_getType LHS in
  let RHSQualTy := Expr_getType RHS in
  _ ← revng_assert (isIntegerType LHSQualTy && isIntegerType RHSQualTy);
  let LHSSize := getTypeSize LHSQualTy in
  let RHSSize := getTypeSize RHSQualTy in
  let OpCode := getOpcode I in
  _ ← revng_assert ((LHSSize =? RHSSize)%N
                    || match OpCode with Shl | LShr | AShr => true | _ => false end
                    || is128Int RHS || is128Int LHS);
  let Size := N.max LHSSize RHSSize in
  let SignedTy := getIntTypeForBitwidth Size true in
  match OpCode with
  | Add | Sub | Mul | And | Or | Xor | UDiv | URem | Shl | LShr => Some Res
  | SDiv | SRem | AShr | ICmp =>
      if negb (bool_decide (OpCode = ICmp)) || isSigned (getPredicate I) then
        Res2 ← (if isUnsignedIntegerType RHSQualTy
                then createCast SignedTy Res.2 else Some Res.2);
        Res1 ← (if isUnsignedIntegerType LHSQualTy
                then createCast SignedTy Res.1 else Some Res.1);
        Some (Res1, Res2)
      else Some Res
  | _ => revng_abort
  end.

(** [getParenthesizedExprForValue], over the function that gives the
    expression of a value. *)
Definition getParenthesizedExprForValue_of (getExprForValue : Value → option Expr)
    (V : Value) : option Expr :=
  Res ← getExprForValue V;
  Some (if isa_BinaryOperator Res || isa_ConditionalOperator Res
        then ParenExpr Res else Res).

(** [getLiteralFromConstant], over the function that gives the expression
    of a value. *)
Definition getLiteralFromConstant_of (getExprForValue : Value → option Expr)
    (C : Value) : option Expr :=
  match C with
  | ConstantInt Ty Val =>
      let LiteralTy := getQualType C in
      match LiteralTy with
      | NullQualType => None              (* UnderlyingTy != nullptr *)
      | mkQualType (BuiltinType Kind) _ =>
          ConstValue ← getZExtValue (ConstantInt_getValue Ty Val);
          match Kind with
          | Char_U | Char_S | UChar | SChar =>
              Some (CharacterLiteral ConstValue CharTy)
          | UShort =>
              let IntT := UnsignedIntTy in
              let ShortT := UnsignedShortTy in
              let Const := APInt_new (getIntWidth IntT) ConstValue false in
              let Literal := IntegerLiteral Const IntT in
              createCast ShortT Literal
          | Short =>
              let IntT := IntTy in
              let ShortT := ShortTy in
              let Const := APInt_new (getIntWidth IntT) ConstValue true in
              let Literal := IntegerLiteral Const IntT in
              createCast ShortT Literal
          | UInt | ULong | ULongLong =>
              let Const := APInt_new (getIntWidth LiteralTy) ConstValue false in
              Some (IntegerLiteral Const LiteralTy)
          | Int | Long | LongLong =>
              let Const := APInt_new (getIntWidth LiteralTy) ConstValue true in
              Some (IntegerLiteral Const LiteralTy)
          | UInt128 =>
              let Const := APInt_new 64 ConstValue false in
              let T := UnsignedLongLongTy in
              Some (IntegerLiteral Const T)
          | Int128 =>
              let Const := APInt_new 64 ConstValue true in
              let T := LongLongTy in
              Some (IntegerLiteral Const T)
          | _ => revng_abort
          end
      | mkQualType _ _ => None            (* cast<BuiltinType>, read through *)
      end
  | ConstantPointerNull _ =>
      let UIntPtr := getUIntPtrType in
      let UIntPtrSize := getTypeSize UIntPtr in
      Some (IntegerLiteral (APInt_getNullValue UIntPtrSize) UIntPtr)
  | OtherConstantData _ => revng_abort
  | ConstantExpr Op _ Operands =>
      match Op with
      | Trunc | ZExt | SExt | IntToPtr | PtrToInt | BitCast =>
          match Operands with
          | Op0 :: _ =>
              _ ← llvm_cast_assert (isa_ConstantInt Op0);  (* cast<ConstantInt> *)
              getExprForValue Op0
          | [] => None
          end
      | _ => revng_abort
      end
  | _ => revng_abort
  end.

Section exprs.
Variable SB : StmtBuilder.

(** The integer-to-pointer reconciliation shared by the load/store
    paths: [AddrExpr] is cast to a pointer to [PointeeType] unless it
    already is a pointer. *)
Definition castAddrToPointer (PointeeType : QualType) (AddrExpr : Expr)
    : option Expr :=
  let QualAddrType := Expr_getType AddrExpr in
  if negb (isPointerType QualAddrType) then
    _ ← revng_assert (isBuiltinType QualAddrType);
    _ ← revng_assert (isIntegerType QualAddrType);
    let PtrTy := getPointerType PointeeType in
    let PtrSize := getTypeSize PtrTy in
    let IntegerSize := getTypeSize QualAddrType in
    _ ← revng_assert (IntegerSize <=? PtrSize)%N;
    AddrExpr ← (if (IntegerSize <? PtrSize)%N
                then createCast getUIntPtrType AddrExpr
                else Some AddrExpr);
    createCast PtrTy AddrExpr
  else Some AddrExpr.

(** The cast to pointer-to-volatile applied when the address is the
    null pointer constant. *)
Definition castNullAddrToVolatile (Addr : Value) (AddrExpr : Expr) : option Expr :=
  if isa_ConstantPointerNull Addr then
    match Expr_getType AddrExpr with
    | mkQualType (ClangPointerType QualPointeeTy) _ =>
        let QualPointeeTy := addVolatile QualPointeeTy in
        let PtrToVolatileTy := getPointerType QualPointeeTy in
        createCast PtrToVolatileTy AddrExpr
    | _ => None                   (* cast<ClangPointerType>, read through *)
    end
  else Some AddrExpr.

(** The load/store path of [getExprForValue], over the function that
    gives the expression of a value: the lvalue at the address [Addr],
    of type [PointeeType] (the type of the load, or of the stored
    value). *)
Definition getLValueAtAddress_of (getExprForValue : Value → option Expr)
    (Addr : Value) (PointeeType : QualType) : option Expr :=
  AddrExpr ← getParenthesizedExprForValue_of getExprForValue Addr;
  if isa_GlobalVariable Addr then Some AddrExpr
  else
    let QualAddrType := Expr_getType AddrExpr in
    let AddrExpr :=
      ImplicitCastExpr QualAddrType CK_LValueToRValue AddrExpr VK_RValue in
    AddrExpr ← castAddrToPointer PointeeType AddrExpr;
    AddrExpr ← castNullAddrToVolatile Addr AddrExpr;
    Some (UnaryOperator AddrExpr UO_Deref PointeeType VK_LValue).

(** [StmtBuilder::getExprForValue] *)
Fixpoint getExprForValue (V : Value) {struct V} : option Expr :=
  match V with
  | ConstantInt _ _ | ConstantPointerNull _ | OtherConstantData _
  | ConstantExpr _ _ _ =>
      getLiteralFromConstant_of getExprForValue V
  | Function F =>
      FDecl ← FunctionDecls SB !! FunctionId F;
      let Type' := FunctionDeclType FDecl in
      Some (DeclRefExpr (DeclFunction FDecl) Type' VK_LValue)
  | GlobalVariable G _ =>
      GlobalVarDecl ← GlobalDecls SB !! G;
      let Type' := VarType GlobalVarDecl in
      Some (DeclRefExpr (DeclVar GlobalVarDecl) Type' VK_LValue)
  | Instruction Inst Operands =>
      match VarDecls SB !! InstructionId Inst with
      | Some VDecl =>
          let Type' := VarType VDecl in
          Some (DeclRefExpr (DeclVar VDecl) Type' VK_LValue)
      | None =>
          match InstrStmts SB !! InstructionId Inst with
          | Some (ExprStmt E) => Some E
          | Some (ReturnStmt RetExpr) =>
              _ ← llvm_cast_assert false;                   (* cast<Expr> *)
              Some (ReturnStmtAsExpr RetExpr)
          | None =>
              match getOpcode Inst with
              | Load =>
                  match Operands with
                  | Addr :: _ =>
                      getLValueAtAddress_of getExprForValue Addr (getQualType V)
                  | [] => None
                  end
              | Store =>
                  match Operands with
                  | Stored :: Addr :: _ =>
                      getLValueAtAddress_of getExprForValue Addr (getQualType Stored)
                  | _ => None
                  end
              | Op =>
                  if isa_CastInst Op then
                    match Operands with
                    | [] => None
                    | RHS :: _ =>
                        Result ← getParenthesizedExprForValue_of getExprForValue RHS;
                        let RHSTy := getType RHS in
                        let LHSTy := InstructionTy Inst in
                        if negb (LLVMType_eqb RHSTy LHSTy) then
                          _ ← revng_assert (isIntOrPtrTy RHSTy && isIntOrPtrTy LHSTy);
                          let DestTy := getQualTypeOfType LHSTy in
                          '(CK, Result) ←
                            match Op with
                            | Trunc | ZExt | SExt =>
                                _ ← revng_assert (negb (isPointerTy RHSTy)
                                                  && negb (isPointerTy LHSTy));
                                Some (CK_IntegralCast, Result)
                            | IntToPtr =>
                                _ ← revng_assert (negb (isPointerTy RHSTy)
                                                  && isPointerTy LHSTy);
                                let IntQualType := Expr_getType Result in
                                _ ← revng_assert (isPointerType DestTy);
                                let PtrSize := getTypeSize DestTy in
                                let IntegerSize := getTypeSize IntQualType in
                                _ ← revng_assert (IntegerSize <=? PtrSize)%N;
                                Result ← (if (IntegerSize <? PtrSize)%N
                                          then createCast getUIntPtrType Result
                                          else Some Result);
                                Some (CK_IntegralToPointer, Result)
                            | PtrToInt =>
                                _ ← revng_assert (isPointerTy RHSTy
                                                  && negb (isPointerTy LHSTy));
                                Some (CK_PointerToIntegral, Result)
                            | BitCast =>
                                _ ← revng_assert (isPointerTy RHSTy
                                                  && isPointerTy LHSTy);
                                Some (CK_BitCast, Result)
                            | _ => revng_abort
                            end;
                          Some (CStyleCastExpr DestTy VK_RValue CK Result)
                        else Some Result
                    end
                  else revng_abort
              end
          end
      end
  | Argument F ArgNo _ =>
      _ ← revng_assert (negb (isVarArg F));
      let NumLLVMParams := length (getParamTypes F) in
      FDecl ← FunctionDecls SB !! FunctionId F;
      let DeclNumParams := length (Params FDecl) in
      _ ← revng_assert (bool_decide (NumLLVMParams = DeclNumParams));
      ParamVDecl ← Params FDecl !! N.to_nat ArgNo;
      let Type' := ParmType ParamVDecl in
      Some (DeclRefExpr (DeclParmVar ParamVDecl) Type' VK_LValue)
  | OtherValue _ => revng_abort
  end.

(** [StmtBuilder::getLiteralFromConstant] *)
Definition getLiteralFromConstant (C : Value) : option Expr :=
  getLiteralFromConstant_of getExprForValue C.

(** [StmtBuilder::getParenthesizedExprForValue] *)
Definition getParenthesizedExprForValue (V : Value) : option Expr :=
  getParenthesizedExprForValue_of getExprForValue V.

(** The lvalue-to-rvalue conversion applied to an operand. *)
Definition toRValue (E : Expr) : Expr :=
  if isLValue E
  then ImplicitCastExpr (Expr_getType E) CK_LValueToRValue E VK_RValue
  else E.

(** [StmtBuilder::createRValueExprForBinaryOperator] *)
Definition createRValueExprForBinaryOperator (I : InstructionData)
    (Operands : list Value) : option Expr :=
  _ ← revng_assert (bool_decide (length Operands = 2%nat));
  BinOpKind ← getClangBinaryOpKind I;
  LHSVal ← Operands !! 0%nat;
  LHS ← getParenthesizedExprForValue LHSVal;
  let LHS := toRValue LHS in
  RHSVal ← Operands !! 1%nat;
  RHS ← getParenthesizedExprForValue RHSVal;
  let RHS := toRValue RHS in
  '(LHS, RHS) ← getCastedBinaryOperands I LHS RHS;
  let Res := BinaryOperator LHS RHS BinOpKind (Expr_getType LHS) VK_RValue in
  match getOpcode I with
  | SDiv | SRem | AShr | ICmp =>
      let ResType := getQualType (Instruction I Operands) in
      let Res := ParenExpr Res in
      createCast ResType Res
  | _ => Some Res
  end.

(** [getCallee] of revng's IR helpers: the called function of a direct
    call, the last operand of the call instruction. *)
Definition getCallee (Operands : list Value) : option FunctionData :=
  match last Operands with
  | Some (Function F) => Some F
  | _ => None
  end.

(** The argument of a call for the parameter [ParmDecl]. *)
Definition buildCallArg (FD : FunctionDecl) (OpId : nat) (Operand : Value)
    : option (option Expr) :=
  ArgExpr ← getExprForValue Operand;
  let ArgQualTy := Expr_getType ArgExpr in
  ParmDecl ← Params FD !! OpId;
  let ParmQualTy := ParmType ParmDecl in
  ArgExpr ← (if negb (QualType_eqb ParmQualTy ArgQualTy)
             then createCast ParmQualTy (ParenExpr ArgExpr)
             else Some ArgExpr);
  Some (Some ArgExpr).

(** [StmtBuilder::buildStmt] *)
Definition buildStmt (I : InstructionData) (Operands : list Value) : option Stmt :=
  let TheI := Instruction I Operands in
  match getOpcode I with
  | Br => revng_abort
  | Ret =>
      match head Operands with
      | Some RetVal =>
          ReturnedExpr ← getExprForValue RetVal;
          Some (ReturnStmt (Some ReturnedExpr))
      | None => Some (ReturnStmt None)
      end
  | Switch => revng_abort
  | Add | Sub | Mul | UDiv | SDiv | URem | SRem | And | Or | Xor
  | ICmp | Shl | LShr | AShr =>
      ExprStmt <$> createRValueExprForBinaryOperator I Operands
  | Alloca =>
      ArrayDecl ← AllocaDecls SB !! InstructionId I;
      let ArrayTy := VarType ArrayDecl in
      let CharPtrTy := getPointerType CharTy in
      let ArrayDeclRef := DeclRefExpr (DeclVar ArrayDecl) ArrayTy VK_LValue in
      let Kind := CK_ArrayToPointerDecay in
      let ArrayPtrDecay := ImplicitCastExpr CharPtrTy Kind ArrayDeclRef VK_RValue in
      let ArrayIdx := IntegerLiteral (APInt_getNullValue 32) IntTy in
      let ArraySubscript :=
        ArraySubscriptExpr ArrayPtrDecay ArrayIdx CharTy VK_LValue in
      Some (ExprStmt (UnaryOperator ArraySubscript UO_AddrOf CharPtrTy VK_RValue))
  | Load =>
      Addr ← head Operands;
      AddrExpr ← getParenthesizedExprForValue Addr;
      if negb (isa_GlobalVariable Addr) then
        let PointeeType := getQualType TheI in
        AddrExpr ← castAddrToPointer PointeeType AddrExpr;
        AddrExpr ← castNullAddrToVolatile Addr AddrExpr;
        Some (ExprStmt (UnaryOperator AddrExpr UO_Deref PointeeType VK_LValue))
      else Some (ExprStmt AddrExpr)
  | Store =>
      Stored ← head Operands;
      LHS ← getParenthesizedExprForValue TheI;
      let LHSQualTy := Expr_getType LHS in
      RHS ← getParenthesizedExprForValue Stored;
      RHS ← (if negb (QualType_eqb (Expr_getType RHS) LHSQualTy) then
               let RHS := if isa_BinaryOperator RHS then ParenExpr RHS else RHS in
               createCast LHSQualTy RHS
             else Some RHS);
      let BinOpKind := BO_Assign in
      Some (ExprStmt (BinaryOperator LHS RHS BinOpKind LHSQualTy VK_RValue))
  | Trunc | ZExt | SExt | IntToPtr | PtrToInt | BitCast =>
      _ ← revng_assert (bool_decide (length Operands = 1%nat));
      Op0 ← Operands !! 0%nat;
      Res ← getParenthesizedExprForValue Op0;
      let LHSQualType := getQualType TheI in
      Res ← (if negb (QualType_eqb LHSQualType (Expr_getType Res))
             then createCast LHSQualType Res
             else Some Res);
      Some (ExprStmt Res)
  | Select =>
      Op0 ← Operands !! 0%nat;
      Cond ← getParenthesizedExprForValue Op0;
      Op1 ← Operands !! 1%nat;
      TrueExpr ← getParenthesizedExprForValue Op1;
      Op2 ← Operands !! 2%nat;
      FalseExpr ← getParenthesizedExprForValue Op2;
      let ASTType := getQualType TheI in
      Some (ExprStmt (ConditionalOperator Cond TrueExpr FalseExpr ASTType VK_RValue))
  | Call =>
      CalleeFun ← getCallee Operands;
      CalleeExpr ← getExprForValue (Function CalleeFun);
      let NumArgs := length (getParamTypes CalleeFun) in
      FD ← FunctionDecls SB !! FunctionId CalleeFun;
      let NumParms := length (Params FD) in
      let NumOps := (length Operands - 1)%nat in
      let HasNoParms :=
        bool_decide (NumParms = 0%nat)
        || (bool_decide (NumParms = 1%nat)
            && match Params FD !! 0%nat with
               | Some P => QualType_eqb (ParmType P) ASTCtx_VoidTy
               | None => false
               end) in
      _ ← revng_assert (HasNoParms || bool_decide (NumArgs = NumParms));
      _ ← revng_assert (bool_decide (NumArgs = NumOps));
      Args ← (if negb HasNoParms
              then mapM (λ p, buildCallArg FD p.1 p.2)
                        (imap (λ OpId Operand, (OpId, Operand)) (take NumOps Operands))
              else Some (replicate NumOps None));
      let ReturnType := getQualType TheI in
      Some (ExprStmt (CallExpr CalleeExpr Args ReturnType VK_RValue))
  | Unreachable =>
      AbortFun ← getFunction (ModuleFunctions SB) "abort";
      CalleeExpr ← getExprForValue (Function AbortFun);
      let Args := [] in
      let ReturnType := ASTCtx_VoidTy in
      Some (ExprStmt (CallExpr CalleeExpr Args ReturnType VK_RValue))
  | _ => revng_abort
  end.
End exprs.

(** [StmtBuilder::createVarDecl]: the declaration and the builder after
    the call. *)
Definition createVarDecl (SB : StmtBuilder) (I : Value)
    : option (VarDecl * StmtBuilder) :=
  let ASTType := getQualType I in
  _ ← revng_assert (negb (QualType_eqb ASTType NullQualType));
  let VarName := "var_" +:+ pretty (NVar SB) in
  let NewVarDecl := mkVarDecl VarName ASTType in
  Some (NewVarDecl,
        mkStmtBuilder (TheFunction SB) (ModuleFunctions SB) (ToSerialize SB)
          (FDeclDecls SB ++ [NewVarDecl]) (FunctionDecls SB) (GlobalDecls SB)
          (AllocaDecls SB) (BBLabelDecls SB) (InstrStmts SB) (VarDecls SB)
          (NVar SB + 1)%N).

Definition set_VarDecl (Id : N) (D : VarDecl) (SB : StmtBuilder) : StmtBuilder :=
  mkStmtBuilder (TheFunction SB) (ModuleFunctions SB) (ToSerialize SB)
    (FDeclDecls SB) (FunctionDecls SB) (GlobalDecls SB)
    (AllocaDecls SB) (BBLabelDecls SB) (InstrStmts SB) (<[Id := D]> (VarDecls SB))
    (NVar SB).

Definition set_InstrStmt (Id : N) (S : Stmt) (SB : StmtBuilder) : StmtBuilder :=
  mkStmtBuilder (TheFunction SB) (ModuleFunctions SB) (ToSerialize SB)
    (FDeclDecls SB) (FunctionDecls SB) (GlobalDecls SB)
    (AllocaDecls SB) (BBLabelDecls SB) (<[Id := S]> (InstrStmts SB)) (VarDecls SB)
    (NVar SB).

Definition set_BBLabelDecl (Id : N) (D : LabelDecl) (SB : StmtBuilder) : StmtBuilder :=
  mkStmtBuilder (TheFunction SB) (ModuleFunctions SB) (ToSerialize SB)
    (FDeclDecls SB) (FunctionDecls SB) (GlobalDecls SB)
    (AllocaDecls SB) (<[Id := D]> (BBLabelDecls SB)) (InstrStmts SB) (VarDecls SB)
    (NVar SB).

(** The array declaration that [createAST] makes for an alloca. *)
Definition createAllocaDecl (SB : StmtBuilder) (I : InstructionData)
    : option StmtBuilder :=
  _ ← revng_assert (isStaticAlloca I);
  AllocaSize ← getAllocationSizeInBits I;
  _ ← revng_assert (AllocaSize <=? UINT_MAX)%N;
  let ArraySize := AllocaSize in
  let ArrayTy := getConstantArrayType CharTy ArraySize in
  let VarName := "var_" +:+ pretty (NVar SB) in
  let ArrayDecl := mkVarDecl VarName ArrayTy in
  Some (mkStmtBuilder (TheFunction SB) (ModuleFunctions SB) (ToSerialize SB)
          (FDeclDecls SB ++ [ArrayDecl]) (FunctionDecls SB) (GlobalDecls SB)
          (<[InstructionId I := ArrayDecl]> (AllocaDecls SB)) (BBLabelDecls SB)
          (InstrStmts SB) (VarDecls SB) (NVar SB + 1)%N).

(** The body of the loop of [createAST] over the instructions of a
    block. *)
Definition createAST_instruction (SB : StmtBuilder) (V : Value) : option StmtBuilder :=
  match V with
  | Instruction Inst Operands =>
      if bool_decide (getOpcode Inst = Br) then Some SB
      else if bool_decide (getOpcode Inst = PHI) then
        _ ← revng_assert (bool_decide (VarDecls SB !! InstructionId Inst = None));
        '(NewVarDecl, SB) ← createVarDecl SB V;
        Some (set_VarDecl (InstructionId Inst) NewVarDecl SB)
      else
        SB ← (if bool_decide (getOpcode Inst = Alloca)
              then createAllocaDecl SB Inst else Some SB);
        NewStmt ← buildStmt SB Inst Operands;
        let SB := set_InstrStmt (InstructionId Inst) NewStmt SB in
        if (0 <? getNumUses Inst)%N && bool_decide (InstructionId Inst ∈ ToSerialize SB) then
          _ ← revng_assert (bool_decide (VarDecls SB !! InstructionId Inst = None));
          '(NewVarDecl, SB) ← createVarDecl SB V;
          Some (set_VarDecl (InstructionId Inst) NewVarDecl SB)
        else Some SB
  | _ => None
  end.

(** The loop of [createAST] over the instructions of a block. *)
Fixpoint createAST_instructions (SB : StmtBuilder) (Insts : list Value)
    : option StmtBuilder :=
  match Insts with
  | [] => Some SB
  | V :: Insts =>
      SB ← createAST_instruction SB V;
      createAST_instructions SB Insts
  end.

(** [StmtBuilder::createAST], on the basic blocks of the function in
    reverse post-order; [BBId] is the counter of block labels. *)
Fixpoint createAST_blocks (SB : StmtBuilder) (BBId : N) (RPOT : list BasicBlock)
    : option StmtBuilder :=
  match RPOT with
  | [] => Some SB
  | BB :: RPOT =>
      let Label := mkLabelDecl ("bb_" +:+ pretty BBId) in
      let SB := set_BBLabelDecl (BasicBlockId BB) Label SB in
      SB ← createAST_instructions SB (Instructions BB);
      createAST_blocks SB (BBId + 1)%N RPOT
  end.

Definition createAST (SB : StmtBuilder) (RPOT : list BasicBlock) : option StmtBuilder :=
  createAST_blocks SB 0%N RPOT.
End builder.

End IR2AST.

(** ** Invariants of the type-system graph *)

(** The node at [a] has the link [lk] in its set [select] (its successors or
    its predecessors). *)
Definition hasLink (TS : LayoutTypeSystem)
    (select : LayoutTypeSystemNode → list Link) (a : ptr) (lk : Link) : Prop :=
  ∃ n, Layouts TS !! a = Some n ∧ lk ∈ select n.

(** Every neighbor set iterates in strictly ascending order of
    [(node address, tag address)]. *)
Definition neighborsOrdered (TS : LayoutTypeSystem) : Prop :=
  ∀ a n, Layouts TS !! a = Some n →
    StdSet.ordered Link_less (Successors n) ∧ StdSet.ordered Link_less (Predecessors n).

(** The interned tags form a set, each in a cell of its own. *)
Definition tagsInterned (TS : LayoutTypeSystem) : Prop :=
  StdSet.ordered TagCell_less (LinkTags TS) ∧ NoDup (LinkTags TS).*2.

Record consistent (TS : LayoutTypeSystem) : Prop := {
  consistent_nonnull : Layouts TS !! nullptr = None;
  consistent_ordered : neighborsOrdered TS;
  consistent_tags : tagsInterned TS;
  (* successors and predecessors mirror each other *)
  consistent_mirror : ∀ s t T,
    hasLink TS Successors s (t, T) ↔ hasLink TS Predecessors t (s, T);
  (* no self-loops *)
  consistent_noloop : ∀ s T, ¬ hasLink TS Successors s (s, T);
  (* the tag of every link is interned *)
  consistent_handles : ∀ s t T, hasLink TS Successors s (t, T) → T ∈ (LinkTags TS).*2
}.

(** Equality links come in pairs, one in each direction. *)
Definition equalitySymmetric (TS : LayoutTypeSystem) : Prop :=
  ∀ s t T, (equalityTag, T) ∈ LinkTags TS →
    hasLink TS Successors s (t, T) → hasLink TS Successors t (s, T).

Definition wellFormed (TS : LayoutTypeSystem) : Prop :=
  consistent TS ∧ equalitySymmetric TS.

(** A call of the link-insertion interface, and a run of calls. *)
Inductive LinkCall :=
| CallEqualityLink (Src Tgt : ptr)
| CallInheritanceLink (Src Tgt : ptr)
| CallInstanceLink (Src Tgt : ptr) (OE : OffsetExpression).

Definition runLinkCall `{TagAllocator} (C : LinkCall) (TS : LayoutTypeSystem)
    : option ((ptr * bool) * LayoutTypeSystem) :=
  match C with
  | CallEqualityLink Src Tgt => addEqualityLink Src Tgt TS
  | CallInheritanceLink Src Tgt => addInheritanceLink Src Tgt TS
  | CallInstanceLink Src Tgt OE => addInstanceLink Src Tgt OE TS
  end.

Fixpoint runLinkCalls `{TagAllocator} (Cs : list LinkCall) (TS : LayoutTypeSystem)
    : option LayoutTypeSystem :=
  match Cs with
  | [] => Some TS
  | C :: Cs => '(_, TS) ← runLinkCall C TS; runLinkCalls Cs TS
  end.

(** The identifiers of the neighbors in a set, in iteration order, each
    with the tag handle of its link. *)
Definition neighborIds (TS : LayoutTypeSystem) (Ns : list Link) : list (N * ptr) :=
  (λ lk : Link, (from_option ID 0%N (Layouts TS !! lk.1), lk.2)) <$> Ns.

(** The order that the specification describes for the neighbor sets:
    ascending in [(neighbor id, tag handle)]. *)
Definition orderedByNeighborId (TS : LayoutTypeSystem) : Prop :=
  ∀ a n, Layouts TS !! a = Some n →
    StdSet.ordered Link_less (neighborIds TS (Successors n))
    ∧ StdSet.ordered Link_less (neighborIds TS (Predecessors n)).

(** The links from [A] to [B] that carry the tag [Tag]. *)
Definition linksBetween (TS : LayoutTypeSystem) (A B : ptr) (Tag : TypeLinkTag)
    : list Link :=
  match Layouts TS !! A with
  | Some n => filter (λ lk : Link, lk.1 = B ∧ tagAt TS lk.2 = Some Tag) (Successors n)
  | None => []
  end.

(** ** A concrete allocator and concrete graphs *)

#[global, refine] Instance bumpAllocator : TagAllocator :=
  {| newTagCell := bumpTagCell |}.
Proof.
  intros cells.
  assert (∀ x, x ∈ cells.*2 → (x ≤ foldr N.max 0 (cells.*2))%N) as Hmax.
  { induction (cells.*2) as [|y l IH]; intros x Hx.
    - by apply elem_of_nil in Hx.
    - simpl. apply elem_of_cons in Hx as [->|Hx]; [lia|].
      specialize (IH x Hx). lia. }
  intros Hin. unfold bumpTagCell in Hin. specialize (Hmax _ Hin). lia.
Defined.

(** Three nodes created in the order of their identifiers, which the
    allocator placed at descending addresses. *)
Definition threeNodes : LayoutTypeSystem :=
  {| M := ∅; NID := 3;
     Layouts := <[300%N := LayoutTypeSystemNode_new 0]>
                  (<[200%N := LayoutTypeSystemNode_new 1]>
                     (<[100%N := LayoutTypeSystemNode_new 2]> ∅));
     TypePtrToLayoutMap := ∅; LayoutToTypePtrsMap := ∅; LinkTags := [] |}.

(** [TS'] holds all of [TS] and possibly more links and tags: the same
    module, counter and key maps, the same nodes with the same identifiers and
    layouts, every link and every interned tag of [TS]. *)
Definition grewFrom (TS TS' : LayoutTypeSystem) : Prop :=
  M TS' = M TS ∧ NID TS' = NID TS
  ∧ TypePtrToLayoutMap TS' = TypePtrToLayoutMap TS
  ∧ LayoutToTypePtrsMap TS' = LayoutToTypePtrsMap TS
  ∧ (∀ x, ID <$> Layouts TS' !! x = ID <$> Layouts TS !! x)
  ∧ (∀ x, L <$> Layouts TS' !! x = L <$> Layouts TS !! x)
  ∧ (∀ x lk, hasLink TS Successors x lk → hasLink TS' Successors x lk)
  ∧ (∀ x lk, hasLink TS Predecessors x lk → hasLink TS' Predecessors x lk)
  ∧ (∀ c, c ∈ LinkTags TS → c ∈ LinkTags TS').

(** ** Edge-filtered traversal *)

(** What a filtered iterator over [Ns] points to at its beginning: the first
    link that the filter accepts.  The filter reads the tag a link points
    to. *)
Fixpoint filtered_begin (Pred : Link → option bool) (Ns : list Link)
    : option (option Link) :=
  match Ns with
  | [] => Some None
  | Lk :: Ns =>
      Accepted ← Pred Lk;
      if Accepted : bool then Some (Some Lk) else filtered_begin Pred Ns
  end.

(** [isEqualityEdge], [isInheritanceEdge], [isInstanceEdge] *)
Definition isEqualityEdge (TS : LayoutTypeSystem) (E : Link) : option bool :=
  hasLinkKind LK_Equality TS E.

Definition isInheritanceEdge (TS : LayoutTypeSystem) (E : Link) : option bool :=
  hasLinkKind LK_Inheritance TS E.

Definition isInstanceEdge (TS : LayoutTypeSystem) (E : Link) : option bool :=
  hasLinkKind LK_Instance TS E.

(** [isLeaf<K>]: [child_begin(N) == child_end(N)] on the graph filtered by
    [hasLinkKind<K>]. *)
Definition isLeaf (K : LinkKind) (TS : LayoutTypeSystem) (N : ptr) : option bool :=
  Node ← Layouts TS !! N;
  It ← filtered_begin (hasLinkKind K TS) (Successors Node);
  Some (bool_decide (It = None)).

Definition isInheritanceLeaf (TS : LayoutTypeSystem) (N : ptr) : option bool :=
  isLeaf LK_Inheritance TS N.

Definition isInstanceLeaf (TS : LayoutTypeSystem) (N : ptr) : option bool :=
  isLeaf LK_Instance TS N.

(** [isRoot<K>]: the same on the inverse graph. *)
Definition isRoot (K : LinkKind) (TS : LayoutTypeSystem) (N : ptr) : option bool :=
  Node ← Layouts TS !! N;
  It ← filtered_begin (hasLinkKind K TS) (Predecessors Node);
  Some (bool_decide (It = None)).

Definition isInheritanceRoot (TS : LayoutTypeSystem) (N : ptr) : option bool :=
  isRoot LK_Inheritance TS N.

Definition isInstanceRoot (TS : LayoutTypeSystem) (N : ptr) : option bool :=
  isRoot LK_Instance TS N.

(** ** What [createAST] adds to a builder *)

(** The declarations [New] carry the names [var_n], [var_(n+1)], ... in
    this order. *)
Definition numberedFrom (n : N) (New : list VarDecl) : Prop :=
  ∀ i D, New !! i = Some D → VarName D = "var_" +:+ pretty (n + N.of_nat i)%N.

(** From [SB] to [SB'] the function gained the declarations [New], numbered
    from the counter of [SB], and the counter advanced past them. *)
Definition declared (SB SB' : IR2AST.StmtBuilder) (New : list VarDecl) : Prop :=
  IR2AST.FDeclDecls SB' = IR2AST.FDeclDecls SB ++ New
  ∧ IR2AST.NVar SB' = (IR2AST.NVar SB + N.of_nat (length New))%N
  ∧ numberedFrom (IR2AST.NVar SB) New.

(** [SB'] keeps what [SB] knows: the function, the functions of the module,
    the instructions to serialize, the declarations of functions and globals,
    the variable of every instruction that has one, and an entry for every
    alloca, statement and label that had one. *)
Definition keeps (SB SB' : IR2AST.StmtBuilder) : Prop :=
  IR2AST.TheFunction SB' = IR2AST.TheFunction SB
  ∧ IR2AST.ModuleFunctions SB' = IR2AST.ModuleFunctions SB
  ∧ IR2AST.ToSerialize SB' = IR2AST.ToSerialize SB
  ∧ IR2AST.FunctionDecls SB' = IR2AST.FunctionDecls SB
  ∧ IR2AST.GlobalDecls SB' = IR2AST.GlobalDecls SB
  ∧ (∀ Id D, IR2AST.VarDecls SB !! Id = Some D → IR2AST.VarDecls SB' !! Id = Some D)
  ∧ (∀ Id, is_Some (IR2AST.AllocaDecls SB !! Id) → is_Some (IR2AST.AllocaDecls SB' !! Id))
  ∧ (∀ Id, is_Some (IR2AST.InstrStmts SB !! Id) → is_Some (IR2AST.InstrStmts SB' !! Id))
  ∧ (∀ Id, is_Some (IR2AST.BBLabelDecls SB !! Id)
           → is_Some (IR2AST.BBLabelDecls SB' !! Id)).

(** The instruction [V], of identifier [Id], has a variable: a declaration
    of the function, of the translated type of [V]. *)
Definition hasVariable `{IRASTTypeTranslation} (SB : IR2AST.StmtBuilder) (V : Value)
    (Id : N) : Prop :=
  ∃ D, IR2AST.VarDecls SB !! Id = Some D ∧ VarType D = getQualType V
       ∧ D ∈ IR2AST.FDeclDecls SB.

(** The builder has what [createAST] makes for the instruction [V]:
    nothing for a branch, a variable for a PHI, and for any other instruction
    a statement, an array when it is an alloca, and a variable when it has
    uses and is to be serialized. *)
Definition covers `{IRASTTypeTranslation} (SB : IR2AST.StmtBuilder) (V : Value)
    : Prop :=
  ∃ Inst Ops, V = Instruction Inst Ops ∧
    (getOpcode Inst = Br
     ∨ (getOpcode Inst = PHI ∧ hasVariable SB V (InstructionId Inst))
     ∨ (getOpcode Inst ≠ Br ∧ getOpcode Inst ≠ PHI
        ∧ is_Some (IR2AST.InstrStmts SB !! InstructionId Inst)
        ∧ (getOpcode Inst = Alloca
           → is_Some (IR2AST.AllocaDecls SB !! InstructionId Inst))
        ∧ ((0 < getNumUses Inst)%N ∧ InstructionId Inst ∈ IR2AST.ToSerialize SB
           → hasVariable SB V (InstructionId Inst)))).

(** ** A concrete target, translation and function *)

(** The widths of an LP64 target such as x86-64. *)
Definition lp64_width (boolWidth : N) (T : QualType) : N :=
  match T with
  | mkQualType (BuiltinType K) _ =>
      match K with
      | Void => 0
      | Bool => boolWidth
      | Char_U | UChar | Char_S | SChar => 8
      | UShort | Short => 16
      | UInt | Int | Float => 32
      | ULong | Long | ULongLong | LongLong | Double => 64
      | UInt128 | Int128 => 128
      end
  | mkQualType (ClangPointerType _) _ => 64
  | _ => 0
  end%N.

#[global, refine] Instance lp64 : ASTContext :=
  {| CharTy := unqualified (BuiltinType Char_S);
     getTypeSize := lp64_width 8;
     getIntWidth := lp64_width 1;
     getUIntPtrType := unqualified (BuiltinType ULong);
     getIntTypeForBitwidth := λ DestWidth Signed,
       match DestWidth, Signed with
       | 8, true => unqualified (BuiltinType SChar)
       | 8, false => unqualified (BuiltinType UChar)
       | 16, true => ShortTy
       | 16, false => UnsignedShortTy
       | 32, true => IntTy
       | 32, false => UnsignedIntTy
       | 64, true => unqualified (BuiltinType Long)
       | 64, false => unqualified (BuiltinType ULong)
       | 128, true => Int128Ty
       | 128, false => UnsignedInt128Ty
       | _, _ => NullQualType
       end%N |}.
Proof. reflexivity. Defined.

(** Modelled from the spec: [IRASTTypeTranslation] is not among the
    sources.  An integer of width [w] becomes the unsigned C type of that
    width ([bool] for width 1, which is the C type of that width for clang,
    and the 128-bit unsigned type for width 128); a pointer becomes the
    pointer to its translated pointee, or to [char] when the pointee has no
    translation. *)
Fixpoint specQualTypeOfType (T : LLVMType) : QualType :=
  match T with
  | IntegerTy 1 => unqualified (BuiltinType Bool)
  | IntegerTy 8 => unqualified (BuiltinType UChar)
  | IntegerTy 16 => UnsignedShortTy
  | IntegerTy 32 => UnsignedIntTy
  | IntegerTy 64 => unqualified (BuiltinType ULong)
  | IntegerTy 128 => UnsignedInt128Ty
  | PointerTy Pointee =>
      match specQualTypeOfType Pointee with
      | NullQualType => getPointerType (unqualified (BuiltinType Char_S))
      | P => getPointerType P
      end
  | VoidTy => ASTCtx_VoidTy
  | _ => NullQualType
  end%N.

#[global] Instance specTranslation : IRASTTypeTranslation :=
  {| getQualType := λ V, specQualTypeOfType (getType V);
     getQualTypeOfType := specQualTypeOfType |}.

Definition withAssertions : LLVMBuild := {| LLVM_ENABLE_ASSERTIONS := true |}.

Definition withoutAssertions : LLVMBuild := {| LLVM_ENABLE_ASSERTIONS := false |}.

Module Example.
Import IR2AST.

Definition i1 : LLVMType := IntegerTy 1.
Definition i32 : LLVMType := IntegerTy 32.
Definition i64 : LLVMType := IntegerTy 64.
Definition i128 : LLVMType := IntegerTy 128.

(** [define i1 @f(i32 %x, i32 %y)] *)
Definition f : FunctionData :=
  {| FunctionId := 1; FunctionName := "f"; getReturnType := i1;
     getParamTypes := [i32; i32]; isVarArg := false |}.

Definition fDecl : FunctionDecl :=
  {| FunctionDeclName := "f";
     FunctionDeclType := unqualified (FunctionProtoType (unqualified (BuiltinType Bool)));
     Params := [mkParmVarDecl "x" UnsignedIntTy; mkParmVarDecl "y" UnsignedIntTy] |}.

Definition x : Value := Argument f 0 i32.
Definition y : Value := Argument f 1 i32.

Definition instruction (Id : N) (Op : Opcode) (Pred : Predicate) (Ty : LLVMType)
    (Uses : N) : InstructionData :=
  {| InstructionId := Id; getOpcode := Op; getPredicate := Pred;
     InstructionTy := Ty; getNumUses := Uses; isStaticAlloca := false;
     getAllocationSizeInBits := None |}.

(** [%c = icmp ult i32 %x, %y] and [ret i1 %c] *)
Definition c_data : InstructionData := instruction 1 ICmp ICMP_ULT i1 1.
Definition c : Value := Instruction c_data [x; y].
Definition ret_c : Value := Instruction (instruction 2 Ret ICMP_EQ VoidTy 0) [c].

(** [%m = mul i32 %x, %y] *)
Definition m_data : InstructionData := instruction 3 Mul ICMP_EQ i32 1.
Definition m : Value := Instruction m_data [x; y].

(** [%z = zext i32 %x to i64] and [%p = inttoptr i32 %x to i8*] *)
Definition p_data : InstructionData :=
  instruction 4 IntToPtr ICMP_EQ (PointerTy (IntegerTy 8)) 1.
Definition p : Value := Instruction p_data [x].

(** The builder for [f] before [createAST]. *)
Definition builder : StmtBuilder :=
  {| TheFunction := f; ModuleFunctions := [f]; ToSerialize := ∅;
     FDeclDecls := []; FunctionDecls := {[ 1%N := fDecl ]}; GlobalDecls := ∅;
     AllocaDecls := ∅; BBLabelDecls := ∅; InstrStmts := ∅; VarDecls := ∅;
     NVar := 0 |}.

(** [define { i64, i64 } @g()], a function that returns a struct, an
    integer argument and a floating-point value, at the addresses 10, 20 and
    30 of a module. *)
Definition g : FunctionData :=
  {| FunctionId := 2; FunctionName := "g";
     getReturnType := StructTy [i64; i64]; getParamTypes := []; isVarArg := false |}.

Definition irModule : Module :=
  {[ 10%N := Function g; 20%N := x; 30%N := OtherValue (FloatingPointTy 32) ]}.

Definition x_rvalue : Expr :=
  ImplicitCastExpr UnsignedIntTy CK_LValueToRValue
    (DeclRefExpr (DeclParmVar (mkParmVarDecl "x" UnsignedIntTy)) UnsignedIntTy VK_LValue)
    VK_RValue.

Definition y_rvalue : Expr :=
  ImplicitCastExpr UnsignedIntTy CK_LValueToRValue
    (DeclRefExpr (DeclParmVar (mkParmVarDecl "y" UnsignedIntTy)) UnsignedIntTy VK_LValue)
    VK_RValue.
End Example.

(** * Properties *)

(** ** std::set insertion *)

Section set_facts.
Context {A : Type} (less : A → A → bool).

Local Abbreviation incomparable := (StdSet.incomparable less).

Hypothesis less_irrefl : ∀ x, less x x = false.
Hypothesis less_trans : ∀ x y z, less x y = true → less y z = true → less x z = true.
Hypothesis less_incomp : ∀ x y z,
  incomparable x y → less x z = less y z ∧ less z x = less z y.

Lemma insert_inserted x s it s' :
  StdSet.insert less x s = (it, s', true) → it = x ∧ s' ≡ₚ x :: s.
Proof.
  revert it s'. induction s as [|y s IH]; intros it s' Hins; simpl in Hins.
  - by inversion Hins; subst.
  - destruct (less x y) eqn:Hxy.
    + by inversion Hins; subst.
    + destruct (less y x) eqn:Hyx; [|inversion Hins].
      destruct (StdSet.insert less x s) as [[it0 r] new] eqn:Hrec.
      inversion Hins; subst.
      destruct (IH _ _ eq_refl) as [-> Hel]. split; [done|].
      rewrite Hel. apply Permutation_swap.
Qed.

Lemma insert_not_inserted x s it s' :
  StdSet.insert less x s = (it, s', false) →
  s' = s ∧ it ∈ s ∧ incomparable x it.
Proof.
  revert it s'. induction s as [|y s IH]; intros it s' Hins; simpl in Hins.
  - inversion Hins.
  - destruct (less x y) eqn:Hxy; [inversion Hins|].
    destruct (less y x) eqn:Hyx.
    + destruct (StdSet.insert less x s) as [[it0 r] new] eqn:Hrec.
      inversion Hins; subst.
      destruct (IH _ _ eq_refl) as (-> & Hin & Hinc).
      split; [done|]. split; [apply elem_of_cons; by right|done].
    + inversion Hins; subst. split; [done|].
      split; [apply elem_of_cons; by left|done].
Qed.

Lemma insert_ordered x s :
  StdSet.ordered less s → StdSet.ordered less (StdSet.insert less x s).1.2.
Proof.
  unfold StdSet.ordered. induction s as [|y s IH]; intros Hs; simpl.
  - repeat constructor.
  - apply StronglySorted_inv in Hs as [Hs Hy].
    destruct (less x y) eqn:Hxy; simpl.
    + constructor; [by constructor|]. constructor; [done|].
      eapply Forall_impl; [exact Hy|]. intros z Hz. by eapply less_trans.
    + destruct (less y x) eqn:Hyx; simpl; [|by constructor].
      destruct (StdSet.insert less x s) as [[it0 r] new] eqn:Hrec. simpl in *.
      constructor; [by apply IH|].
      apply Forall_forall. intros e He.
      destruct new.
      * apply insert_inserted in Hrec as [_ Hel]. rewrite Hel in He.
        apply elem_of_cons in He as [->|He]; [done|].
        by eapply Forall_forall in Hy.
      * apply insert_not_inserted in Hrec as (-> & _ & _).
        by eapply Forall_forall in Hy.
Qed.

Lemma insert_found x y s :
  StdSet.ordered less s → y ∈ s → incomparable x y →
  StdSet.insert less x s = (y, s, false).
Proof.
  unfold StdSet.ordered. induction s as [|z s IH]; intros Hs Hin Hinc.
  - by apply elem_of_nil in Hin.
  - apply StronglySorted_inv in Hs as [Hs Hz]. simpl.
    apply elem_of_cons in Hin as [->|Hin].
    + destruct Hinc as [-> ->]. done.
    + assert (less z y = true) as Hzy by (by eapply Forall_forall in Hz).
      destruct (less_incomp x y z Hinc) as [_ Hzx]. rewrite Hzx, Hzy.
      assert (less x z = false) as ->.
      { destruct (less_incomp x y z Hinc) as [-> _].
        destruct (less y z) eqn:Hyz; [|done].
        pose proof (less_irrefl y) as Hirr.
        by rewrite (less_trans _ _ _ Hyz Hzy) in Hirr. }
      by rewrite (IH Hs Hin Hinc).
Qed.

Lemma ordered_incomparable x y s :
  StdSet.ordered less s → x ∈ s → y ∈ s → incomparable x y → x = y.
Proof.
  unfold StdSet.ordered. induction s as [|z s IH]; intros Hs Hx Hy Hinc.
  - by apply elem_of_nil in Hx.
  - apply StronglySorted_inv in Hs as [Hs Hz].
    rewrite Forall_forall in Hz.
    apply elem_of_cons in Hx as [->|Hx]; apply elem_of_cons in Hy as [->|Hy].
    + done.
    + destruct Hinc as [Hinc _]. by rewrite (Hz _ Hy) in Hinc.
    + destruct Hinc as [_ Hinc]. by rewrite (Hz _ Hx) in Hinc.
    + by apply IH.
Qed.
End set_facts.

(** ** The orders of links and of link tags *)

Section lexicographic.
Context {A : Type} (less : A → A → bool).
Hypothesis less_irrefl : ∀ x, less x x = false.
Hypothesis less_trans : ∀ x y z, less x y = true → less y z = true → less x z = true.
Hypothesis less_total : ∀ x y, less x y = false → less y x = false → x = y.

Lemma lexicographical_compare_irrefl a : lexicographical_compare less a a = false.
Proof. induction a as [|x a IH]; simpl; [done|]. by rewrite less_irrefl. Qed.

Lemma lexicographical_compare_total a b :
  lexicographical_compare less a b = false →
  lexicographical_compare less b a = false → a = b.
Proof.
  revert b. induction a as [|x a IH]; intros [|y b]; simpl; try done.
  destruct (less x y) eqn:Hxy; [done|].
  destruct (less y x) eqn:Hyx; [done|].
  intros Hab Hba. rewrite (less_total x y Hxy Hyx). f_equal. by apply IH.
Qed.

Lemma lexicographical_compare_trans a b c :
  lexicographical_compare less a b = true →
  lexicographical_compare less b c = true →
  lexicographical_compare less a c = true.
Proof.
  revert b c. induction a as [|x a IH]; intros [|y b] [|z c]; simpl; try done.
  destruct (less x y) eqn:Hxy.
  - intros _. destruct (less y z) eqn:Hyz.
    + intros _. by rewrite (less_trans x y z Hxy Hyz).
    + destruct (less z y) eqn:Hzy; [done|].
      rewrite <- (less_total y z Hyz Hzy), Hxy. done.
  - destruct (less y x) eqn:Hyx; [done|].
    rewrite <- (less_total x y Hxy Hyx). intros Hab.
    destruct (less x z) eqn:Hxz; [done|].
    destruct (less z x) eqn:Hzx; [done|]. by apply IH.
Qed.
End lexicographic.

Lemma optional_less_irrefl x : optional_less x x = false.
Proof. destruct x; simpl; [apply Z.ltb_irrefl|done]. Qed.

Lemma optional_less_trans x y z :
  optional_less x y = true → optional_less y z = true → optional_less x z = true.
Proof. destruct x, y, z; simpl; try done. rewrite !Z.ltb_lt. lia. Qed.

Lemma optional_less_total x y :
  optional_less x y = false → optional_less y x = false → x = y.
Proof.
  destruct x, y; simpl; try done. rewrite !Z.ltb_ge. intros. f_equal. lia.
Qed.

Lemma Z_ltb_trans x y z : (x <? y) = true → (y <? z) = true → (x <? z) = true.
Proof. rewrite !Z.ltb_lt. lia. Qed.

Lemma Z_ltb_total x y : (x <? y) = false → (y <? x) = false → x = y.
Proof. rewrite !Z.ltb_ge. lia. Qed.

Ltac compare_facts :=
  repeat match goal with
         | H : (_ ?= _) = Eq |- _ => apply -> Z.compare_eq_iff in H
         | H : (_ ?= _) = Lt |- _ => apply -> Z.compare_lt_iff in H
         | H : (_ ?= _) = Gt |- _ => apply -> Z.compare_gt_iff in H
         end.

(** Structural equality of offset expressions is what [<=>] calls equal. *)
Lemma OffsetExpression_cmp_eq a b : OffsetExpression_cmp a b = Eq ↔ a = b.
Proof.
  unfold OffsetExpression_cmp. split.
  - destruct a as [ta sa oa], b as [tb sb ob]; simpl.
    destruct (oa ?= ob) eqn:Ho; try done. apply Z.compare_eq in Ho as ->.
    destruct (lexicographical_compare Z.ltb sa sb) eqn:H1; [done|].
    destruct (lexicographical_compare Z.ltb sb sa) eqn:H2; [done|].
    destruct (lexicographical_compare optional_less ta tb) eqn:H3; [done|].
    destruct (lexicographical_compare optional_less tb ta) eqn:H4; [done|].
    intros _. f_equal.
    + eapply lexicographical_compare_total; eauto using optional_less_total.
    + eapply lexicographical_compare_total; eauto using Z_ltb_total.
  - intros <-. rewrite Z.compare_refl.
    rewrite !lexicographical_compare_irrefl;
      auto using Z.ltb_irrefl, optional_less_irrefl.
  Qed.

Lemma OffsetExpression_cmp_Lt_trans a b c :
  OffsetExpression_cmp a b = Lt → OffsetExpression_cmp b c = Lt →
  OffsetExpression_cmp a c = Lt.
Proof.
  unfold OffsetExpression_cmp.
  destruct a as [ta sa oa], b as [tb sb ob], c as [tc sc oc]; simpl.
  destruct (oa ?= ob) eqn:Hab; try done; destruct (ob ?= oc) eqn:Hbc; try done;
    compare_facts; subst.
  - rewrite Z.compare_refl.
    destruct (lexicographical_compare Z.ltb sa sb) eqn:H1.
    + intros _.
      destruct (lexicographical_compare Z.ltb sb sc) eqn:H2.
      * intros _.
        by rewrite (lexicographical_compare_trans Z.ltb Z_ltb_trans
                      Z_ltb_total _ _ _ H1 H2).
      * destruct (lexicographical_compare Z.ltb sc sb) eqn:H3; [done|].
        rewrite <- (lexicographical_compare_total Z.ltb Z_ltb_total _ _ H2 H3).
        by rewrite H1.
    + destruct (lexicographical_compare Z.ltb sb sa) eqn:H2; [done|].
      rewrite (lexicographical_compare_total Z.ltb Z_ltb_total _ _ H1 H2).
      destruct (lexicographical_compare optional_less ta tb) eqn:H3; [|by destruct
        (lexicographical_compare optional_less tb ta)].
      intros _.
      destruct (lexicographical_compare Z.ltb sb sc) eqn:H4; [done|].
      destruct (lexicographical_compare Z.ltb sc sb) eqn:H5; [done|].
      destruct (lexicographical_compare optional_less tb tc) eqn:H6; [|by destruct
        (lexicographical_compare optional_less tc tb)].
      intros _.
      by rewrite (lexicographical_compare_trans optional_less
                    optional_less_trans optional_less_total _ _ _ H3 H6).
  - intros _ _. by rewrite (proj2 (Z.compare_lt_iff _ _)) by lia.
  - intros _ _. by rewrite (proj2 (Z.compare_lt_iff _ _)) by lia.
  - intros _ _. by rewrite (proj2 (Z.compare_lt_iff _ _)) by lia.
Qed.

Lemma OffsetExpression_cmp_not_Lt a b :
  OffsetExpression_cmp a b ≠ Lt → OffsetExpression_cmp b a ≠ Lt → a = b.
Proof.
  intros Hab Hba. apply OffsetExpression_cmp_eq. revert Hab Hba.
  unfold OffsetExpression_cmp.
  destruct a as [ta sa oa], b as [tb sb ob]; simpl.
  rewrite (Z.compare_antisym oa ob).
  destruct (oa ?= ob) eqn:Ho; simpl; try done.
  destruct (lexicographical_compare Z.ltb sa sb) eqn:H1; [done|].
  destruct (lexicographical_compare Z.ltb sb sa) eqn:H2; [done|].
  destruct (lexicographical_compare optional_less ta tb) eqn:H3; [done|].
  destruct (lexicographical_compare optional_less tb ta) eqn:H4; done.
Qed.

Lemma TypeLinkTag_less_irrefl a : TypeLinkTag_less a a = false.
Proof.
  unfold TypeLinkTag_less, TypeLinkTag_cmp. rewrite Z.compare_refl.
  by rewrite (proj2 (OffsetExpression_cmp_eq _ _) eq_refl).
Qed.

Lemma TypeLinkTag_less_trans a b c :
  TypeLinkTag_less a b = true → TypeLinkTag_less b c = true →
  TypeLinkTag_less a c = true.
Proof.
  unfold TypeLinkTag_less, TypeLinkTag_cmp.
  destruct (LinkKind_value (Kind a) ?= LinkKind_value (Kind b)) eqn:Hab; try done;
    destruct (LinkKind_value (Kind b) ?= LinkKind_value (Kind c)) eqn:Hbc; try done;
    compare_facts.
  - rewrite Hab, Hbc, Z.compare_refl.
    destruct (OffsetExpression_cmp (OE a) (OE b)) eqn:H1; try done.
    destruct (OffsetExpression_cmp (OE b) (OE c)) eqn:H2; try done.
    by rewrite (OffsetExpression_cmp_Lt_trans _ _ _ H1 H2).
  - intros _ _. by rewrite (proj2 (Z.compare_lt_iff _ _)) by lia.
  - intros _ _. by rewrite (proj2 (Z.compare_lt_iff _ _)) by lia.
  - intros _ _. by rewrite (proj2 (Z.compare_lt_iff _ _)) by lia.
Qed.

Lemma TypeLinkTag_less_total a b :
  TypeLinkTag_less a b = false → TypeLinkTag_less b a = false → a = b.
Proof.
  unfold TypeLinkTag_less, TypeLinkTag_cmp.
  rewrite (Z.compare_antisym (LinkKind_value (Kind a)) (LinkKind_value (Kind b))).
  destruct (LinkKind_value (Kind a) ?= LinkKind_value (Kind b)) eqn:Hab; simpl; try done.
  apply Z.compare_eq in Hab.
  intros H1 H2.
  assert (OE a = OE b) as HOE.
  { apply OffsetExpression_cmp_not_Lt.
    - by destruct (OffsetExpression_cmp (OE a) (OE b)).
    - by destruct (OffsetExpression_cmp (OE b) (OE a)). }
  destruct a as [oa ka], b as [ob kb]; simpl in *. subst.
  by destruct ka, kb.
Qed.

Lemma TagCell_less_irrefl x : TagCell_less x x = false.
Proof. apply TypeLinkTag_less_irrefl. Qed.

Lemma TagCell_less_trans x y z :
  TagCell_less x y = true → TagCell_less y z = true → TagCell_less x z = true.
Proof. apply TypeLinkTag_less_trans. Qed.

Lemma TagCell_incomparable x y :
  StdSet.incomparable TagCell_less x y ↔ x.1 = y.1.
Proof.
  split.
  - intros [H1 H2]. by apply TypeLinkTag_less_total.
  - intros Heq. unfold StdSet.incomparable, TagCell_less.
    rewrite Heq. by rewrite TypeLinkTag_less_irrefl.
Qed.

Lemma TagCell_less_incomp x y z :
  StdSet.incomparable TagCell_less x y →
  TagCell_less x z = TagCell_less y z ∧ TagCell_less z x = TagCell_less z y.
Proof.
  intros Heq%TagCell_incomparable. unfold TagCell_less. by rewrite Heq.
Qed.

Lemma Link_less_irrefl x : Link_less x x = false.
Proof.
  unfold Link_less, pair_less. rewrite !N.ltb_irrefl. done.
Qed.

Lemma Link_less_spec x y :
  Link_less x y = true ↔ (x.1 < y.1 ∨ (x.1 = y.1 ∧ x.2 < y.2))%N.
Proof.
  unfold Link_less, pair_less.
  rewrite orb_true_iff, andb_true_iff, negb_true_iff, !N.ltb_lt, N.ltb_ge. lia.
Qed.

Lemma Link_less_trans x y z :
  Link_less x y = true → Link_less y z = true → Link_less x z = true.
Proof. rewrite !Link_less_spec. lia. Qed.

Lemma Link_incomparable x y : StdSet.incomparable Link_less x y ↔ x = y.
Proof.
  unfold StdSet.incomparable. rewrite <- !not_true_iff_false, !Link_less_spec.
  destruct x as [x1 x2], y as [y1 y2]; simpl. split.
  - intros [H1 H2]. f_equal; lia.
  - intros [= -> ->]. lia.
Qed.

Lemma Link_less_incomp x y z :
  StdSet.incomparable Link_less x y →
  Link_less x z = Link_less y z ∧ Link_less z x = Link_less z y.
Proof. by intros ->%Link_incomparable. Qed.

(** ** Insertion into a neighbor set *)

Lemma Link_insert_ordered lk s :
  StdSet.ordered Link_less s → StdSet.ordered Link_less (StdSet.insert Link_less lk s).1.2.
Proof. intros Hs. apply insert_ordered; [apply Link_less_trans|done]. Qed.

Lemma Link_insert_elem lk s e :
  e ∈ (StdSet.insert Link_less lk s).1.2 ↔ e = lk ∨ e ∈ s.
Proof.
  destruct (StdSet.insert Link_less lk s) as [[it s'] []] eqn:Hins; simpl.
  - apply insert_inserted in Hins as [_ ->]. apply elem_of_cons.
  - apply insert_not_inserted in Hins as (-> & Hin & ->%Link_incomparable).
    naive_solver.
Qed.

Lemma Link_insert_id lk s :
  StdSet.ordered Link_less s → lk ∈ s →
  StdSet.insert Link_less lk s = (lk, s, false).
Proof.
  intros Hs Hin.
  apply (insert_found Link_less Link_less_irrefl Link_less_trans Link_less_incomp);
    [done|done|by apply Link_incomparable].
Qed.

Lemma Link_insert_new lk s :
  StdSet.ordered Link_less s →
  (StdSet.insert Link_less lk s).2 = negb (bool_decide (lk ∈ s)).
Proof.
  intros Hs. case_bool_decide as Hin; simpl.
  - by rewrite Link_insert_id.
  - destruct (StdSet.insert Link_less lk s) as [[it s'] []] eqn:Hins; [done|].
    apply insert_not_inserted in Hins as (_ & Hit & ->%Link_incomparable). done.
Qed.

(** ** Interning a tag *)

Section intern_facts.
Context `{TagAllocator}.

Lemma intern_spec Tag tags it tags' b :
  StdSet.ordered TagCell_less tags → NoDup tags.*2 →
  StdSet.insert TagCell_less (Tag, newTagCell tags) tags = (it, tags', b) →
  it.1 = Tag
  ∧ StdSet.ordered TagCell_less tags' ∧ NoDup tags'.*2
  ∧ (∀ c, c ∈ tags' ↔ c = it ∨ c ∈ tags)
  ∧ (b = false → tags' = tags ∧ it ∈ tags)
  ∧ (b = true → it.2 ∉ tags.*2).
Proof.
  intros Hord Hnd Hins.
  assert (StdSet.ordered TagCell_less tags') as Hord'.
  { pose proof (insert_ordered TagCell_less TagCell_less_trans
                  (Tag, newTagCell tags) tags Hord) as Ho.
    by rewrite Hins in Ho. }
  destruct b.
  - apply insert_inserted in Hins as [-> Hperm]. simpl.
    pose proof (newTagCell_fresh tags) as Hfresh.
    split; [done|]. split; [done|]. split.
    { rewrite Hperm. simpl. by constructor. }
    split; [intros c; rewrite Hperm; apply elem_of_cons|].
    split; done.
  - apply insert_not_inserted in Hins as (-> & Hin & Hinc%TagCell_incomparable).
    simpl in Hinc. split; [done|]. split; [done|]. split; [done|].
    split; [naive_solver|]. split; done.
Qed.

(** A tag has one cell, and a cell one tag. *)
Lemma interned_handle_unique tags Tag T T' :
  StdSet.ordered TagCell_less tags →
  (Tag, T) ∈ tags → (Tag, T') ∈ tags → T = T'.
Proof.
  intros Hord H1 H2.
  assert ((Tag, T) = (Tag, T')) as Heq; [|by inversion Heq].
  eapply (ordered_incomparable TagCell_less); eauto.
  by apply TagCell_incomparable.
Qed.

Lemma interned_tag_unique (tags : list TagCell) Tag Tag' T :
  NoDup tags.*2 → (Tag, T) ∈ tags → (Tag', T) ∈ tags → Tag = Tag'.
Proof.
  induction tags as [|c tags IH]; intros Hnd H1 H2.
  - by apply elem_of_nil in H1.
  - apply NoDup_cons in Hnd as [Hc Hnd].
    apply elem_of_cons in H1 as [<-|H1]; apply elem_of_cons in H2 as [Heq|H2].
    + by inversion Heq.
    + exfalso. apply Hc. apply list_elem_of_fmap. by exists (Tag', T).
    + subst c. exfalso. apply Hc. apply list_elem_of_fmap. by exists (Tag, T).
    + by apply IH.
Qed.
End intern_facts.

(** ** Link insertion *)

Section link_facts.
Context `{TagAllocator}.

Lemma addLink_degenerate Src Tgt Tag TS :
  Src = nullptr ∨ Tgt = nullptr ∨ Src = Tgt →
  addLink Src Tgt Tag TS = Some ((nullptr, false), TS).
Proof.
  intros Hdeg. unfold addLink.
  assert ((Src =? nullptr)%N || (Tgt =? nullptr)%N || (Src =? Tgt)%N = true) as ->;
    [|done].
  rewrite !orb_true_iff, !N.eqb_eq. tauto.
Qed.

Lemma addLink_unfold Src Tgt Tag TS ns nt :
  Src ≠ nullptr → Tgt ≠ nullptr → Src ≠ Tgt →
  Layouts TS !! Src = Some ns → Layouts TS !! Tgt = Some nt →
  addLink Src Tgt Tag TS =
    let r := StdSet.insert TagCell_less (Tag, newTagCell (LinkTags TS)) (LinkTags TS) in
    let T := r.1.1.2 in
    let s := StdSet.insert Link_less (Tgt, T) (Successors ns) in
    let p := StdSet.insert Link_less (Src, T) (Predecessors nt) in
    Some ((T, s.2 || p.2),
          set_Layouts (<[Tgt := set_Predecessors p.1.2 nt]>
                         (<[Src := set_Successors s.1.2 ns]> (Layouts TS)))
                      (set_LinkTags r.1.2 TS)).
Proof.
  intros HS HT HST HnS HnT. unfold addLink, Layouts_count.
  apply N.eqb_neq in HS, HT, HST. rewrite HS, HT, HST. simpl.
  rewrite !bool_decide_eq_true_2 by (by rewrite ?HnS, ?HnT). simpl.
  destruct (StdSet.insert TagCell_less _ _) as [[it tags'] b]. simpl.
  rewrite HnS. simpl.
  destruct (StdSet.insert Link_less (Tgt, it.2) _) as [[it1 succs] new1]. simpl.
  rewrite lookup_insert_ne by (by apply N.eqb_neq). rewrite HnT. simpl.
  destruct (StdSet.insert Link_less (Src, it.2) _) as [[it2 preds] new2]. done.
Qed.

(** What a call of [addLink] on two distinct nodes of the graph does. *)
Lemma addLink_spec Src Tgt Tag TS ns nt :
  Src ≠ nullptr → Tgt ≠ nullptr → Src ≠ Tgt →
  Layouts TS !! Src = Some ns → Layouts TS !! Tgt = Some nt →
  tagsInterned TS →
  ∃ T TS',
    addLink Src Tgt Tag TS =
      Some ((T, (StdSet.insert Link_less (Tgt, T) (Successors ns)).2
                || (StdSet.insert Link_less (Src, T) (Predecessors nt)).2), TS')
    ∧ tagsInterned TS'
    ∧ (∀ c, c ∈ LinkTags TS' ↔ c = (Tag, T) ∨ c ∈ LinkTags TS)
    ∧ (((Tag, T) ∈ LinkTags TS ∧ LinkTags TS' = LinkTags TS)
       ∨ T ∉ (LinkTags TS).*2)
    ∧ Layouts TS' =
        <[Tgt := set_Predecessors
                   (StdSet.insert Link_less (Src, T) (Predecessors nt)).1.2 nt]>
          (<[Src := set_Successors
                      (StdSet.insert Link_less (Tgt, T) (Successors ns)).1.2 ns]>
             (Layouts TS))
    ∧ M TS' = M TS ∧ NID TS' = NID TS
    ∧ TypePtrToLayoutMap TS' = TypePtrToLayoutMap TS
    ∧ LayoutToTypePtrsMap TS' = LayoutToTypePtrsMap TS.
Proof.
  intros HS HT HST HnS HnT [Hord Hnd].
  rewrite (addLink_unfold _ _ _ _ _ _ HS HT HST HnS HnT). cbv zeta.
  destruct (StdSet.insert TagCell_less _ _) as [[it tags'] b] eqn:Hins. simpl.
  destruct (intern_spec _ _ _ _ _ Hord Hnd Hins)
    as (Hit & Hord' & Hnd' & Hel & Hold & Hnew).
  assert (it = (Tag, it.2)) as Hit' by (destruct it; simpl in *; by subst).
  eexists _, _. split; [reflexivity|]. simpl.
  split; [done|]. split; [by rewrite <- Hit'|].
  split; [|done].
  destruct b.
  - right. by apply Hnew.
  - left. destruct (Hold eq_refl) as [-> Hin]. by rewrite <- Hit'.
Qed.

(** The links of the graph after the two set insertions of [addLink]. *)
Lemma links_after_insert TS TS' Src Tgt T ns nt :
  Src ≠ Tgt →
  Layouts TS !! Src = Some ns → Layouts TS !! Tgt = Some nt →
  Layouts TS' =
    <[Tgt := set_Predecessors
               (StdSet.insert Link_less (Src, T) (Predecessors nt)).1.2 nt]>
      (<[Src := set_Successors
                  (StdSet.insert Link_less (Tgt, T) (Successors ns)).1.2 ns]>
         (Layouts TS)) →
  (∀ x lk, hasLink TS' Successors x lk ↔
           hasLink TS Successors x lk ∨ (x = Src ∧ lk = (Tgt, T)))
  ∧ (∀ x lk, hasLink TS' Predecessors x lk ↔
             hasLink TS Predecessors x lk ∨ (x = Tgt ∧ lk = (Src, T)))
  ∧ (∀ x, is_Some (Layouts TS' !! x) ↔ is_Some (Layouts TS !! x)).
Proof.
  intros HST HnS HnT HL. unfold hasLink. rewrite HL. clear HL.
  split; [|split]; intros x; [intros lk..|].
  - destruct (decide (x = Tgt)) as [->|HxT].
    { rewrite lookup_insert_eq, HnT. split.
      - intros (n & [= <-] & Hin). left. by exists nt.
      - intros [(n & [= <-] & Hin)|[? _]]; [|done]. by eexists. }
    rewrite lookup_insert_ne by done.
    destruct (decide (x = Src)) as [->|HxS].
    { rewrite lookup_insert_eq, HnS. split.
      - intros (n & [= <-] & Hin). simpl in Hin.
        apply Link_insert_elem in Hin as [->|Hin]; [by right|]. left. by exists ns.
      - intros [(n & [= <-] & Hin)|[_ ->]]; eexists; (split; [done|]); simpl;
          apply Link_insert_elem; auto. }
    rewrite lookup_insert_ne by done. naive_solver.
  - destruct (decide (x = Tgt)) as [->|HxT].
    { rewrite lookup_insert_eq, HnT. split.
      - intros (n & [= <-] & Hin). simpl in Hin.
        apply Link_insert_elem in Hin as [->|Hin]; [by right|]. left. by exists nt.
      - intros [(n & [= <-] & Hin)|[_ ->]]; eexists; (split; [done|]); simpl;
          apply Link_insert_elem; auto. }
    rewrite lookup_insert_ne by done.
    destruct (decide (x = Src)) as [->|HxS].
    { rewrite lookup_insert_eq, HnS. split.
      - intros (n & [= <-] & Hin). left. by exists ns.
      - intros [(n & [= <-] & Hin)|[? _]]; [|done]. by eexists. }
    rewrite lookup_insert_ne by done. naive_solver.
  - destruct (decide (x = Tgt)) as [->|HxT].
    { rewrite lookup_insert_eq, HnT. split; eauto. }
    rewrite lookup_insert_ne by done.
    destruct (decide (x = Src)) as [->|HxS].
    { rewrite lookup_insert_eq, HnS. split; eauto. }
    by rewrite lookup_insert_ne.
Qed.

Lemma ordered_after_insert TS TS' Src Tgt T ns nt :
  Layouts TS !! Src = Some ns → Layouts TS !! Tgt = Some nt →
  Layouts TS' =
    <[Tgt := set_Predecessors
               (StdSet.insert Link_less (Src, T) (Predecessors nt)).1.2 nt]>
      (<[Src := set_Successors
                  (StdSet.insert Link_less (Tgt, T) (Successors ns)).1.2 ns]>
         (Layouts TS)) →
  neighborsOrdered TS → neighborsOrdered TS'.
Proof.
  intros HnS HnT HL Hord x n. rewrite HL.
  destruct (Hord _ _ HnS) as [HS1 HS2], (Hord _ _ HnT) as [HT1 HT2].
  intros Hx. apply lookup_insert_Some in Hx as [[_ <-]|[_ Hx]]; simpl.
  { split; [done|]. by apply Link_insert_ordered. }
  apply lookup_insert_Some in Hx as [[_ <-]|[_ Hx]]; simpl.
  { split; [|done]. by apply Link_insert_ordered. }
  by eapply Hord.
Qed.

(** Two type systems with the same fields are the same. *)
Lemma LayoutTypeSystem_eq TS TS' :
  M TS' = M TS → NID TS' = NID TS → Layouts TS' = Layouts TS →
  TypePtrToLayoutMap TS' = TypePtrToLayoutMap TS →
  LayoutToTypePtrsMap TS' = LayoutToTypePtrsMap TS →
  LinkTags TS' = LinkTags TS → TS' = TS.
Proof. destruct TS, TS'; simpl; intros; by subst. Qed.

(** Inserting a link that is there, with its tag interned, changes
    nothing. *)
Lemma addLink_present Src Tgt Tag T TS :
  Src ≠ nullptr → Tgt ≠ nullptr → Src ≠ Tgt →
  tagsInterned TS → neighborsOrdered TS →
  (Tag, T) ∈ LinkTags TS →
  hasLink TS Successors Src (Tgt, T) → hasLink TS Predecessors Tgt (Src, T) →
  addLink Src Tgt Tag TS = Some ((T, false), TS).
Proof.
  intros HS HT HST Htags Hord Htag (ns & HnS & HinS) (nt & HnT & HinT).
  destruct (addLink_spec Src Tgt Tag TS ns nt HS HT HST HnS HnT Htags)
    as (T' & TS' & -> & Htags' & Hel & Hcase & HL & HM & HN & HM1 & HM2).
  assert (T' = T) as ->.
  { destruct Htags' as [Ho _]. eapply (interned_handle_unique _ Tag); [done|..].
    - apply Hel. by left.
    - apply Hel. by right. }
  destruct (Hord _ _ HnS) as [HoS _], (Hord _ _ HnT) as [_ HoT].
  rewrite (Link_insert_id _ _ HoS HinS), (Link_insert_id _ _ HoT HinT) in *.
  simpl in *. do 2 f_equal.
  apply LayoutTypeSystem_eq; try done.
  - rewrite HL.
    assert (set_Predecessors (Predecessors nt) nt = nt) as -> by (by destruct nt).
    assert (set_Successors (Successors ns) ns = ns) as -> by (by destruct ns).
    rewrite (insert_id _ Src ns) by done. by rewrite insert_id.
  - destruct Hcase as [[_ ?]|Hfresh]; [done|].
    exfalso. apply Hfresh. apply list_elem_of_fmap. by exists (Tag, T).
Qed.

(** [addLink] on a pointer to no node of the graph trips an assertion. *)
Lemma addLink_absent Src Tgt Tag TS :
  Src ≠ nullptr → Tgt ≠ nullptr → Src ≠ Tgt →
  Layouts TS !! Src = None ∨ Layouts TS !! Tgt = None →
  addLink Src Tgt Tag TS = None.
Proof.
  intros HS HT HST Hnone. unfold addLink, Layouts_count.
  apply N.eqb_neq in HS, HT, HST. rewrite HS, HT, HST. cbn [orb].
  destruct Hnone as [HnS|HnT].
  - rewrite (bool_decide_eq_false_2 (is_Some (Layouts TS !! Src))); [done|].
    rewrite HnS. by intros [? ?].
  - destruct (bool_decide (is_Some (Layouts TS !! Src))); [|done].
    rewrite (bool_decide_eq_false_2 (is_Some (Layouts TS !! Tgt))); [done|].
    rewrite HnT. by intros [? ?].
Qed.

(** The three outcomes of [addLink]. *)
Lemma addLink_cases Src Tgt Tag TS r TS' :
  addLink Src Tgt Tag TS = Some (r, TS') →
  ((Src = nullptr ∨ Tgt = nullptr ∨ Src = Tgt) ∧ r = (nullptr, false) ∧ TS' = TS)
  ∨ (Src ≠ nullptr ∧ Tgt ≠ nullptr ∧ Src ≠ Tgt
     ∧ ∃ ns nt, Layouts TS !! Src = Some ns ∧ Layouts TS !! Tgt = Some nt).
Proof.
  intros Hadd.
  destruct (decide (Src = nullptr ∨ Tgt = nullptr ∨ Src = Tgt)) as [Hdeg|Hnd].
  - left. rewrite addLink_degenerate in Hadd by done. by inversion Hadd.
  - right.
    assert (Src ≠ nullptr ∧ Tgt ≠ nullptr ∧ Src ≠ Tgt) as (HS & HT & HST) by tauto.
    do 3 (split; [done|]).
    destruct (Layouts TS !! Src) as [ns|] eqn:HnS;
      [|by rewrite addLink_absent in Hadd by auto].
    destruct (Layouts TS !! Tgt) as [nt|] eqn:HnT;
      [|by rewrite addLink_absent in Hadd by auto].
    eauto.
Qed.

Lemma addLink_neighborsOrdered Src Tgt Tag TS r TS' :
  neighborsOrdered TS → addLink Src Tgt Tag TS = Some (r, TS') →
  neighborsOrdered TS'.
Proof.
  intros Hord Hadd.
  destruct (addLink_cases _ _ _ _ _ _ Hadd)
    as [(_ & _ & ->)|(HS & HT & HST & ns & nt & HnS & HnT)]; [done|].
  rewrite (addLink_unfold _ _ _ _ _ _ HS HT HST HnS HnT) in Hadd.
  cbv zeta in Hadd. inversion Hadd; subst.
  eapply ordered_after_insert; [exact HnS|exact HnT|reflexivity|done].
Qed.

Lemma addLink_consistent Src Tgt Tag TS r TS' :
  consistent TS → addLink Src Tgt Tag TS = Some (r, TS') → consistent TS'.
Proof.
  intros Hc Hadd.
  destruct (addLink_cases _ _ _ _ _ _ Hadd)
    as [(_ & _ & ->)|(HS & HT & HST & ns & nt & HnS & HnT)]; [done|].
  destruct Hc as [Hnull Hord Htags Hmirror Hloop Hhandles].
  destruct (addLink_spec Src Tgt Tag TS ns nt HS HT HST HnS HnT Htags)
    as (T & TS1 & Heq & Htags' & Hel & Hcase & HL & _).
  rewrite Hadd in Heq. inversion Heq; subst TS1. clear Heq.
  destruct (links_after_insert TS TS' Src Tgt T ns nt HST HnS HnT HL)
    as (Hsucc & Hpred & Hdom).
  split.
  - apply eq_None_not_Some. rewrite Hdom, Hnull. by intros [? ?].
  - eapply ordered_after_insert; [exact HnS|exact HnT|exact HL|exact Hord].
  - done.
  - intros s t T0. rewrite Hsucc, Hpred, Hmirror. naive_solver.
  - intros s T0. rewrite Hsucc. intros [Hold|[-> [= ? ?]]]; [|done].
    by eapply Hloop.
  - intros s t T0. rewrite Hsucc. intros [Hold|[-> [= -> ->]]].
    + apply Hhandles in Hold. apply list_elem_of_fmap in Hold as (c & -> & Hc).
      apply list_elem_of_fmap. exists c. split; [done|]. apply Hel. by right.
    + apply list_elem_of_fmap. exists (Tag, T). split; [done|]. apply Hel. by left.
Qed.

(** A link of another kind leaves the equality links in pairs. *)
Lemma addLink_equalitySymmetric Src Tgt Tag TS r TS' :
  Tag ≠ equalityTag →
  consistent TS → equalitySymmetric TS →
  addLink Src Tgt Tag TS = Some (r, TS') → equalitySymmetric TS'.
Proof.
  intros HTag Hc Hsym Hadd.
  destruct (addLink_cases _ _ _ _ _ _ Hadd)
    as [(_ & _ & ->)|(HS & HT & HST & ns & nt & HnS & HnT)]; [done|].
  destruct (addLink_spec Src Tgt Tag TS ns nt HS HT HST HnS HnT
              (consistent_tags _ Hc))
    as (T & TS1 & Heq & Htags' & Hel & Hcase & HL & _).
  rewrite Hadd in Heq. inversion Heq; subst TS1. clear Heq.
  destruct (links_after_insert TS TS' Src Tgt T ns nt HST HnS HnT HL)
    as (Hsucc & Hpred & Hdom).
  intros s t T0 Hcell. rewrite !Hsucc.
  intros [Hold|[-> [= -> ->]]].
  - left. apply Hsym; [|done].
    apply Hel in Hcell as [[= <- _]|Hcell]; done.
  - exfalso. apply HTag. destruct Htags' as [_ Hnd].
    eapply interned_tag_unique; [done| |done]. apply Hel. by left.
Qed.

Lemma hasLink_lookup TS select a n lk :
  Layouts TS !! a = Some n → (hasLink TS select a lk ↔ lk ∈ select n).
Proof. intros Hn. unfold hasLink. rewrite Hn. naive_solver. Qed.

(** What [addEqualityLink] does on two distinct nodes of a well-formed
    graph: its two insertions return the same pair, and the links of the
    graph gain the two directions. *)
Lemma addEqualityLink_spec TS a b na nb :
  wellFormed TS → a ≠ nullptr → b ≠ nullptr → a ≠ b →
  Layouts TS !! a = Some na → Layouts TS !! b = Some nb →
  ∃ T New TSf TS1,
    addLink a b equalityTag TS = Some ((T, New), TSf)
    ∧ addLink b a equalityTag TSf = Some ((T, New), TS1)
    ∧ (equalityTag, T) ∈ LinkTags TS1
    ∧ (∀ c, c ∈ LinkTags TS1 ↔ c = (equalityTag, T) ∨ c ∈ LinkTags TS)
    ∧ (((equalityTag, T) ∈ LinkTags TS) ∨ T ∉ (LinkTags TS).*2)
    ∧ consistent TS1
    ∧ (∀ x lk, hasLink TS1 Successors x lk ↔
               hasLink TS Successors x lk
               ∨ (x = a ∧ lk = (b, T)) ∨ (x = b ∧ lk = (a, T)))
    ∧ (∀ x lk, hasLink TS1 Predecessors x lk ↔
               hasLink TS Predecessors x lk
               ∨ (x = b ∧ lk = (a, T)) ∨ (x = a ∧ lk = (b, T))).
Proof.
  intros [Hc Hsym] Ha Hb Hab Hna Hnb.
  destruct (addLink_spec a b equalityTag TS na nb Ha Hb Hab Hna Hnb
              (consistent_tags _ Hc))
    as (T & TSf & Heq1 & Htags1 & Hel1 & Hcase1 & HL1 & _).
  destruct (links_after_insert TS TSf a b T na nb Hab Hna Hnb HL1)
    as (Hsucc1 & Hpred1 & _).
  pose proof (addLink_consistent _ _ _ _ _ _ Hc Heq1) as Hc1.
  assert (Layouts TSf !! b = Some (set_Predecessors
            (StdSet.insert Link_less (a, T) (Predecessors nb)).1.2 nb)) as Hnb1.
  { rewrite HL1. apply lookup_insert_eq. }
  assert (Layouts TSf !! a = Some (set_Successors
            (StdSet.insert Link_less (b, T) (Successors na)).1.2 na)) as Hna1.
  { rewrite HL1. rewrite lookup_insert_ne by done. apply lookup_insert_eq. }
  destruct (addLink_spec b a equalityTag TSf _ _ Hb Ha (not_eq_sym Hab) Hnb1 Hna1
              Htags1)
    as (T' & TS1 & Heq2 & Htags2 & Hel2 & Hcase2 & HL2 & _).
  assert (T' = T) as ->.
  { destruct Htags2 as [Ho _]. eapply (interned_handle_unique _ equalityTag); [done|..].
    - apply Hel2. by left.
    - apply Hel2. right. apply Hel1. by left. }
  destruct (links_after_insert TSf TS1 b a T _ _ (not_eq_sym Hab) Hnb1 Hna1 HL2)
    as (Hsucc2 & Hpred2 & _).
  pose proof (addLink_consistent _ _ _ _ _ _ Hc1 Heq2) as Hc2.
  simpl in Heq2.
  (* the two insertions report the same novelty *)
  destruct (consistent_ordered _ Hc _ _ Hna) as [Hoa1 Hoa2].
  destruct (consistent_ordered _ Hc _ _ Hnb) as [Hob1 Hob2].
  rewrite !Link_insert_new in Heq1, Heq2 by done.
  assert ((b, T) ∈ Successors na ↔ (a, T) ∈ Predecessors nb) as H12.
  { rewrite <- (hasLink_lookup TS Successors a na) by done.
    rewrite <- (hasLink_lookup TS Predecessors b nb) by done.
    apply (consistent_mirror _ Hc). }
  assert ((a, T) ∈ Successors nb ↔ (b, T) ∈ Predecessors na) as H34.
  { rewrite <- (hasLink_lookup TS Successors b nb) by done.
    rewrite <- (hasLink_lookup TS Predecessors a na) by done.
    apply (consistent_mirror _ Hc). }
  assert ((b, T) ∈ Successors na ↔ (a, T) ∈ Successors nb) as H13.
  { rewrite <- (hasLink_lookup TS Successors a na) by done.
    rewrite <- (hasLink_lookup TS Successors b nb) by done.
    destruct Hcase1 as [[Hcell _]|Hfresh].
    - split; by apply Hsym.
    - split; intros Hl; exfalso; apply Hfresh;
        by apply (consistent_handles _ Hc) in Hl. }
  rewrite <- (bool_decide_ext _ _ H12) in Heq1.
  rewrite <- (bool_decide_ext _ _ H34), <- (bool_decide_ext _ _ H13) in Heq2.
  eexists T, _, TSf, TS1. split; [exact Heq1|]. split; [exact Heq2|].
  split; [apply Hel2; by left|].
  split.
  { intros c. rewrite Hel2, Hel1. naive_solver. }
  split; [destruct Hcase1 as [[? _]|?]; auto|].
  split; [done|].
  split.
  - intros x lk. rewrite Hsucc2, Hsucc1. tauto.
  - intros x lk. rewrite Hpred2, Hpred1. tauto.
Qed.

Lemma addEqualityLink_wellFormed Src Tgt TS r TS' :
  wellFormed TS → addEqualityLink Src Tgt TS = Some (r, TS') → wellFormed TS'.
Proof.
  intros Hwf Hadd. unfold addEqualityLink in Hadd.
  destruct (decide (Src = nullptr ∨ Tgt = nullptr ∨ Src = Tgt)) as [Hdeg|Hnd].
  { rewrite addLink_degenerate in Hadd by done. simpl in Hadd.
    rewrite addLink_degenerate in Hadd by naive_solver. simpl in Hadd.
    rewrite ?bool_decide_eq_true_2 in Hadd by done. simpl in Hadd.
    by inversion Hadd; subst. }
  assert (Src ≠ nullptr ∧ Tgt ≠ nullptr ∧ Src ≠ Tgt) as (HS & HT & HST) by tauto.
  destruct (addLink Src Tgt equalityTag TS) as [[r1 TSf]|] eqn:Heq1; [|done].
  destruct (addLink_cases _ _ _ _ _ _ Heq1)
    as [(? & _)|(_ & _ & _ & ns & nt & HnS & HnT)]; [done|].
  destruct (addEqualityLink_spec TS Src Tgt ns nt Hwf HS HT HST HnS HnT)
    as (T & New & TSf' & TS1 & Heq1' & Heq2 & Hcell & Hel & Hcase & Hc1
        & Hsucc & Hpred).
  rewrite Heq1 in Heq1'. inversion Heq1'; subst. clear Heq1'.
  simpl in Hadd. rewrite Heq2 in Hadd. simpl in Hadd.
  rewrite bool_decide_eq_true_2 in Hadd by done. simpl in Hadd.
  inversion Hadd; subst. clear Hadd.
  split; [done|].
  destruct Hwf as [Hc Hsym].
  intros s t T0 Hcell0. rewrite !Hsucc.
  intros [Hold|[[-> [= -> ->]]|[-> [= -> ->]]]]; [|by auto..].
  left. apply Hsym; [|done].
  apply Hel in Hcell0 as [[= <-]|Hcell0]; [|done].
  destruct Hcase as [?|Hfresh]; [done|].
  exfalso. apply Hfresh. by apply (consistent_handles _ Hc) in Hold.
Qed.

Lemma runLinkCall_wellFormed C TS r TS' :
  wellFormed TS → runLinkCall C TS = Some (r, TS') → wellFormed TS'.
Proof.
  intros Hwf Hrun. destruct C as [Src Tgt|Src Tgt|Src Tgt OE]; simpl in Hrun.
  - by eapply addEqualityLink_wellFormed.
  - destruct Hwf as [Hc Hsym]. split.
    + by eapply addLink_consistent.
    + by eapply (addLink_equalitySymmetric Src Tgt inheritanceTag).
  - destruct Hwf as [Hc Hsym]. split.
    + by eapply addLink_consistent.
    + by eapply (addLink_equalitySymmetric Src Tgt (instanceTag OE)).
Qed.

Lemma runLinkCalls_wellFormed Cs TS TS' :
  wellFormed TS → runLinkCalls Cs TS = Some TS' → wellFormed TS'.
Proof.
  revert TS. induction Cs as [|C Cs IH]; intros TS Hwf Hrun; simpl in Hrun.
  - by inversion Hrun; subst.
  - destruct (runLinkCall C TS) as [[r TS1]|] eqn:HC; [|done]. simpl in Hrun.
    eapply IH; [|exact Hrun]. by eapply runLinkCall_wellFormed.
Qed.

Lemma runLinkCall_neighborsOrdered C TS r TS' :
  neighborsOrdered TS → runLinkCall C TS = Some (r, TS') → neighborsOrdered TS'.
Proof.
  intros Hord Hrun. destruct C as [Src Tgt|Src Tgt|Src Tgt OE]; simpl in Hrun;
    [|by eapply addLink_neighborsOrdered..].
  unfold addEqualityLink in Hrun.
  destruct (addLink Src Tgt equalityTag TS) as [[r1 TSf]|] eqn:Heq1; [|done].
  simpl in Hrun.
  destruct (addLink Tgt Src equalityTag TSf) as [[r2 TS1]|] eqn:Heq2; [|done].
  simpl in Hrun.
  destruct (bool_decide (r1 = r2)); [|done]. simpl in Hrun.
  inversion Hrun; subst.
  eapply addLink_neighborsOrdered; [|exact Heq2].
  by eapply addLink_neighborsOrdered.
Qed.
End link_facts.

(** A graph without links and without tags is well formed. *)
Lemma wellFormed_no_links TS :
  Layouts TS !! nullptr = None →
  map_Forall (λ _ n, Successors n = [] ∧ Predecessors n = []) (Layouts TS) →
  LinkTags TS = [] →
  wellFormed TS.
Proof.
  intros Hnull Hempty Htags.
  assert (∀ a lk, ¬ hasLink TS Successors a lk) as HnoS.
  { intros a lk (n & Hn & Hin). destruct (Hempty _ _ Hn) as [HS HP].
    rewrite HS in Hin. by apply elem_of_nil in Hin. }
  assert (∀ a lk, ¬ hasLink TS Predecessors a lk) as HnoP.
  { intros a lk (n & Hn & Hin). destruct (Hempty _ _ Hn) as [HS HP].
    rewrite HP in Hin. by apply elem_of_nil in Hin. }
  split; [split|].
  - done.
  - intros a n Hn. destruct (Hempty _ _ Hn) as [-> ->]. split; constructor.
  - unfold tagsInterned. rewrite Htags. split; [constructor|apply NoDup_nil_2].
  - intros s t T. split; intros Hl; exfalso; [by eapply HnoS|by eapply HnoP].
  - intros s T Hl. by eapply HnoS.
  - intros s t T Hl. exfalso. by eapply HnoS.
  - intros s t T _ Hl. exfalso. by eapply HnoS.
Qed.

Lemma tagAt_interned TS Tag T :
  NoDup (LinkTags TS).*2 → (Tag, T) ∈ LinkTags TS → tagAt TS T = Some Tag.
Proof.
  unfold tagAt. induction (LinkTags TS) as [|c tags IH]; intros Hnd Hin.
  - by apply elem_of_nil in Hin.
  - apply NoDup_cons in Hnd as [Hc Hnd]. simpl.
    destruct (c.2 =? T)%N eqn:HcT.
    + apply N.eqb_eq in HcT. apply elem_of_cons in Hin as [<-|Hin]; [done|].
      exfalso. apply Hc. apply list_elem_of_fmap. by exists (Tag, T).
    + apply elem_of_cons in Hin as [<-|Hin]; [by rewrite N.eqb_refl in HcT|].
      by apply IH.
Qed.

Lemma filter_singleton {A : Type} (P : A → Prop) `{∀ x, Decision (P x)} (l : list A) x :
  NoDup l → x ∈ l → P x → (∀ y, y ∈ l → P y → y = x) → filter P l = [x].
Proof.
  induction l as [|z l IH]; intros Hnd Hin HP Huniq.
  - by apply elem_of_nil in Hin.
  - apply NoDup_cons in Hnd as [Hz Hnd].
    apply elem_of_cons in Hin as [<-|Hin].
    + rewrite filter_cons_True by done. f_equal.
      destruct (filter P l) as [|y l'] eqn:Hf; [done|].
      assert (y ∈ filter P l) as Hy by (rewrite Hf; apply elem_of_cons; by left).
      apply list_elem_of_filter in Hy as [HPy Hy].
      assert (y = x) as -> by (apply Huniq; [apply elem_of_cons; by right|done]).
      done.
    + rewrite filter_cons_False.
      * apply IH; auto. intros y Hy. apply Huniq. apply elem_of_cons. by right.
      * intros HPz.
        assert (z = x) as -> by (apply Huniq; [apply elem_of_cons; by left|done]).
        done.
Qed.

Lemma Link_ordered_NoDup s : StdSet.ordered Link_less s → NoDup s.
Proof.
  unfold StdSet.ordered. induction 1 as [|x s Hs IH Hx]; constructor; [|done].
  intros Hin. rewrite Forall_forall in Hx. specialize (Hx _ Hin).
  by rewrite Link_less_irrefl in Hx.
Qed.

(** ** The claims on the type-system graph *)

Lemma threeNodes_wellFormed : wellFormed threeNodes.
Proof.
  apply wellFormed_no_links; [done| |done].
  unfold threeNodes. simpl.
  repeat (apply map_Forall_insert_2; [done|]). apply map_Forall_empty.
Qed.

(** Claim C7.  A link insertion (equality, inheritance or instance) whose
    source or target is null, or whose source and target are the same node,
    returns the null tag handle with [false] and leaves the type system as it
    was. *)
Theorem null_and_self_links_dropped `{TagAllocator} TS Src Tgt OE :
  Src = nullptr ∨ Tgt = nullptr ∨ Src = Tgt →
  addEqualityLink Src Tgt TS = Some ((nullptr, false), TS)
  ∧ addInheritanceLink Src Tgt TS = Some ((nullptr, false), TS)
  ∧ addInstanceLink Src Tgt OE TS = Some ((nullptr, false), TS).
Proof.
  intros Hdeg. unfold addEqualityLink, addInheritanceLink, addInstanceLink.
  rewrite !addLink_degenerate by done. simpl.
  rewrite addLink_degenerate by naive_solver. done.
Qed.

Lemma null_and_self_links_dropped_witness :
  addEqualityLink 300%N 300%N threeNodes = Some ((nullptr, false), threeNodes)
  ∧ addInheritanceLink 300%N 300%N threeNodes = Some ((nullptr, false), threeNodes)
  ∧ addInstanceLink 300%N 300%N (OffsetExpression_of 8) threeNodes
    = Some ((nullptr, false), threeNodes).
Proof.
  apply (null_and_self_links_dropped threeNodes 300%N 300%N (OffsetExpression_of 8)).
  right. right. reflexivity.
Defined.

(** Claim C5.  On a well-formed graph, [addEqualityLink a b] inserts the
    equality link in both directions, its forward and its backward insertion
    return the same tag handle and the same [was_new] bit, and a following
    [addEqualityLink b a] returns that handle with [false] and leaves the
    whole type system, hence every successor and predecessor set, as the
    first call left it. *)
Theorem addEqualityLink_symmetric_idempotent `{TagAllocator} TS a b :
  wellFormed TS →
  a = nullptr ∨ is_Some (Layouts TS !! a) →
  b = nullptr ∨ is_Some (Layouts TS !! b) →
  ∃ T New TSf TS1,
    addLink a b equalityTag TS = Some ((T, New), TSf)
    ∧ addLink b a equalityTag TSf = Some ((T, New), TS1)
    ∧ addEqualityLink a b TS = Some ((T, New), TS1)
    ∧ ((a = nullptr ∨ b = nullptr ∨ a = b)
       ∨ (hasLink TS1 Successors a (b, T) ∧ hasLink TS1 Predecessors b (a, T)
          ∧ hasLink TS1 Successors b (a, T) ∧ hasLink TS1 Predecessors a (b, T)
          ∧ tagAt TS1 T = Some equalityTag))
    ∧ addEqualityLink b a TS1 = Some ((T, false), TS1).
Proof.
  intros Hwf Ha Hb.
  destruct (decide (a = nullptr ∨ b = nullptr ∨ a = b)) as [Hdeg|Hnd].
  { exists nullptr, false, TS, TS.
    assert (b = nullptr ∨ a = nullptr ∨ b = a) as Hdeg' by naive_solver.
    unfold addEqualityLink.
    repeat (rewrite addLink_degenerate by done; simpl). naive_solver. }
  assert (a ≠ nullptr ∧ b ≠ nullptr ∧ a ≠ b) as (Ha' & Hb' & Hab) by tauto.
  destruct Ha as [?|[na Hna]]; [done|]. destruct Hb as [?|[nb Hnb]]; [done|].
  destruct (addEqualityLink_spec TS a b na nb Hwf Ha' Hb' Hab Hna Hnb)
    as (T & New & TSf & TS1 & Heq1 & Heq2 & Hcell & Hel & Hcase & Hc1 & Hsucc & Hpred).
  exists T, New, TSf, TS1.
  assert (hasLink TS1 Successors a (b, T) ∧ hasLink TS1 Predecessors b (a, T)
          ∧ hasLink TS1 Successors b (a, T) ∧ hasLink TS1 Predecessors a (b, T))
    as (H1 & H2 & H3 & H4).
  { rewrite !Hsucc, !Hpred. naive_solver. }
  split; [done|]. split; [done|]. split.
  { unfold addEqualityLink. rewrite Heq1. simpl. rewrite Heq2. simpl.
    by rewrite bool_decide_eq_true_2. }
  split.
  { right. do 4 (split; [done|]).
    apply tagAt_interned; [|done]. by destruct (consistent_tags _ Hc1). }
  unfold addEqualityLink.
  rewrite (addLink_present b a equalityTag T TS1); try done;
    [|apply (consistent_tags _ Hc1)|apply (consistent_ordered _ Hc1)].
  simpl.
  rewrite (addLink_present a b equalityTag T TS1); try done;
    [|apply (consistent_tags _ Hc1)|apply (consistent_ordered _ Hc1)].
  simpl. by rewrite bool_decide_eq_true_2.
Qed.

Lemma addEqualityLink_symmetric_idempotent_witness :
  ∃ T New TSf TS1,
    addLink 300%N 100%N equalityTag threeNodes = Some ((T, New), TSf)
    ∧ addLink 100%N 300%N equalityTag TSf = Some ((T, New), TS1)
    ∧ addEqualityLink 300%N 100%N threeNodes = Some ((T, New), TS1)
    ∧ ((300%N = nullptr ∨ 100%N = nullptr ∨ 300%N = 100%N)
       ∨ (hasLink TS1 Successors 300%N (100%N, T)
          ∧ hasLink TS1 Predecessors 100%N (300%N, T)
          ∧ hasLink TS1 Successors 100%N (300%N, T)
          ∧ hasLink TS1 Predecessors 300%N (100%N, T)
          ∧ tagAt TS1 T = Some equalityTag))
    ∧ addEqualityLink 100%N 300%N TS1 = Some ((T, false), TS1).
Proof.
  apply (addEqualityLink_symmetric_idempotent threeNodes 300%N 100%N).
  - exact threeNodes_wellFormed.
  - right. eexists. reflexivity.
  - right. eexists. reflexivity.
Defined.

(** Claim C6.  On a consistent graph, for two distinct nodes [A] and [B] not
    yet linked by an instance link of offset expression [OE], the call
    [addInstanceLink A B OE] returns a tag handle with [was_new] true; a
    second call with a structurally equal offset expression returns the same
    handle with [was_new] false and changes nothing; and the graph holds one
    link from [A] to [B] with that tag. *)
Theorem addInstanceLink_twice `{TagAllocator} TS A B OE OE' :
  consistent TS → A ≠ B →
  is_Some (Layouts TS !! A) → is_Some (Layouts TS !! B) →
  OffsetExpression_cmp OE OE' = Eq →
  linksBetween TS A B (instanceTag OE) = [] →
  ∃ T TS1,
    addInstanceLink A B OE TS = Some ((T, true), TS1)
    ∧ addInstanceLink A B OE' TS1 = Some ((T, false), TS1)
    ∧ linksBetween TS1 A B (instanceTag OE) = [(B, T)].
Proof.
  intros Hc HAB [nA HnA] [nB HnB] HOE%OffsetExpression_cmp_eq Hnone. subst OE'.
  assert (A ≠ nullptr) as HA.
  { intros ->. by rewrite (consistent_nonnull _ Hc) in HnA. }
  assert (B ≠ nullptr) as HB.
  { intros ->. by rewrite (consistent_nonnull _ Hc) in HnB. }
  unfold addInstanceLink.
  destruct (addLink_spec A B (instanceTag OE) TS nA nB HA HB HAB HnA HnB
              (consistent_tags _ Hc))
    as (T & TS1 & Heq & Htags1 & Hel & Hcase & HL & _).
  pose proof (addLink_consistent _ _ _ _ _ _ Hc Heq) as Hc1.
  destruct (links_after_insert TS TS1 A B T nA nB HAB HnA HnB HL)
    as (Hsucc & Hpred & _).
  assert ((B, T) ∉ Successors nA) as Hnew.
  { intros Hin. destruct Hcase as [[Hcell _]|Hfresh].
    - unfold linksBetween in Hnone. rewrite HnA in Hnone.
      eapply (filter_nil_not_elem_of _ _ (B, T)); [exact Hnone| |exact Hin].
      split; [done|]. simpl. apply tagAt_interned; [|done].
      by destruct (consistent_tags _ Hc).
    - apply Hfresh. eapply (consistent_handles _ Hc A B T). by exists nA. }
  destruct (consistent_ordered _ Hc _ _ HnA) as [HoA _].
  rewrite (Link_insert_new _ _ HoA), bool_decide_eq_false_2 in Heq by done.
  simpl in Heq.
  exists T, TS1. split; [done|].
  assert ((instanceTag OE, T) ∈ LinkTags TS1) as Hcell by (apply Hel; by left).
  split.
  { apply addLink_present; try done.
    - apply (consistent_ordered _ Hc1).
    - apply Hsucc. by right.
    - apply Hpred. by right. }
  assert (hasLink TS1 Successors A (B, T)) as (nA1 & HnA1 & Hin1)
    by (apply Hsucc; by right).
  unfold linksBetween. rewrite HnA1.
  destruct (consistent_tags _ Hc1) as [Hord1 Hnd1].
  apply filter_singleton.
  - apply Link_ordered_NoDup. by apply (consistent_ordered _ Hc1 _ _ HnA1).
  - done.
  - split; [done|]. simpl. by apply tagAt_interned.
  - intros [t T'] Hin [Ht Htag]. simpl in *. subst t. f_equal.
    assert (T' ∈ (LinkTags TS1).*2) as HT'.
    { eapply (consistent_handles _ Hc1 A B T'). by exists nA1. }
    apply list_elem_of_fmap in HT' as ([Tag' T''] & -> & Hcell').
    simpl in Htag. rewrite (tagAt_interned _ _ _ Hnd1 Hcell') in Htag.
    inversion Htag; subst. by eapply interned_handle_unique.
Qed.

Lemma addInstanceLink_twice_witness :
  ∃ T TS1,
    addInstanceLink 300%N 200%N (OffsetExpression_of 0) threeNodes = Some ((T, true), TS1)
    ∧ addInstanceLink 300%N 200%N (OffsetExpression_of 0) TS1 = Some ((T, false), TS1)
    ∧ linksBetween TS1 300%N 200%N (instanceTag (OffsetExpression_of 0)) = [(200%N, T)].
Proof.
  apply (addInstanceLink_twice threeNodes 300%N 200%N
           (OffsetExpression_of 0) (OffsetExpression_of 0)).
  - apply threeNodes_wellFormed.
  - done.
  - eexists. reflexivity.
  - eexists. reflexivity.
  - reflexivity.
  - reflexivity.
Defined.

(** Claim C3, as stated, fails: the neighbor sets are [std::set]s of pairs
    of pointers, ordered by the addresses of the nodes and of the tag cells.
    With the nodes of identifiers 0, 1, 2 at the addresses 300, 200, 100, the
    successors of node 0 after linking it to nodes 1 and 2 iterate as node 2,
    then node 1: descending identifiers. *)
Lemma successors_not_ordered_by_id :
  ∃ TS' n,
    runLinkCalls [CallInheritanceLink 300%N 200%N; CallInheritanceLink 300%N 100%N]
                 threeNodes = Some TS'
    ∧ Layouts TS' !! 300%N = Some n
    ∧ neighborIds TS' (Successors n) = [(2%N, 1%N); (1%N, 1%N)]
    ∧ ¬ orderedByNeighborId TS'.
Proof.
  eexists _, _. split; [vm_compute; reflexivity|].
  split; [vm_compute; reflexivity|].
  split; [vm_compute; reflexivity|].
  intros Hord. destruct (Hord 300%N _ eq_refl) as [Hs _].
  vm_compute in Hs. apply StronglySorted_inv in Hs as [_ Hs].
  apply Forall_cons in Hs as [Hs _]. discriminate Hs.
Qed.

(** Claim C3, amended.  The successor and predecessor sets of every node
    iterate in strictly ascending order of (address of the neighbor, address
    of the tag cell): link insertions keep every set in that order, which is
    the order the nodes had when created with empty sets. *)
Theorem neighbor_sets_ordered_by_address `{TagAllocator} Cs TS TS' :
  neighborsOrdered TS → runLinkCalls Cs TS = Some TS' → neighborsOrdered TS'.
Proof.
  revert TS. induction Cs as [|C Cs IH]; intros TS Hord Hrun; simpl in Hrun.
  - by inversion Hrun; subst.
  - destruct (runLinkCall C TS) as [[r TS1]|] eqn:HC; [|done]. simpl in Hrun.
    eapply IH; [|exact Hrun]. by eapply runLinkCall_neighborsOrdered.
Qed.

Lemma neighbor_sets_ordered_by_address_witness :
  ∃ TS',
    runLinkCalls [CallInheritanceLink 300%N 200%N; CallEqualityLink 100%N 300%N;
                  CallInstanceLink 300%N 100%N (OffsetExpression_of 4)]
                 threeNodes = Some TS'
    ∧ neighborsOrdered TS'.
Proof.
  eexists. split; [vm_compute; reflexivity|].
  eapply (neighbor_sets_ordered_by_address
            [CallInheritanceLink 300%N 200%N; CallEqualityLink 100%N 300%N;
             CallInstanceLink 300%N 100%N (OffsetExpression_of 4)] threeNodes).
  - apply (consistent_ordered _ (proj1 threeNodes_wellFormed)).
  - vm_compute; reflexivity.
Defined.

(** ** The claim on layout-type keys *)

(** The constructor of a layout-type key returns a key exactly when its
    four assertions hold, and the key holds the pointer and the index it was
    given. *)
Lemma LayoutTypePtr_new_succeeds_iff (Mod : Module) (Val : ptr) (Idx : N)
    (K : LayoutTypePtr) :
  LayoutTypePtr_new Mod Val Idx = Some K ↔
    Val ≠ nullptr
    ∧ ∃ Vobj, Mod !! Val = Some Vobj
        ∧ (isa_Function Vobj = true ∨ isIntegerTy (getType Vobj) = true
           ∨ isPointerTy (getType Vobj) = true)
        ∧ (Idx ≠ UINT_MAX ↔ is_Some (returnedStruct Vobj))
        ∧ (∀ Elements, returnedStruct Vobj = Some Elements →
             (Idx < N.of_nat (length Elements))%N)
        ∧ K = mkLayoutTypePtr Val Idx.
Proof.
  unfold LayoutTypePtr_new, revng_assert. split.
  - destruct (Val =? nullptr)%N eqn:HVal; simpl; [done|].
    apply N.eqb_neq in HVal.
    destruct (Mod !! Val) as [Vobj|]; simpl; [|done].
    destruct (isa_Function Vobj || isIntegerTy (getType Vobj)
              || isPointerTy (getType Vobj)) eqn:Hkind; simpl; [|done].
    rewrite !orb_true_iff in Hkind.
    destruct (returnedStruct Vobj) as [Elements|] eqn:Hst; simpl.
    + rewrite ?bool_decide_eq_true_2 by done. simpl.
      destruct (Idx =? UINT_MAX)%N eqn:HIdx; simpl; [done|].
      apply N.eqb_neq in HIdx.
      destruct (Idx <? N.of_nat (length Elements))%N eqn:Hlt; simpl; [|done].
      apply N.ltb_lt in Hlt. intros [= <-].
      split; [done|]. exists Vobj. split; [done|]. split; [tauto|].
      split; [by split; eauto|].
      split; [|done]. intros E HE. rewrite Hst in HE. by inversion HE; subst.
    + rewrite ?bool_decide_eq_false_2 by (by intros ?). simpl.
      destruct (Idx =? UINT_MAX)%N eqn:HIdx; simpl; [|done].
      apply N.eqb_eq in HIdx. intros [= <-].
      split; [done|]. exists Vobj. split; [done|]. split; [tauto|].
      rewrite Hst. split; [|done]. split; [done|]. by intros [? ?].
  - intros (HVal & Vobj & -> & Hkind & Hidx & Hlt & ->).
    apply N.eqb_neq in HVal. rewrite HVal. simpl.
    assert (isa_Function Vobj || isIntegerTy (getType Vobj)
            || isPointerTy (getType Vobj) = true) as ->.
    { rewrite !orb_true_iff. tauto. }
    simpl. destruct (returnedStruct Vobj) as [Elements|] eqn:Hst; simpl.
    + rewrite ?bool_decide_eq_true_2 by done. simpl.
      assert ((Idx =? UINT_MAX)%N = false) as ->.
      { apply N.eqb_neq. apply Hidx. eauto. }
      simpl. specialize (Hlt _ eq_refl). apply N.ltb_lt in Hlt. by rewrite Hlt.
    + rewrite ?bool_decide_eq_false_2 by (by intros ?). simpl.
      assert ((Idx =? UINT_MAX)%N = true) as ->; [|done].
      apply N.eqb_eq. destruct (decide (Idx = UINT_MAX)) as [|Hne]; [done|].
      apply Hidx in Hne as [? ?]. done.
Qed.

(** Claim C8, as stated, fails in its last part: a constructed key is not
    immutable.  The class defaults its copy and move assignment over two
    members that are not [const], and assigning the key of field 1 of [g] to
    the object constructed as the key of [x] changes the value and the index
    that the object holds. *)
Lemma LayoutTypePtr_assignment_overwrites_key :
  ∃ This Other,
    LayoutTypePtr_of Example.irModule 20%N = Some This
    ∧ LayoutTypePtr_new Example.irModule 10%N 1%N = Some Other
    ∧ V This = 20%N ∧ FieldIdx This = UINT_MAX
    ∧ V (LayoutTypePtr_assign This Other) = 10%N
    ∧ FieldIdx (LayoutTypePtr_assign This Other) = 1%N
    ∧ LayoutTypePtr_assign This Other ≠ This.
Proof.
  exists (mkLayoutTypePtr 20 UINT_MAX), (mkLayoutTypePtr 10 1).
  repeat split; try reflexivity. discriminate.
Qed.

(** Claim C8, amended.  The constructor of a layout-type key returns a key
    exactly when the value pointer is not null, the value is a function or
    has an integer or a pointer type, the index differs from the sentinel
    exactly when the value is a function that returns a struct, and the index
    is then below the number of elements of that struct; the key holds the
    pointer and the index it was given, and in every other case an assertion
    fails.  A key object is not immutable, but the one way to change it is to
    assign another key to it: after the assignment the object is that other
    key, member for member, and so still a key that the constructor
    accepts. *)
Theorem LayoutTypePtr_constructed_keys (Mod : Module) (Val : ptr) (Idx : N)
    (K : LayoutTypePtr) (This Other : LayoutTypePtr) (Val' : ptr) (Idx' : N)
    (HOther : LayoutTypePtr_new Mod Val' Idx' = Some Other) :
  (LayoutTypePtr_new Mod Val Idx = Some K ↔
     Val ≠ nullptr
     ∧ ∃ Vobj, Mod !! Val = Some Vobj
         ∧ (isa_Function Vobj = true ∨ isIntegerTy (getType Vobj) = true
            ∨ isPointerTy (getType Vobj) = true)
         ∧ (Idx ≠ UINT_MAX ↔ is_Some (returnedStruct Vobj))
         ∧ (∀ Elements, returnedStruct Vobj = Some Elements →
              (Idx < N.of_nat (length Elements))%N)
         ∧ K = mkLayoutTypePtr Val Idx)
  ∧ LayoutTypePtr_assign This Other = Other
  ∧ LayoutTypePtr_new Mod (V (LayoutTypePtr_assign This Other))
      (FieldIdx (LayoutTypePtr_assign This Other))
    = Some (LayoutTypePtr_assign This Other).
Proof.
  split; [apply LayoutTypePtr_new_succeeds_iff|].
  assert (LayoutTypePtr_assign This Other = Other) as Hassign by (by destruct Other).
  split; [done|]. rewrite Hassign.
  pose proof HOther as HOther'.
  apply LayoutTypePtr_new_succeeds_iff in HOther' as (_ & _ & _ & _ & _ & _ & ->).
  exact HOther.
Qed.

Lemma LayoutTypePtr_constructed_keys_witness :
  let K := mkLayoutTypePtr 10 1 in
  let This := mkLayoutTypePtr 20 UINT_MAX in
  let Other := mkLayoutTypePtr 10 1 in
  (LayoutTypePtr_new Example.irModule 10%N 1%N = Some K ↔
     10%N ≠ nullptr
     ∧ ∃ Vobj, Example.irModule !! 10%N = Some Vobj
         ∧ (isa_Function Vobj = true ∨ isIntegerTy (getType Vobj) = true
            ∨ isPointerTy (getType Vobj) = true)
         ∧ (1%N ≠ UINT_MAX ↔ is_Some (returnedStruct Vobj))
         ∧ (∀ Elements, returnedStruct Vobj = Some Elements →
              (1 < N.of_nat (length Elements))%N)
         ∧ K = mkLayoutTypePtr 10 1)
  ∧ LayoutTypePtr_assign This Other = Other
  ∧ LayoutTypePtr_new Example.irModule (V (LayoutTypePtr_assign This Other))
      (FieldIdx (LayoutTypePtr_assign This Other))
    = Some (LayoutTypePtr_assign This Other).
Proof.
  apply (LayoutTypePtr_constructed_keys Example.irModule 10%N 1%N
           (mkLayoutTypePtr 10 1) (mkLayoutTypePtr 20 UINT_MAX)
           (mkLayoutTypePtr 10 1) 10%N 1%N).
  reflexivity.
Defined.

(** The key of field 1 of the struct that [g] returns exists, the key of a
    field 2 does not, nor does a key of [g] without an index; the key of an
    integer value takes no index; there is no key of a floating-point value
    nor of the null pointer. *)
Example LayoutTypePtr_examples :
  LayoutTypePtr_new Example.irModule 10%N 1%N = Some (mkLayoutTypePtr 10%N 1%N)
  ∧ LayoutTypePtr_new Example.irModule 10%N 2%N = None
  ∧ LayoutTypePtr_of Example.irModule 10%N = None
  ∧ LayoutTypePtr_of Example.irModule 20%N = Some (mkLayoutTypePtr 20%N UINT_MAX)
  ∧ LayoutTypePtr_new Example.irModule 20%N 0%N = None
  ∧ LayoutTypePtr_of Example.irModule 30%N = None
  ∧ LayoutTypePtr_of Example.irModule nullptr = None.
Proof. repeat split; reflexivity. Qed.

(** ** The claims on the statement builder *)

Section builder_facts.
Import IR2AST.
Context `{ASTContext} `{IRASTTypeTranslation} `{LLVMBuild}.

(** A cast of an integer expression to an integer type. *)
Lemma createCast_integral LHSQualTy RHS :
  isIntegerType LHSQualTy = true → isIntegerType (Expr_getType RHS) = true →
  createCast LHSQualTy RHS =
    Some (CStyleCastExpr LHSQualTy VK_RValue CK_IntegralCast RHS).
Proof. intros HL HR. unfold createCast. simpl. by rewrite HL, HR. Qed.

Lemma isPointerType_not_integer T : isPointerType T = true → isIntegerType T = false.
Proof. by destruct T as [|[] ?]. Qed.

(** The bound on the recursion of [createCast] is never reached: any
    larger bound gives the same result. *)
Lemma createCast_rec_depth depth LHSQualTy RHS :
  createCast_rec (S (S depth)) LHSQualTy RHS = createCast LHSQualTy RHS.
Proof.
  unfold createCast. cbn [createCast_rec].
  by rewrite getUIntPtrType_isIntegerType.
Qed.

Lemma Expr_getType_toRValue E : Expr_getType (toRValue E) = Expr_getType E.
Proof. unfold toRValue. by destruct (isLValue E). Qed.

Lemma getExprForValue_constant SB C :
  match C with
  | ConstantInt _ _ | ConstantPointerNull _ | OtherConstantData _
  | ConstantExpr _ _ _ => True
  | _ => False
  end →
  getExprForValue SB C = getLiteralFromConstant SB C.
Proof. by destruct C. Qed.
End builder_facts.

(** Claim C1, which the code departs from.  The case of [Mul] in
    [getClangBinaryOpKind] has no [break] and runs into the case of [And], so
    that the operator of every [Mul] instruction is the bitwise and. *)
Theorem getClangBinaryOpKind_Mul_gives_And Id Pred Ty Uses Static Size :
  IR2AST.getClangBinaryOpKind (mkInstructionData Id Mul Pred Ty Uses Static Size)
  = Some BO_And.
Proof. reflexivity. Qed.

(** The statement built for [%m = mul i32 %x, %y] is [x & y]. *)
Example mul_statement :
  IR2AST.buildStmt (H1 := withAssertions) Example.builder Example.m_data
    [Example.x; Example.y]
  = Some (ExprStmt (BinaryOperator Example.x_rvalue Example.y_rvalue BO_And
                                   UnsignedIntTy VK_RValue)).
Proof. reflexivity. Qed.

(** Claim C2, as stated, fails: the statement built for
    [%c = icmp ult i32 %x, %y; ret i1 %c] returns the comparison inside a
    cast to the translated result type, [(bool)(x < y)], not the bare
    comparison. *)
Lemma icmp_ult_result_is_cast :
  ∃ SB,
    IR2AST.createAST (H1 := withAssertions) Example.builder
      [IR2AST.mkBasicBlock 0 [Example.c; Example.ret_c]] = Some SB
    ∧ IR2AST.InstrStmts SB !! 2%N =
        Some (ReturnStmt (Some
          (CStyleCastExpr (unqualified (BuiltinType Bool)) VK_RValue CK_IntegralCast
             (ParenExpr (BinaryOperator Example.x_rvalue Example.y_rvalue BO_LT
                                        UnsignedIntTy VK_RValue)))))
    ∧ IR2AST.InstrStmts SB !! 2%N ≠
        Some (ReturnStmt (Some
          (ParenExpr (BinaryOperator Example.x_rvalue Example.y_rvalue BO_LT
                                     UnsignedIntTy VK_RValue)))).
Proof.
  eexists. split; [vm_compute; reflexivity|].
  split; [vm_compute; reflexivity|]. vm_compute. discriminate.
Qed.

(** Claim C2, amended.  For an integer comparison with an unsigned (or
    equality) predicate on two integer operands of the same width, the
    builder leaves both operands as they are but for the lvalue-to-rvalue
    conversion, with no signedness cast, compares them at the type of the
    left operand, and then parenthesizes the comparison and casts it to the
    translation of the IR result type. *)
Theorem icmp_unsigned_statement `{ASTContext} `{IRASTTypeTranslation} `{LLVMBuild}
    (SB : IR2AST.StmtBuilder) (I : InstructionData) (L R : Value) (EL ER : Expr)
    (Opc : BinaryOperatorKind) :
  getOpcode I = ICmp →
  isSigned (getPredicate I) = false →
  IR2AST.getClangBinaryOpKind I = Some Opc →
  IR2AST.getParenthesizedExprForValue SB L = Some EL →
  IR2AST.getParenthesizedExprForValue SB R = Some ER →
  isIntegerType (Expr_getType EL) = true →
  isIntegerType (Expr_getType ER) = true →
  getTypeSize (Expr_getType EL) = getTypeSize (Expr_getType ER) →
  isIntegerType (getQualType (Instruction I [L; R])) = true →
  IR2AST.buildStmt SB I [L; R] =
    Some (ExprStmt
      (CStyleCastExpr (getQualType (Instruction I [L; R])) VK_RValue CK_IntegralCast
         (ParenExpr (BinaryOperator (IR2AST.toRValue EL) (IR2AST.toRValue ER) Opc
                                    (Expr_getType EL) VK_RValue)))).
Proof.
  intros HOp HSigned HOpc HL HR HTL HTR HSize HRes.
  unfold IR2AST.buildStmt. rewrite HOp.
  unfold IR2AST.createRValueExprForBinaryOperator. simpl.
  rewrite HOpc, HL, HR. simpl.
  unfold IR2AST.getCastedBinaryOperands.
  rewrite !Expr_getType_toRValue, HTL, HTR, HSize, N.eqb_refl, HOp, HSigned. simpl.
  rewrite Expr_getType_toRValue.
  rewrite createCast_integral; [done|done|simpl; by rewrite HTL].
Qed.

Lemma icmp_unsigned_statement_witness :
  IR2AST.buildStmt (H1 := withAssertions) Example.builder Example.c_data
    [Example.x; Example.y] =
    Some (ExprStmt
      (CStyleCastExpr (getQualType Example.c) VK_RValue CK_IntegralCast
         (ParenExpr
            (BinaryOperator
               (IR2AST.toRValue
                  (DeclRefExpr (DeclParmVar (mkParmVarDecl "x" UnsignedIntTy))
                               UnsignedIntTy VK_LValue))
               (IR2AST.toRValue
                  (DeclRefExpr (DeclParmVar (mkParmVarDecl "y" UnsignedIntTy))
                               UnsignedIntTy VK_LValue))
               BO_LT UnsignedIntTy VK_RValue)))).
Proof.
  apply (icmp_unsigned_statement (H1 := withAssertions) Example.builder
           Example.c_data Example.x Example.y); reflexivity.
Defined.

(** Claim C4, as stated, fails: when LLVM is built with its assertions,
    reading a 128-bit constant that does not fit in 64 bits as a 64-bit value
    trips an assertion, and no literal is emitted. *)
Lemma i128_literal_wide_value_aborts :
  getQualType (ConstantInt Example.i128 (2 ^ 64)) = UnsignedInt128Ty
  ∧ IR2AST.getLiteralFromConstant (H1 := withAssertions) Example.builder
      (ConstantInt Example.i128 (2 ^ 64)) = None
  ∧ IR2AST.getLiteralFromConstant (H1 := withAssertions) Example.builder
      (ConstantInt Example.i128 (2 ^ 64))
    ≠ Some (IntegerLiteral (mkAPInt 64 ((2 ^ 64) `mod` 2 ^ 64)) UnsignedLongLongTy).
Proof. split; [reflexivity|]. split; [reflexivity|]. vm_compute. discriminate. Qed.

(** Claim C4, amended.  For a 128-bit integer constant, the literal is
    read from the 128 bits of the constant: when LLVM's assertions are
    compiled in and the bit pattern has a bit set at position 64 or above (as
    that of every negative [i128] has), reading it as a 64-bit value trips an
    assertion and no literal is emitted; in every other case the literal
    emitted is a 64-bit integer literal that holds the low 64 bits of the
    value, of type [unsigned long long] when the constant translates to the
    unsigned 128-bit type and [long long] when it translates to the signed
    one. *)
Theorem i128_literal_is_64_bits `{ASTContext} `{IRASTTypeTranslation} `{LLVMBuild}
    (SB : IR2AST.StmtBuilder) (Val : Z) (Kind : BuiltinKind) (Vol : bool)
    (HKind : Kind = UInt128 ∨ Kind = Int128)
    (HTy : getQualType (ConstantInt (IntegerTy 128) Val)
           = mkQualType (BuiltinType Kind) Vol) :
  IR2AST.getLiteralFromConstant SB (ConstantInt (IntegerTy 128) Val)
  = if LLVM_ENABLE_ASSERTIONS && (2 ^ 64 <=? Val `mod` 2 ^ 128)
    then None
    else Some (IntegerLiteral (mkAPInt 64 (Val `mod` 2 ^ 64))
                 (if decide (Kind = UInt128) then UnsignedLongLongTy else LongLongTy)).
Proof.
  assert ((Val `mod` 2 ^ 128) `mod` 2 ^ 64 = Val `mod` 2 ^ 64) as Hlow.
  { apply Z.mod_mod_divide. exists (2 ^ 64). lia. }
  assert (getZExtValue (ConstantInt_getValue (IntegerTy 128) Val)
          = if LLVM_ENABLE_ASSERTIONS && (2 ^ 64 <=? Val `mod` 2 ^ 128)
            then None else Some (Val `mod` 2 ^ 64)) as HZ.
  { unfold getZExtValue, ConstantInt_getValue. cbn [BitWidth APVal].
    change (128 <=? 64)%N with false. cbv iota.
    change (Z.of_N 128) with 128. rewrite Hlow.
    destruct LLVM_ENABLE_ASSERTIONS; [|done]. cbn [negb orb andb].
    destruct (Z.leb_spec (2 ^ 64) (Val `mod` 2 ^ 128)) as [Hge|Hlt].
    - by rewrite (proj2 (Z.ltb_ge _ _) Hge).
    - by rewrite (proj2 (Z.ltb_lt _ _) Hlt). }
  assert (APInt_new 64 (Val `mod` 2 ^ 64) false = mkAPInt 64 (Val `mod` 2 ^ 64)
          ∧ APInt_new 64 (Val `mod` 2 ^ 64) true = mkAPInt 64 (Val `mod` 2 ^ 64))
    as [HA1 HA2].
  { unfold APInt_new. simpl. by rewrite !Z.mod_mod. }
  unfold IR2AST.getLiteralFromConstant, IR2AST.getLiteralFromConstant_of.
  rewrite HTy, HZ.
  destruct (LLVM_ENABLE_ASSERTIONS && (2 ^ 64 <=? Val `mod` 2 ^ 128));
    cbn [mbind option_bind]; [done|].
  destruct HKind as [-> | ->]; simpl; by rewrite ?HA1, ?HA2.
Qed.

Lemma i128_literal_is_64_bits_witness :
  IR2AST.getLiteralFromConstant (H1 := withAssertions) Example.builder
    (ConstantInt (IntegerTy 128) (-1))
  = (if @LLVM_ENABLE_ASSERTIONS withAssertions
        && (2 ^ 64 <=? (-1) `mod` 2 ^ 128)
     then None
     else Some (IntegerLiteral (mkAPInt 64 ((-1) `mod` 2 ^ 64))
                  (if decide (UInt128 = UInt128)
                   then UnsignedLongLongTy else LongLongTy)))
  ∧ IR2AST.getLiteralFromConstant (H1 := withoutAssertions) Example.builder
      (ConstantInt (IntegerTy 128) (2 ^ 64 + 5))
    = (if @LLVM_ENABLE_ASSERTIONS withoutAssertions
          && (2 ^ 64 <=? (2 ^ 64 + 5) `mod` 2 ^ 128)
       then None
       else Some (IntegerLiteral (mkAPInt 64 ((2 ^ 64 + 5) `mod` 2 ^ 64))
                    (if decide (UInt128 = UInt128)
                     then UnsignedLongLongTy else LongLongTy))).
Proof.
  split.
  - apply (i128_literal_is_64_bits (H1 := withAssertions) Example.builder
             (-1) UInt128 false).
    + left. reflexivity.
    + reflexivity.
  - apply (i128_literal_is_64_bits (H1 := withoutAssertions) Example.builder
             (2 ^ 64 + 5) UInt128 false).
    + left. reflexivity.
    + reflexivity.
Defined.

(** The constant [i128 -1] has all its 128 bits set: with LLVM's assertions
    compiled in it has no literal, and without them its literal is the 64-bit
    pattern of ones; the constant [i128 5] has the literal [5] either way. *)
Example i128_literal_examples :
  IR2AST.getLiteralFromConstant (H1 := withAssertions) Example.builder
    (ConstantInt (IntegerTy 128) (-1)) = None
  ∧ IR2AST.getLiteralFromConstant (H1 := withoutAssertions) Example.builder
      (ConstantInt (IntegerTy 128) (-1))
    = Some (IntegerLiteral (mkAPInt 64 (2 ^ 64 - 1)) UnsignedLongLongTy)
  ∧ IR2AST.getLiteralFromConstant (H1 := withAssertions) Example.builder
      (ConstantInt (IntegerTy 128) 5)
    = Some (IntegerLiteral (mkAPInt 64 5) UnsignedLongLongTy).
Proof. repeat split; vm_compute; reflexivity. Qed.

(** The expression of an [inttoptr] instruction that has no statement yet
    follows the same rule as [createCast]. *)
Lemma inttoptr_instruction_expression `{ASTContext} `{IRASTTypeTranslation}
    `{LLVMBuild} (SB : IR2AST.StmtBuilder) (E : Expr) (I : InstructionData)
    (Op0 : Value) :
  getOpcode I = IntToPtr →
  IR2AST.VarDecls SB !! InstructionId I = None →
  IR2AST.InstrStmts SB !! InstructionId I = None →
  isIntegerTy (getType Op0) = true → isPointerTy (InstructionTy I) = true →
  isPointerType (getQualTypeOfType (InstructionTy I)) = true →
  IR2AST.getParenthesizedExprForValue SB Op0 = Some E →
  isIntegerType (Expr_getType E) = true →
  IR2AST.getExprForValue SB (Instruction I [Op0]) =
    IR2AST.createCast (getQualTypeOfType (InstructionTy I)) E.
Proof.
  intros HOp HVar HStmt HSrc HDst HPtr HOp0 HInt.
  pose proof (isPointerType_not_integer _ HPtr) as HNotInt.
  unfold IR2AST.createCast at 1. cbn [IR2AST.createCast_rec].
  rewrite HNotInt, HPtr, HInt, getUIntPtrType_isIntegerType.
  cbn [IR2AST.getExprForValue]. rewrite HVar, HStmt, HOp. cbn [IR2AST.isa_CastInst].
  unfold IR2AST.getParenthesizedExprForValue in HOp0. rewrite HOp0.
  cbn [mbind option_bind].
  assert (LLVMType_eqb (getType Op0) (InstructionTy I) = false) as ->.
  { destruct (getType Op0), (InstructionTy I); try done. }
  assert (isPointerTy (getType Op0) = false) as HSrc'
    by (by destruct (getType Op0)).
  unfold isIntOrPtrTy. rewrite HSrc, HDst, HSrc', HPtr, orb_true_r. simpl.
  destruct (revng_assert _); simpl; [|done].
  destruct (_ <? _)%N; [|done].
  by rewrite createCast_integral by (done || apply getUIntPtrType_isIntegerType).
Qed.

(** Claim C9.  [createCast] of an integer-typed expression to a pointer type
    fails an assertion when the integer is wider than the pointer; when it is
    narrower, the expression is first cast to [uintptr_t] and that cast is
    cast to the pointer type; when the widths agree it is cast to the pointer
    type directly. *)
Theorem integer_to_pointer_cast `{ASTContext} (PtrTy : QualType) (E : Expr) :
  isPointerType PtrTy = true →
  isIntegerType (Expr_getType E) = true →
  IR2AST.createCast PtrTy E =
    if (getTypeSize PtrTy <? getTypeSize (Expr_getType E))%N then None
    else if (getTypeSize (Expr_getType E) <? getTypeSize PtrTy)%N then
      Some (CStyleCastExpr PtrTy VK_RValue CK_IntegralToPointer
              (CStyleCastExpr getUIntPtrType VK_RValue CK_IntegralCast E))
    else Some (CStyleCastExpr PtrTy VK_RValue CK_IntegralToPointer E).
Proof.
  intros HPtr HInt.
  pose proof (isPointerType_not_integer _ HPtr) as HNotInt.
  assert (revng_assert (getTypeSize (Expr_getType E) <=? getTypeSize PtrTy)%N
          = if (getTypeSize PtrTy <? getTypeSize (Expr_getType E))%N
            then None else Some ()) as HAssert.
  { rewrite N.ltb_antisym. by destruct (_ <=? _)%N. }
  unfold IR2AST.createCast. cbn [IR2AST.createCast_rec].
  rewrite HNotInt, HPtr, HInt, HAssert.
  destruct (getTypeSize PtrTy <? getTypeSize (Expr_getType E))%N; [done|].
  cbn [mbind option_bind].
  destruct (getTypeSize (Expr_getType E) <? getTypeSize PtrTy)%N; [|done].
  by rewrite getUIntPtrType_isIntegerType.
Qed.

Lemma integer_to_pointer_cast_witness :
  let PtrTy := getPointerType (unqualified (BuiltinType UChar)) in
  let E := DeclRefExpr (DeclParmVar (mkParmVarDecl "x" UnsignedIntTy))
                       UnsignedIntTy VK_LValue in
  IR2AST.createCast PtrTy E =
    if (getTypeSize PtrTy <? getTypeSize (Expr_getType E))%N then None
    else if (getTypeSize (Expr_getType E) <? getTypeSize PtrTy)%N then
      Some (CStyleCastExpr PtrTy VK_RValue CK_IntegralToPointer
              (CStyleCastExpr getUIntPtrType VK_RValue CK_IntegralCast E))
    else Some (CStyleCastExpr PtrTy VK_RValue CK_IntegralToPointer E).
Proof.
  apply (integer_to_pointer_cast
           (getPointerType (unqualified (BuiltinType UChar)))
           (DeclRefExpr (DeclParmVar (mkParmVarDecl "x" UnsignedIntTy))
                        UnsignedIntTy VK_LValue)); reflexivity.
Defined.

(** A cast from a 128-bit integer to a pointer trips the assertion. *)
Example wide_integer_to_pointer_aborts :
  IR2AST.createCast (getPointerType (unqualified (BuiltinType UChar)))
    (IntegerLiteral (mkAPInt 64 0) UnsignedInt128Ty) = None.
Proof. reflexivity. Qed.

(** Claim C10, as stated, fails: the operand of the cast is taken for a
    constant integer through [cast<ConstantInt>], which checks nothing where
    LLVM's assertions are compiled out.  There [ptrtoint (i64* @G to i64)] is
    no failure: its expression is the reference to the global [G]. *)
Lemma constant_cast_of_global_is_no_failure :
  let G := mkVarDecl "G" (unqualified (BuiltinType ULong)) in
  let SB := IR2AST.mkStmtBuilder Example.f [Example.f] ∅ []
              {[1%N := Example.fDecl]} {[3%N := G]} ∅ ∅ ∅ ∅ 0 in
  IR2AST.getExprForValue (H1 := withoutAssertions) SB
    (ConstantExpr PtrToInt Example.i64 [GlobalVariable 3 Example.i64])
  = Some (DeclRefExpr (DeclVar G) (unqualified (BuiltinType ULong)) VK_LValue)
  ∧ IR2AST.getExprForValue (H1 := withoutAssertions) SB
      (ConstantExpr PtrToInt Example.i64 [GlobalVariable 3 Example.i64])
    ≠ None.
Proof. split; [reflexivity|]. vm_compute. discriminate. Qed.

(** Claim C10, amended.  For a constant expression of one of the supported
    cast kinds whose operand is a constant integer, the expression factory
    returns the expression of the operand as it is, with no cast node around
    it: for an operand of at most 64 bits that translates to an [int],
    [long] or [long long] type, signed or unsigned, that is the integer
    literal of the value of the operand, of the translated type of the
    operand.  A constant expression of any other kind fails.  With an operand
    that is no constant integer the factory fails where LLVM's assertions are
    compiled in, and returns the expression of that operand where they are
    not. *)
Theorem constant_cast_expression `{ASTContext} `{IRASTTypeTranslation} `{LLVMBuild}
    (SB : IR2AST.StmtBuilder) (Op : Opcode) (Ty : LLVMType) (w : N) (Val : Z)
    (Kind : BuiltinKind) (Vol : bool) (Rest : list Value)
    (HOp : Op ∈ [Trunc; ZExt; SExt; IntToPtr; PtrToInt; BitCast])
    (Hw : (w ≤ 64)%N)
    (HKind : Kind ∈ [UInt; ULong; ULongLong; Int; Long; LongLong])
    (HTy : getQualType (ConstantInt (IntegerTy w) Val)
           = mkQualType (BuiltinType Kind) Vol) :
  let LiteralTy := mkQualType (BuiltinType Kind) Vol in
  IR2AST.getExprForValue SB (ConstantExpr Op Ty (ConstantInt (IntegerTy w) Val :: Rest))
  = Some (IntegerLiteral
            (APInt_new (getIntWidth LiteralTy) (Val `mod` 2 ^ Z.of_N w)
                       (negb (isUnsignedIntegerKind Kind)))
            LiteralTy)
  ∧ (∀ Ty0 Val0,
       IR2AST.getExprForValue SB (ConstantExpr Op Ty (ConstantInt Ty0 Val0 :: Rest))
       = IR2AST.getLiteralFromConstant SB (ConstantInt Ty0 Val0))
  ∧ (∀ Op' Operands,
       IR2AST.getLiteralFromConstant SB (ConstantExpr Op' Ty Operands)
       = match Operands with
         | Op0 :: _ =>
             if bool_decide (Op' ∈ [Trunc; ZExt; SExt; IntToPtr; PtrToInt; BitCast])
                && (isa_ConstantInt Op0 || negb LLVM_ENABLE_ASSERTIONS)
             then IR2AST.getExprForValue SB Op0
             else None
         | [] => None
         end).
Proof.
  intros LiteralTy.
  assert (∀ Op' Operands,
            IR2AST.getLiteralFromConstant SB (ConstantExpr Op' Ty Operands)
            = match Operands with
              | Op0 :: _ =>
                  if bool_decide
                       (Op' ∈ [Trunc; ZExt; SExt; IntToPtr; PtrToInt; BitCast])
                     && (isa_ConstantInt Op0 || negb LLVM_ENABLE_ASSERTIONS)
                  then IR2AST.getExprForValue SB Op0
                  else None
              | [] => None
              end) as Hcast.
  { intros Op' [|Op0 Operands];
      unfold IR2AST.getLiteralFromConstant, IR2AST.getLiteralFromConstant_of,
        llvm_cast_assert, revng_assert.
    - by destruct Op'.
    - destruct Op'; try done;
        destruct (isa_ConstantInt Op0), LLVM_ENABLE_ASSERTIONS; done. }
  assert (∀ Ty0 Val0,
            IR2AST.getExprForValue SB
              (ConstantExpr Op Ty (ConstantInt Ty0 Val0 :: Rest))
            = IR2AST.getLiteralFromConstant SB (ConstantInt Ty0 Val0)) as Hint.
  { intros Ty0 Val0.
    change (IR2AST.getExprForValue SB
              (ConstantExpr Op Ty (ConstantInt Ty0 Val0 :: Rest)))
      with (IR2AST.getLiteralFromConstant SB
              (ConstantExpr Op Ty (ConstantInt Ty0 Val0 :: Rest))).
    rewrite Hcast. cbn [isa_ConstantInt orb].
    by rewrite (bool_decide_eq_true_2 _ HOp). }
  split; [|done].
  rewrite Hint.
  unfold IR2AST.getLiteralFromConstant, IR2AST.getLiteralFromConstant_of.
  rewrite HTy. unfold getZExtValue, ConstantInt_getValue. cbn [BitWidth APVal].
  rewrite (proj2 (N.leb_le _ _) Hw). cbn [mbind option_bind]. fold LiteralTy.
  repeat (apply elem_of_cons in HKind as [->|HKind]); try done.
  by apply elem_of_nil in HKind.
Qed.

Lemma constant_cast_expression_witness :
  let LiteralTy := mkQualType (BuiltinType ULong) false in
  IR2AST.getExprForValue (H1 := withAssertions) Example.builder
    (ConstantExpr IntToPtr (PointerTy (IntegerTy 8))
       (ConstantInt (IntegerTy 64) 4096 :: []))
  = Some (IntegerLiteral
            (APInt_new (getIntWidth LiteralTy) (4096 `mod` 2 ^ Z.of_N 64)
                       (negb (isUnsignedIntegerKind ULong)))
            LiteralTy)
  ∧ (∀ Ty0 Val0,
       IR2AST.getExprForValue (H1 := withAssertions) Example.builder
         (ConstantExpr IntToPtr (PointerTy (IntegerTy 8)) (ConstantInt Ty0 Val0 :: []))
       = IR2AST.getLiteralFromConstant (H1 := withAssertions) Example.builder
           (ConstantInt Ty0 Val0))
  ∧ (∀ Op' Operands,
       IR2AST.getLiteralFromConstant (H1 := withAssertions) Example.builder
         (ConstantExpr Op' (PointerTy (IntegerTy 8)) Operands)
       = match Operands with
         | Op0 :: _ =>
             if bool_decide (Op' ∈ [Trunc; ZExt; SExt; IntToPtr; PtrToInt; BitCast])
                && (isa_ConstantInt Op0 || negb (@LLVM_ENABLE_ASSERTIONS withAssertions))
             then IR2AST.getExprForValue (H1 := withAssertions) Example.builder Op0
             else None
         | [] => None
         end).
Proof.
  apply (constant_cast_expression (H1 := withAssertions) Example.builder IntToPtr
           (PointerTy (IntegerTy 8)) 64 4096 ULong false []).
  - vm_compute. set_solver.
  - vm_compute. discriminate.
  - vm_compute. set_solver.
  - reflexivity.
Defined.

(** [inttoptr (i64 4096)] is the literal [4096], and with LLVM's
    assertions compiled in the cast of a global address fails. *)
Example constant_cast_examples :
  IR2AST.getExprForValue (H1 := withAssertions) Example.builder
    (ConstantExpr IntToPtr (PointerTy (IntegerTy 8)) [ConstantInt Example.i64 4096])
  = Some (IntegerLiteral (mkAPInt 64 4096) (unqualified (BuiltinType ULong)))
  ∧ IR2AST.getExprForValue (H1 := withAssertions) Example.builder
      (ConstantExpr PtrToInt Example.i64 [GlobalVariable 3 Example.i64]) = None.
Proof. split; reflexivity. Qed.

(** * Further properties of the type-system graph *)

Lemma lexicographical_compare_asym {A : Type} (less : A → A → bool) a b :
  (∀ x, less x x = false) →
  (∀ x y z, less x y = true → less y z = true → less x z = true) →
  (∀ x y, less x y = false → less y x = false → x = y) →
  lexicographical_compare less a b = true → lexicographical_compare less b a = false.
Proof.
  intros Hirr Htrans Htot Hab.
  destruct (lexicographical_compare less b a) eqn:Hba; [|done].
  pose proof (lexicographical_compare_trans less Htrans Htot _ _ _ Hab Hba) as Haa.
  by rewrite (lexicographical_compare_irrefl less Hirr) in Haa.
Qed.

Lemma OffsetExpression_cmp_antisym a b :
  OffsetExpression_cmp b a = CompOpp (OffsetExpression_cmp a b).
Proof.
  unfold OffsetExpression_cmp. rewrite (Z.compare_antisym (Offset a) (Offset b)).
  destruct (Offset a ?= Offset b); simpl; try done.
  destruct (lexicographical_compare Z.ltb (Strides a) (Strides b)) eqn:H1.
  { by rewrite (lexicographical_compare_asym Z.ltb _ _ Z.ltb_irrefl Z_ltb_trans
                  Z_ltb_total H1). }
  destruct (lexicographical_compare Z.ltb (Strides b) (Strides a)) eqn:H2; [done|].
  destruct (lexicographical_compare optional_less (TripCounts a) (TripCounts b)) eqn:H3.
  { by rewrite (lexicographical_compare_asym optional_less _ _ optional_less_irrefl
                  optional_less_trans optional_less_total H3). }
  by destruct (lexicographical_compare optional_less (TripCounts b) (TripCounts a)).
Qed.

(** X1.  [LayoutTypePtr::operator<=>] is a total order on keys: it answers
    [equal] exactly on two keys with the same value pointer and the same
    index, swapping the operands mirrors the answer, and [less] is
    transitive; [operator==] and [operator<] are its [equal] and [less]. *)
Theorem LayoutTypePtr_cmp_total_order (a b c : LayoutTypePtr) :
  (LayoutTypePtr_cmp a b = Eq ↔ a = b)
  ∧ LayoutTypePtr_cmp b a = CompOpp (LayoutTypePtr_cmp a b)
  ∧ (LayoutTypePtr_cmp a b = Lt → LayoutTypePtr_cmp b c = Lt →
     LayoutTypePtr_cmp a c = Lt)
  ∧ (LayoutTypePtr_eq a b = true ↔ a = b)
  ∧ (LayoutTypePtr_less a b = true ↔ LayoutTypePtr_cmp a b = Lt).
Proof.
  assert (LayoutTypePtr_cmp a b = Eq ↔ a = b) as HEq.
  { unfold LayoutTypePtr_cmp. destruct a as [va ia], b as [vb ib]; simpl. split.
    - destruct (va ?= vb)%N eqn:Hv; try done. apply N.compare_eq in Hv as ->.
      intros ->%N.compare_eq. done.
    - intros [= -> ->]. by rewrite !N.compare_refl. }
  split; [done|]. split; [|split; [|split]].
  - unfold LayoutTypePtr_cmp. rewrite (N.compare_antisym (V a) (V b)).
    destruct (V a ?= V b)%N; simpl; try done. apply N.compare_antisym.
  - unfold LayoutTypePtr_cmp.
    destruct a as [va ia], b as [vb ib], c as [vc ic]; simpl.
    destruct (va ?= vb)%N eqn:Hab; try done;
      destruct (vb ?= vc)%N eqn:Hbc; try done; intros H1 H2;
      repeat match goal with
             | H : (_ ?= _)%N = Eq |- _ => apply -> N.compare_eq_iff in H
             | H : (_ ?= _)%N = Lt |- _ => apply -> N.compare_lt_iff in H
             end; subst.
    + rewrite N.compare_refl. apply N.compare_lt_iff. lia.
    + by rewrite (proj2 (N.compare_lt_iff _ _)) by lia.
    + by rewrite (proj2 (N.compare_lt_iff _ _)) by lia.
    + by rewrite (proj2 (N.compare_lt_iff _ _)) by lia.
  - unfold LayoutTypePtr_eq. rewrite <- HEq. by destruct (LayoutTypePtr_cmp a b).
  - unfold LayoutTypePtr_less. by destruct (LayoutTypePtr_cmp a b).
Qed.

(** X2.  [OffsetExpression::operator<=>] is a total order: it answers [equal]
    exactly on structurally equal expressions (same offset, same strides, same
    trip counts, in the same order), swapping the operands mirrors the answer,
    and [less] is transitive. *)
Theorem OffsetExpression_cmp_total_order (a b c : OffsetExpression) :
  (OffsetExpression_cmp a b = Eq ↔ a = b)
  ∧ OffsetExpression_cmp b a = CompOpp (OffsetExpression_cmp a b)
  ∧ (OffsetExpression_cmp a b = Lt → OffsetExpression_cmp b c = Lt →
     OffsetExpression_cmp a c = Lt).
Proof.
  split; [apply OffsetExpression_cmp_eq|].
  split; [apply OffsetExpression_cmp_antisym|apply OffsetExpression_cmp_Lt_trans].
Qed.

(** Two offset expressions that describe the same offsets with their
    dimensions in a different order are not equal for [<=>]. *)
Example OffsetExpression_cmp_decomposition :
  OffsetExpression_cmp
    {| TripCounts := [Some 2; Some 3]; Strides := [12; 4]; Offset := 0 |}
    {| TripCounts := [Some 3; Some 2]; Strides := [4; 12]; Offset := 0 |} = Gt.
Proof. reflexivity. Qed.

(** X3.  [TypeLinkTag::operator<=>] is a total order that compares the kind
    first: two tags are [equal] exactly when they have the same kind and the
    same offset expression, swapping the operands mirrors the answer, [less]
    is transitive, and a tag of a kind declared earlier in [LinkKind] is below
    every tag of a later kind: the inheritance tag is below the equality tag,
    which is below every instance tag. *)
Theorem TypeLinkTag_cmp_total_order (a b c : TypeLinkTag) (O : OffsetExpression) :
  (TypeLinkTag_cmp a b = Eq ↔ a = b)
  ∧ TypeLinkTag_cmp b a = CompOpp (TypeLinkTag_cmp a b)
  ∧ (TypeLinkTag_cmp a b = Lt → TypeLinkTag_cmp b c = Lt → TypeLinkTag_cmp a c = Lt)
  ∧ (LinkKind_value (Kind a) < LinkKind_value (Kind b) → TypeLinkTag_cmp a b = Lt)
  ∧ TypeLinkTag_less inheritanceTag equalityTag = true
  ∧ TypeLinkTag_less equalityTag (instanceTag O) = true.
Proof.
  assert (∀ x y, TypeLinkTag_cmp y x = CompOpp (TypeLinkTag_cmp x y)) as Hanti.
  { intros x y. unfold TypeLinkTag_cmp.
    rewrite (Z.compare_antisym (LinkKind_value (Kind x)) (LinkKind_value (Kind y))).
    destruct (LinkKind_value (Kind x) ?= LinkKind_value (Kind y)); simpl; try done.
    apply OffsetExpression_cmp_antisym. }
  assert (∀ x y, TypeLinkTag_cmp x y = Lt ↔ TypeLinkTag_less x y = true) as Hless.
  { intros x y. unfold TypeLinkTag_less. by destruct (TypeLinkTag_cmp x y). }
  split; [|split; [apply Hanti|split; [|split; [|done]]]].
  - split.
    + intros HEq. apply TypeLinkTag_less_total.
      * unfold TypeLinkTag_less. by rewrite HEq.
      * unfold TypeLinkTag_less. by rewrite Hanti, HEq.
    + intros <-. pose proof (TypeLinkTag_less_irrefl a) as Hirr.
      unfold TypeLinkTag_less in Hirr. pose proof (Hanti a a) as Ha.
      destruct (TypeLinkTag_cmp a a); done.
  - rewrite !Hless. apply TypeLinkTag_less_trans.
  - intros Hlt. unfold TypeLinkTag_cmp. by apply Z.compare_lt_iff in Hlt as ->.
Qed.

Section more_link_facts.
Context `{TagAllocator}.

Lemma grewFrom_refl TS : grewFrom TS TS.
Proof. unfold grewFrom. naive_solver. Qed.

Lemma grewFrom_trans TS1 TS2 TS3 :
  grewFrom TS1 TS2 → grewFrom TS2 TS3 → grewFrom TS1 TS3.
Proof.
  unfold grewFrom.
  intros (? & ? & ? & ? & HID1 & HL1 & ? & ? & ?) (? & ? & ? & ? & HID2 & HL2 & ? & ? & ?).
  repeat split; try congruence; try naive_solver.
Qed.

Lemma addLink_grewFrom Src Tgt Tag TS r TS' :
  addLink Src Tgt Tag TS = Some (r, TS') → grewFrom TS TS'.
Proof.
  intros Hadd.
  destruct (addLink_cases _ _ _ _ _ _ Hadd)
    as [(_ & _ & ->)|(HS & HT & HST & ns & nt & HnS & HnT)];
    [apply grewFrom_refl|].
  rewrite (addLink_unfold _ _ _ _ _ _ HS HT HST HnS HnT) in Hadd.
  cbv zeta in Hadd. injection Hadd as Hr HTS.
  set (T := (StdSet.insert TagCell_less (Tag, newTagCell (LinkTags TS))
               (LinkTags TS)).1.1.2) in *.
  assert (Layouts TS' =
            <[Tgt := set_Predecessors
                       (StdSet.insert Link_less (Src, T) (Predecessors nt)).1.2 nt]>
              (<[Src := set_Successors
                          (StdSet.insert Link_less (Tgt, T) (Successors ns)).1.2 ns]>
                 (Layouts TS))) as HL by (by rewrite <- HTS).
  destruct (links_after_insert TS TS' Src Tgt T ns nt HST HnS HnT HL)
    as (Hsucc & Hpred & _).
  assert (LinkTags TS' =
            (StdSet.insert TagCell_less (Tag, newTagCell (LinkTags TS))
               (LinkTags TS)).1.2) as HTags by (by rewrite <- HTS).
  unfold grewFrom.
  do 4 (split; [by rewrite <- HTS|]).
  assert (∀ x (f : LayoutTypeSystemNode → N),
            (∀ n S, f (set_Successors S n) = f n) →
            (∀ n P, f (set_Predecessors P n) = f n) →
            f <$> Layouts TS' !! x = f <$> Layouts TS !! x) as Hfield.
  { intros x f Hf1 Hf2. rewrite HL.
    destruct (decide (x = Tgt)) as [->|HxT].
    { rewrite lookup_insert_eq, HnT. simpl. by rewrite Hf2. }
    rewrite lookup_insert_ne by done.
    destruct (decide (x = Src)) as [->|HxS].
    { rewrite lookup_insert_eq, HnS. simpl. by rewrite Hf1. }
    by rewrite lookup_insert_ne. }
  split; [intros x; by apply Hfield|].
  split.
  { intros x. rewrite HL.
    destruct (decide (x = Tgt)) as [->|HxT].
    { by rewrite lookup_insert_eq, HnT. }
    rewrite lookup_insert_ne by done.
    destruct (decide (x = Src)) as [->|HxS].
    { by rewrite lookup_insert_eq, HnS. }
    by rewrite lookup_insert_ne. }
  split; [intros x lk Hl; apply Hsucc; by left|].
  split; [intros x lk Hl; apply Hpred; by left|].
  intros c Hc. rewrite HTags.
  destruct (StdSet.insert TagCell_less (Tag, newTagCell (LinkTags TS)) (LinkTags TS))
    as [[it tags'] []] eqn:Hins; simpl.
  - apply insert_inserted in Hins as [_ ->]. apply elem_of_cons. by right.
  - by apply insert_not_inserted in Hins as (-> & _).
Qed.

Lemma runLinkCall_grewFrom C TS r TS' :
  runLinkCall C TS = Some (r, TS') → grewFrom TS TS'.
Proof.
  intros Hrun. destruct C as [Src Tgt|Src Tgt|Src Tgt OE]; simpl in Hrun;
    [|by eapply addLink_grewFrom..].
  unfold addEqualityLink in Hrun.
  destruct (addLink Src Tgt equalityTag TS) as [[r1 TSf]|] eqn:Heq1; [|done].
  simpl in Hrun.
  destruct (addLink Tgt Src equalityTag TSf) as [[r2 TS1]|] eqn:Heq2; [|done].
  simpl in Hrun.
  destruct (bool_decide (r1 = r2)); [|done]. simpl in Hrun.
  inversion Hrun; subst.
  eapply grewFrom_trans; by eapply addLink_grewFrom.
Qed.
End more_link_facts.

Lemma tagAt_Some TS Tag T : tagAt TS T = Some Tag → (Tag, T) ∈ LinkTags TS.
Proof.
  unfold tagAt. intros Hfind.
  destruct (find _ _) as [[Tag' T']|] eqn:Hf; [|done].
  simpl in Hfind. inversion Hfind; subst Tag'.
  apply find_some in Hf as [Hin HT]. simpl in HT. apply N.eqb_eq in HT. subst T'.
  by apply list_elem_of_In.
Qed.

(** The handle of a link of a consistent graph points to an interned
    tag. *)
Lemma consistent_link_tag TS s t T :
  consistent TS → hasLink TS Successors s (t, T) → ∃ Tag, (Tag, T) ∈ LinkTags TS.
Proof.
  intros Hc Hl. apply (consistent_handles _ Hc) in Hl.
  apply list_elem_of_fmap in Hl as ([Tag T'] & -> & Hin). by exists Tag.
Qed.

(** The iterator of a filter that answers on every link of the set stops
    at the first link accepted. *)
Lemma filtered_begin_defined Pred Ns :
  (∀ lk, lk ∈ Ns → is_Some (Pred lk)) →
  ∃ It, filtered_begin Pred Ns = Some It
    ∧ (It = None ↔ ∀ lk, lk ∈ Ns → Pred lk = Some false).
Proof.
  induction Ns as [|Lk Ns IH]; intros Hdef; simpl.
  - exists None. split; [done|]. split; [|done]. intros _ lk Hin.
    by apply elem_of_nil in Hin.
  - destruct (Hdef Lk) as [[] HLk]; [apply elem_of_cons; by left|..];
      rewrite HLk; simpl.
    + exists (Some Lk). split; [done|]. split; [done|].
      intros Hall. specialize (Hall Lk). rewrite HLk in Hall.
      assert (Some true = Some false) as Habs; [|done].
      apply Hall, elem_of_cons. by left.
    + destruct IH as (It & -> & HIt).
      { intros lk Hin. apply Hdef, elem_of_cons. by right. }
      exists It. split; [done|]. rewrite HIt. split.
      * intros Hall lk [->|Hin]%elem_of_cons; [done|by apply Hall].
      * intros Hall lk Hin. apply Hall, elem_of_cons. by right.
Qed.

(** X4.  A call of [addEqualityLink], [addInheritanceLink] or
    [addInstanceLink] on two distinct non-null pointers of which one points
    to no node of the graph trips the assertion of [addLink]: there is no
    result, and no link is inserted. *)
Theorem link_to_foreign_node_aborts `{TagAllocator} TS Src Tgt OE
    (HSrc : Src ≠ nullptr) (HTgt : Tgt ≠ nullptr) (HST : Src ≠ Tgt)
    (Hforeign : Layouts TS !! Src = None ∨ Layouts TS !! Tgt = None) :
  addEqualityLink Src Tgt TS = None
  ∧ addInheritanceLink Src Tgt TS = None
  ∧ addInstanceLink Src Tgt OE TS = None.
Proof.
  unfold addEqualityLink, addInheritanceLink, addInstanceLink.
  by rewrite !addLink_absent.
Qed.

Lemma link_to_foreign_node_aborts_witness :
  addEqualityLink 300%N 999%N threeNodes = None
  ∧ addInheritanceLink 300%N 999%N threeNodes = None
  ∧ addInstanceLink 300%N 999%N OffsetExpression_default threeNodes = None.
Proof.
  apply (link_to_foreign_node_aborts threeNodes 300%N 999%N OffsetExpression_default).
  - done.
  - done.
  - done.
  - right. reflexivity.
Defined.

(** X5.  Every graph reached from a well-formed graph by calls of
    [addEqualityLink], [addInheritanceLink] and [addInstanceLink] that all
    return keeps the structure of a type-system graph: each successor link has
    its mirror among the predecessors of its target and the other way round; no
    node is linked to itself; every link leads to a node of the graph, never to
    the null pointer, and its handle points to an interned tag; and an equality
    link is there in both directions, with one handle. *)
Theorem link_calls_keep_graph_structure `{TagAllocator} Cs TS TS'
    (Hwf : wellFormed TS) (Hrun : runLinkCalls Cs TS = Some TS') :
  (∀ s t T, hasLink TS' Successors s (t, T) ↔ hasLink TS' Predecessors t (s, T))
  ∧ (∀ s T, ¬ hasLink TS' Successors s (s, T))
  ∧ (∀ s t T, hasLink TS' Successors s (t, T) →
       t ≠ nullptr ∧ is_Some (Layouts TS' !! t) ∧ is_Some (tagAt TS' T))
  ∧ (∀ s t T, tagAt TS' T = Some equalityTag →
       hasLink TS' Successors s (t, T) → hasLink TS' Successors t (s, T)).
Proof.
  destruct (runLinkCalls_wellFormed _ _ _ Hwf Hrun) as [Hc Hsym].
  split; [exact (consistent_mirror _ Hc)|].
  split; [exact (consistent_noloop _ Hc)|].
  split.
  - intros s t T Hl.
    assert (is_Some (Layouts TS' !! t)) as Ht.
    { apply (consistent_mirror _ Hc) in Hl as (n & Hn & _). by exists n. }
    split; [|split; [done|]].
    + intros ->. rewrite (consistent_nonnull _ Hc) in Ht. by destruct Ht.
    + destruct (consistent_link_tag _ _ _ _ Hc Hl) as [Tag HTag].
      exists Tag. apply tagAt_interned; [|done]. apply (consistent_tags _ Hc).
  - intros s t T HT. apply Hsym. by apply tagAt_Some.
Qed.

Lemma link_calls_keep_graph_structure_witness :
  ∃ TS',
    runLinkCalls [CallEqualityLink 300%N 200%N; CallInheritanceLink 200%N 100%N;
                  CallInstanceLink 100%N 300%N OffsetExpression_default]
      threeNodes = Some TS'
    ∧ (∀ s t T, hasLink TS' Successors s (t, T) ↔ hasLink TS' Predecessors t (s, T))
    ∧ (∀ s T, ¬ hasLink TS' Successors s (s, T))
    ∧ (∀ s t T, hasLink TS' Successors s (t, T) →
         t ≠ nullptr ∧ is_Some (Layouts TS' !! t) ∧ is_Some (tagAt TS' T))
    ∧ (∀ s t T, tagAt TS' T = Some equalityTag →
         hasLink TS' Successors s (t, T) → hasLink TS' Successors t (s, T)).
Proof.
  eexists. split; [vm_compute; reflexivity|].
  apply (link_calls_keep_graph_structure
           [CallEqualityLink 300%N 200%N; CallInheritanceLink 200%N 100%N;
            CallInstanceLink 100%N 300%N OffsetExpression_default] threeNodes).
  - exact threeNodes_wellFormed.
  - vm_compute. reflexivity.
Defined.

(** X6.  [addLink] on two distinct nodes of a consistent graph returns, and
    what it returns is exact: the handle points to the tag passed, the link is
    afterwards among the successors of the source and the predecessors of the
    target, [was_new] is true exactly when the link was not there before, and
    when it is false the graph is unchanged. *)
Theorem addLink_reports_new_links `{TagAllocator} TS Src Tgt Tag
    (Hc : consistent TS) (HST : Src ≠ Tgt)
    (HSrc : is_Some (Layouts TS !! Src)) (HTgt : is_Some (Layouts TS !! Tgt)) :
  ∃ T New TS',
    addLink Src Tgt Tag TS = Some ((T, New), TS')
    ∧ tagAt TS' T = Some Tag
    ∧ hasLink TS' Successors Src (Tgt, T)
    ∧ hasLink TS' Predecessors Tgt (Src, T)
    ∧ (New = true ↔ ¬ hasLink TS Successors Src (Tgt, T))
    ∧ (New = false → TS' = TS).
Proof.
  destruct HSrc as [ns HnS], HTgt as [nt HnT].
  assert (Src ≠ nullptr) as HS.
  { intros ->. by rewrite (consistent_nonnull _ Hc) in HnS. }
  assert (Tgt ≠ nullptr) as HT.
  { intros ->. by rewrite (consistent_nonnull _ Hc) in HnT. }
  destruct (addLink_spec Src Tgt Tag TS ns nt HS HT HST HnS HnT
              (consistent_tags _ Hc))
    as (T & TS' & Heq & Htags' & Hel & Hcase & HL & _).
  destruct (links_after_insert TS TS' Src Tgt T ns nt HST HnS HnT HL)
    as (Hsucc & Hpred & _).
  destruct (consistent_ordered _ Hc _ _ HnS) as [HoS _].
  destruct (consistent_ordered _ Hc _ _ HnT) as [_ HoT].
  assert (hasLink TS Successors Src (Tgt, T)
          → (Tag, T) ∈ LinkTags TS) as Hinterned.
  { intros Hl. destruct Hcase as [[Hin _]|Hfresh]; [done|].
    exfalso. apply Hfresh. by apply (consistent_handles _ Hc) in Hl. }
  destruct (decide ((Tgt, T) ∈ Successors ns)) as [Hin|Hnin].
  - assert (hasLink TS Successors Src (Tgt, T)) as Hl by (by exists ns).
    pose proof Hl as Hl'. apply (consistent_mirror _ Hc) in Hl'.
    pose proof (addLink_present Src Tgt Tag T TS HS HT HST (consistent_tags _ Hc)
                  (consistent_ordered _ Hc) (Hinterned Hl) Hl Hl') as Hsame.
    exists T, false, TS. split; [done|].
    split; [apply tagAt_interned; [apply (consistent_tags _ Hc)|by apply Hinterned]|].
    split; [done|]. split; [done|]. split; [|done].
    split; [done|]. intros Hn. by destruct Hn.
  - rewrite (Link_insert_new (Tgt, T) (Successors ns) HoS) in Heq.
    rewrite (bool_decide_eq_false_2 ((Tgt, T) ∈ Successors ns)) in Heq by done.
    simpl in Heq.
    exists T, true, TS'. split; [done|].
    split; [apply tagAt_interned; [apply Htags'|apply Hel; by left]|].
    split; [apply Hsucc; by right|]. split; [apply Hpred; by right|].
    split; [|done]. split; [|done].
    intros _ (n & Hn & Hin). rewrite HnS in Hn. inversion Hn; by subst.
Qed.

Lemma addLink_reports_new_links_witness :
  ∃ T New TS',
    addLink 300%N 100%N inheritanceTag threeNodes = Some ((T, New), TS')
    ∧ tagAt TS' T = Some inheritanceTag
    ∧ hasLink TS' Successors 300%N (100%N, T)
    ∧ hasLink TS' Predecessors 100%N (300%N, T)
    ∧ (New = true ↔ ¬ hasLink threeNodes Successors 300%N (100%N, T))
    ∧ (New = false → TS' = threeNodes).
Proof.
  apply (addLink_reports_new_links threeNodes 300%N 100%N inheritanceTag).
  - exact (proj1 threeNodes_wellFormed).
  - done.
  - eexists. reflexivity.
  - eexists. reflexivity.
Defined.

(** X7.  The link-insertion interface only adds: after any run of calls
    that return, the graph has the same module, identifier counter and key
    maps, the same nodes with the same identifiers and layouts, and every link
    and every interned tag it had before.  No hypothesis on the graph is
    needed. *)
Theorem link_calls_only_add `{TagAllocator} Cs TS TS'
    (Hrun : runLinkCalls Cs TS = Some TS') :
  grewFrom TS TS'.
Proof.
  revert TS Hrun. induction Cs as [|C Cs IH]; intros TS Hrun; simpl in Hrun.
  - inversion Hrun; subst. apply grewFrom_refl.
  - destruct (runLinkCall C TS) as [[r TS1]|] eqn:HC; [|done]. simpl in Hrun.
    eapply grewFrom_trans; [by eapply runLinkCall_grewFrom|by apply IH].
Qed.

Lemma link_calls_only_add_witness :
  ∃ TS',
    runLinkCalls [CallInstanceLink 100%N 200%N OffsetExpression_default;
                  CallEqualityLink 200%N 300%N] threeNodes = Some TS'
    ∧ grewFrom threeNodes TS'.
Proof.
  eexists. split; [vm_compute; reflexivity|].
  apply (link_calls_only_add
           [CallInstanceLink 100%N 200%N OffsetExpression_default;
            CallEqualityLink 200%N 300%N] threeNodes).
  vm_compute. reflexivity.
Defined.

(** X8.  Tags are interned: the handles that two successive insertions
    return stay valid (each still points to its tag in the final graph), and
    they are the same handle exactly when the two tags are equal, whichever
    nodes the two links join. *)
Theorem equal_tags_share_one_handle `{TagAllocator} TS A B C D Tag1 Tag2
    T1 New1 TS1 T2 New2 TS2
    (Hc : consistent TS)
    (HA : A ≠ nullptr) (HB : B ≠ nullptr) (HAB : A ≠ B)
    (HC : C ≠ nullptr) (HD : D ≠ nullptr) (HCD : C ≠ D)
    (Hfirst : addLink A B Tag1 TS = Some ((T1, New1), TS1))
    (Hsecond : addLink C D Tag2 TS1 = Some ((T2, New2), TS2)) :
  tagAt TS2 T1 = Some Tag1 ∧ tagAt TS2 T2 = Some Tag2 ∧ (T1 = T2 ↔ Tag1 = Tag2).
Proof.
  pose proof (addLink_consistent _ _ _ _ _ _ Hc Hfirst) as Hc1.
  destruct (addLink_cases _ _ _ _ _ _ Hfirst)
    as [([?|[?|?]] & _)|(_ & _ & _ & nA & nB & HnA & HnB)]; [done..|].
  destruct (addLink_cases _ _ _ _ _ _ Hsecond)
    as [([?|[?|?]] & _)|(_ & _ & _ & nC & nD & HnC & HnD)]; [done..|].
  destruct (addLink_spec A B Tag1 TS nA nB HA HB HAB HnA HnB (consistent_tags _ Hc))
    as (T1' & TS1' & Heq1 & _ & Hel1 & _).
  rewrite Hfirst in Heq1. inversion Heq1; subst T1' TS1'. clear Heq1.
  destruct (addLink_spec C D Tag2 TS1 nC nD HC HD HCD HnC HnD (consistent_tags _ Hc1))
    as (T2' & TS2' & Heq2 & [Hord2 Hnd2] & Hel2 & _).
  rewrite Hsecond in Heq2. inversion Heq2; subst T2' TS2'. clear Heq2.
  assert ((Tag1, T1) ∈ LinkTags TS2) as Hin1.
  { apply Hel2. right. apply Hel1. by left. }
  assert ((Tag2, T2) ∈ LinkTags TS2) as Hin2 by (apply Hel2; by left).
  split; [by apply tagAt_interned|]. split; [by apply tagAt_interned|].
  split.
  - intros ->. by eapply interned_tag_unique.
  - intros ->. by eapply interned_handle_unique.
Qed.

Lemma equal_tags_share_one_handle_witness :
  ∃ T1 New1 TS1 T2 New2 TS2,
    addLink 300%N 200%N inheritanceTag threeNodes = Some ((T1, New1), TS1)
    ∧ addLink 200%N 100%N inheritanceTag TS1 = Some ((T2, New2), TS2)
    ∧ tagAt TS2 T1 = Some inheritanceTag ∧ tagAt TS2 T2 = Some inheritanceTag
    ∧ (T1 = T2 ↔ inheritanceTag = inheritanceTag).
Proof.
  do 6 eexists. split; [vm_compute; reflexivity|].
  split; [vm_compute; reflexivity|].
  eapply (equal_tags_share_one_handle threeNodes 300%N 200%N 200%N 100%N).
  - exact (proj1 threeNodes_wellFormed).
  - done.
  - done.
  - done.
  - done.
  - done.
  - done.
  - vm_compute. reflexivity.
  - vm_compute. reflexivity.
Defined.

(** The filter [hasLinkKind<K>] on a link whose handle points to [Tag]. *)
Lemma hasLinkKind_interned K TS Lk Tag :
  tagAt TS Lk.2 = Some Tag →
  hasLinkKind K TS Lk = Some (bool_decide (K = LK_All ∨ getKind Tag = K)).
Proof.
  intros HTag. unfold hasLinkKind. rewrite HTag.
  destruct K; simpl; f_equal; try (symmetry; by apply bool_decide_eq_true_2; left);
    apply bool_decide_ext; naive_solver.
Qed.

Lemma consistent_tagAt TS s t T :
  consistent TS → hasLink TS Successors s (t, T) → is_Some (tagAt TS T).
Proof.
  intros Hc Hl. destruct (consistent_link_tag _ _ _ _ Hc Hl) as [Tag HTag].
  exists Tag. apply tagAt_interned; [|done]. apply (consistent_tags _ Hc).
Qed.

(** The filtered iterator over a set of links that all carry interned
    tags is at its end exactly when no link of the set is of kind [K]. *)
Lemma filtered_begin_by_kind K TS Ns :
  (∀ lk, lk ∈ Ns → is_Some (tagAt TS lk.2)) →
  ∃ It, filtered_begin (hasLinkKind K TS) Ns = Some It
    ∧ (It = None ↔
       ¬ ∃ lk Tag, lk ∈ Ns ∧ tagAt TS lk.2 = Some Tag
                   ∧ (K = LK_All ∨ getKind Tag = K)).
Proof.
  intros Htags.
  destruct (filtered_begin_defined (hasLinkKind K TS) Ns) as (It & HIt & Hnone).
  { intros lk [Tag HTag]%Htags. rewrite (hasLinkKind_interned _ _ _ _ HTag). eauto. }
  exists It. split; [done|]. rewrite Hnone. split.
  - intros Hall (lk & Tag & Hin & HTag & HK).
    specialize (Hall lk Hin). rewrite (hasLinkKind_interned _ _ _ _ HTag) in Hall.
    inversion Hall as [Hb]. by apply bool_decide_eq_false_1 in Hb.
  - intros Hno lk Hin. destruct (Htags lk Hin) as [Tag HTag].
    rewrite (hasLinkKind_interned _ _ _ _ HTag). f_equal.
    apply bool_decide_eq_false_2. intros HK. apply Hno. eauto.
Qed.

Lemma isLeaf_isRoot_spec TS K N :
  consistent TS → is_Some (Layouts TS !! N) →
  ∃ leaf root,
    isLeaf K TS N = Some leaf ∧ isRoot K TS N = Some root
    ∧ (leaf = true ↔
       ¬ ∃ t T Tag, hasLink TS Successors N (t, T) ∧ tagAt TS T = Some Tag
                    ∧ (K = LK_All ∨ getKind Tag = K))
    ∧ (root = true ↔
       ¬ ∃ s T Tag, hasLink TS Successors s (N, T) ∧ tagAt TS T = Some Tag
                    ∧ (K = LK_All ∨ getKind Tag = K)).
Proof.
  intros Hc [n Hn]. unfold isLeaf, isRoot. rewrite Hn. simpl.
  destruct (filtered_begin_by_kind K TS (Successors n)) as (ItS & -> & HS).
  { intros [t T] Hin. apply (consistent_tagAt TS N t T Hc). by exists n. }
  destruct (filtered_begin_by_kind K TS (Predecessors n)) as (ItP & -> & HP).
  { intros [s T] Hin. apply (consistent_tagAt TS s N T Hc).
    apply (consistent_mirror _ Hc). by exists n. }
  simpl. eexists _, _. split; [done|]. split; [done|].
  rewrite !bool_decide_eq_true, HS, HP. split.
  - split.
    + intros Hno (t & T & Tag & Hl & HTag & HK). apply Hno.
      exists (t, T), Tag. split; [|done]. by apply (hasLink_lookup _ _ _ _ _ Hn).
    + intros Hno ([t T] & Tag & Hin & HTag & HK). apply Hno.
      exists t, T, Tag. split; [|done]. by exists n.
  - split.
    + intros Hno (s & T & Tag & Hl & HTag & HK). apply Hno.
      exists (s, T), Tag. split; [|done].
      apply (consistent_mirror _ Hc) in Hl. by apply (hasLink_lookup _ _ _ _ _ Hn).
    + intros Hno ([s T] & Tag & Hin & HTag & HK). apply Hno.
      exists s, T, Tag. split; [|done].
      apply (consistent_mirror _ Hc). by exists n.
Qed.

(** X9.  On a node of a consistent graph [isLeaf<K>] and [isRoot<K>] return
    (the filter never reads a dangling tag handle), and they say what their
    names say: the node is a leaf exactly when it has no outgoing link of kind
    [K], and a root exactly when it has no incoming link of kind [K]; with
    [LK_All] every link counts. *)
Theorem leaf_and_root_by_link_kind TS K N
    (Hc : consistent TS) (HN : is_Some (Layouts TS !! N)) :
  ∃ leaf root,
    isLeaf K TS N = Some leaf ∧ isRoot K TS N = Some root
    ∧ (leaf = true ↔
       ¬ ∃ t T Tag, hasLink TS Successors N (t, T) ∧ tagAt TS T = Some Tag
                    ∧ (K = LK_All ∨ getKind Tag = K))
    ∧ (root = true ↔
       ¬ ∃ s T Tag, hasLink TS Successors s (N, T) ∧ tagAt TS T = Some Tag
                    ∧ (K = LK_All ∨ getKind Tag = K)).
Proof. by apply isLeaf_isRoot_spec. Qed.

Lemma leaf_and_root_by_link_kind_witness :
  ∃ leaf root,
    isLeaf LK_Inheritance threeNodes 200%N = Some leaf
    ∧ isRoot LK_Inheritance threeNodes 200%N = Some root
    ∧ (leaf = true ↔
       ¬ ∃ t T Tag, hasLink threeNodes Successors 200%N (t, T)
                    ∧ tagAt threeNodes T = Some Tag
                    ∧ (LK_Inheritance = LK_All ∨ getKind Tag = LK_Inheritance))
    ∧ (root = true ↔
       ¬ ∃ s T Tag, hasLink threeNodes Successors s (200%N, T)
                    ∧ tagAt threeNodes T = Some Tag
                    ∧ (LK_Inheritance = LK_All ∨ getKind Tag = LK_Inheritance)).
Proof.
  apply (leaf_and_root_by_link_kind threeNodes LK_Inheritance 200%N).
  - exact (proj1 threeNodes_wellFormed).
  - eexists. reflexivity.
Defined.

(** X10.  An inheritance link from [Src] to [Tgt], two distinct nodes of a
    consistent graph, makes [Src] no inheritance leaf and [Tgt] no inheritance
    root, and it leaves the instance leaves and the instance roots of the graph
    as they were. *)
Theorem inheritance_link_and_leaves `{TagAllocator} TS Src Tgt
    (Hc : consistent TS) (HST : Src ≠ Tgt)
    (HSrc : is_Some (Layouts TS !! Src)) (HTgt : is_Some (Layouts TS !! Tgt)) :
  ∃ r TS',
    addInheritanceLink Src Tgt TS = Some (r, TS')
    ∧ isInheritanceLeaf TS' Src = Some false
    ∧ isInheritanceRoot TS' Tgt = Some false
    ∧ (∀ X, isInstanceLeaf TS' X = isInstanceLeaf TS X)
    ∧ (∀ X, isInstanceRoot TS' X = isInstanceRoot TS X).
Proof.
  destruct HSrc as [ns HnS], HTgt as [nt HnT].
  assert (Src ≠ nullptr) as HS.
  { intros ->. by rewrite (consistent_nonnull _ Hc) in HnS. }
  assert (Tgt ≠ nullptr) as HT.
  { intros ->. by rewrite (consistent_nonnull _ Hc) in HnT. }
  unfold addInheritanceLink, isInheritanceLeaf, isInheritanceRoot,
    isInstanceLeaf, isInstanceRoot.
  destruct (addLink_spec Src Tgt inheritanceTag TS ns nt HS HT HST HnS HnT
              (consistent_tags _ Hc))
    as (T & TS' & Heq & Htags' & Hel & _ & HL & _).
  pose proof (addLink_consistent _ _ _ _ _ _ Hc Heq) as Hc'.
  destruct (links_after_insert TS TS' Src Tgt T ns nt HST HnS HnT HL)
    as (Hsucc & Hpred & Hdom).
  assert (tagAt TS' T = Some inheritanceTag) as HT'.
  { apply tagAt_interned; [apply Htags'|apply Hel; by left]. }
  assert (hasLink TS' Successors Src (Tgt, T)) as Hlink by (apply Hsucc; by right).
  assert (is_Some (Layouts TS' !! Src)) as HnS' by (apply Hdom; eauto).
  assert (is_Some (Layouts TS' !! Tgt)) as HnT' by (apply Hdom; eauto).
  eexists _, _. split; [exact Heq|].
  split.
  { destruct (isLeaf_isRoot_spec TS' LK_Inheritance Src Hc' HnS')
      as ([] & root & -> & _ & Hleaf & _); [|done].
    exfalso. apply (proj1 Hleaf eq_refl). exists Tgt, T, inheritanceTag. auto. }
  split.
  { destruct (isLeaf_isRoot_spec TS' LK_Inheritance Tgt Hc' HnT')
      as (leaf & [] & _ & -> & _ & Hroot); [|done].
    exfalso. apply (proj1 Hroot eq_refl). exists Src, T, inheritanceTag. auto. }
  assert (∀ s t T0,
            (∃ Tag, hasLink TS' Successors s (t, T0) ∧ tagAt TS' T0 = Some Tag
                    ∧ (LK_Instance = LK_All ∨ getKind Tag = LK_Instance))
            ↔ (∃ Tag, hasLink TS Successors s (t, T0) ∧ tagAt TS T0 = Some Tag
                      ∧ (LK_Instance = LK_All ∨ getKind Tag = LK_Instance)))
    as Hsame.
  { intros s t T0. split; intros (Tag & Hl & HTag & HK).
    - apply Hsucc in Hl as [Hold|[-> [= -> ->]]].
      + exists Tag. split; [done|]. split; [|done].
        destruct (consistent_link_tag _ _ _ _ Hc Hold) as [Tag0 HTag0].
        assert (tagAt TS' T0 = Some Tag0) as HTag0'.
        { apply tagAt_interned; [apply Htags'|apply Hel; by right]. }
        rewrite HTag in HTag0'. inversion HTag0'; subst Tag0.
        apply tagAt_interned; [apply (consistent_tags _ Hc)|done].
      + rewrite HT' in HTag. inversion HTag; subst Tag.
        by destruct HK as [?|?].
    - exists Tag. split; [apply Hsucc; by left|]. split; [|done].
      apply tagAt_interned; [apply Htags'|]. apply Hel. right. by apply tagAt_Some. }
  assert (∀ (b b' : bool) (P P' : Prop),
            (b = true ↔ ¬ P) → (b' = true ↔ ¬ P') → (P ↔ P') → b = b') as Hbool.
  { intros [] [] P P' HP HP' HPP'; try done.
    - assert (false = true) as Habs; [|done]. apply HP'. rewrite <- HPP'.
      by apply HP.
    - assert (false = true) as Habs; [|done]. apply HP. rewrite HPP'.
      by apply HP'. }
  split; intros X.
  - destruct (Layouts TS !! X) as [nX|] eqn:HnX.
    + destruct (isLeaf_isRoot_spec TS LK_Instance X Hc) as (l & _ & -> & _ & Hl & _);
        [eauto|].
      destruct (isLeaf_isRoot_spec TS' LK_Instance X Hc') as (l' & _ & -> & _ & Hl' & _);
        [apply Hdom; eauto|].
      f_equal. eapply Hbool; [exact Hl'|exact Hl|].
      split; intros (t & T0 & HTag); exists t, T0; apply Hsame; naive_solver.
    + unfold isLeaf. rewrite HnX.
      destruct (Layouts TS' !! X) as [nX'|] eqn:HnX'; [|done].
      assert (is_Some (Layouts TS !! X)) as [? Habs] by (apply Hdom; eauto).
      by rewrite HnX in Habs.
  - destruct (Layouts TS !! X) as [nX|] eqn:HnX.
    + destruct (isLeaf_isRoot_spec TS LK_Instance X Hc) as (_ & l & _ & -> & _ & Hl);
        [eauto|].
      destruct (isLeaf_isRoot_spec TS' LK_Instance X Hc') as (_ & l' & _ & -> & _ & Hl');
        [apply Hdom; eauto|].
      f_equal. eapply Hbool; [exact Hl'|exact Hl|].
      split; intros (s & T0 & HTag); exists s, T0; apply Hsame; naive_solver.
    + unfold isRoot. rewrite HnX.
      destruct (Layouts TS' !! X) as [nX'|] eqn:HnX'; [|done].
      assert (is_Some (Layouts TS !! X)) as [? Habs] by (apply Hdom; eauto).
      by rewrite HnX in Habs.
Qed.

Lemma inheritance_link_and_leaves_witness :
  ∃ r TS',
    addInheritanceLink 300%N 100%N threeNodes = Some (r, TS')
    ∧ isInheritanceLeaf TS' 300%N = Some false
    ∧ isInheritanceRoot TS' 100%N = Some false
    ∧ (∀ X, isInstanceLeaf TS' X = isInstanceLeaf threeNodes X)
    ∧ (∀ X, isInstanceRoot TS' X = isInstanceRoot threeNodes X).
Proof.
  apply (inheritance_link_and_leaves threeNodes 300%N 100%N).
  - exact (proj1 threeNodes_wellFormed).
  - done.
  - eexists. reflexivity.
  - eexists. reflexivity.
Defined.

(** * Further properties of the statement builder *)

Section more_builder_facts.
Import IR2AST.
Context `{ASTContext} `{IRASTTypeTranslation} `{LLVMBuild}.

(** The result of [createCast], by the classification of the two types. *)
Lemma createCast_cases LHSQualTy RHS :
  createCast LHSQualTy RHS =
    let RHSQualTy := Expr_getType RHS in
    if isIntegerType LHSQualTy then
      if isIntegerType RHSQualTy
      then Some (CStyleCastExpr LHSQualTy VK_RValue CK_IntegralCast RHS)
      else if isPointerType RHSQualTy
      then Some (CStyleCastExpr LHSQualTy VK_RValue CK_PointerToIntegral RHS)
      else None
    else if isPointerType LHSQualTy then
      if isIntegerType RHSQualTy then
        if (getTypeSize LHSQualTy <? getTypeSize RHSQualTy)%N then None
        else if (getTypeSize RHSQualTy <? getTypeSize LHSQualTy)%N
        then Some (CStyleCastExpr LHSQualTy VK_RValue CK_IntegralToPointer
                     (CStyleCastExpr getUIntPtrType VK_RValue CK_IntegralCast RHS))
        else Some (CStyleCastExpr LHSQualTy VK_RValue CK_IntegralToPointer RHS)
      else if isPointerType RHSQualTy
      then Some (CStyleCastExpr LHSQualTy VK_RValue CK_BitCast RHS)
      else None
    else None.
Proof.
  unfold createCast. cbn [createCast_rec]. cbv zeta.
  destruct (isIntegerType LHSQualTy).
  { destruct (isIntegerType (Expr_getType RHS)); [done|].
    by destruct (isPointerType (Expr_getType RHS)). }
  destruct (isPointerType LHSQualTy); [|done].
  destruct (isIntegerType (Expr_getType RHS)) eqn:HInt.
  - destruct (N.leb_spec (getTypeSize (Expr_getType RHS)) (getTypeSize LHSQualTy)),
      (N.ltb_spec (getTypeSize LHSQualTy) (getTypeSize (Expr_getType RHS)));
      try lia; simpl; [|done].
    destruct (_ <? _)%N; [|done].
    by rewrite getUIntPtrType_isIntegerType.
  - by destruct (isPointerType (Expr_getType RHS)).
Qed.

(** A cast that is built has the destination type. *)
Lemma createCast_type LHSQualTy RHS E :
  createCast LHSQualTy RHS = Some E → Expr_getType E = LHSQualTy.
Proof.
  rewrite createCast_cases. cbv zeta. intros HE.
  repeat match type of HE with
         | (if ?b then _ else _) = _ => destruct b
         end; by inversion HE.
Qed.

Lemma ClangType_QualType_eqb_eq :
  (∀ a b : ClangType, ClangType_eqb a b = true → a = b)
  ∧ (∀ a b : QualType, QualType_eqb a b = true → a = b).
Proof.
  apply (ClangType_QualType_mutind
           (λ a, ∀ b, ClangType_eqb a b = true → a = b)
           (λ a, ∀ b, QualType_eqb a b = true → a = b)).
  - intros K [] Heq; simpl in Heq; try done. f_equal.
    by apply bool_decide_eq_true in Heq.
  - intros p IH [] Heq; simpl in Heq; try done. f_equal. by apply IH.
  - intros e IH n [] Heq; simpl in Heq; try done.
    apply andb_true_iff in Heq as [He Hn%N.eqb_eq]. f_equal; [by apply IH|done].
  - intros r IH [] Heq; simpl in Heq; try done. f_equal. by apply IH.
  - intros i [] Heq; simpl in Heq; try done. apply N.eqb_eq in Heq. by subst.
  - by intros [].
  - intros t IH v [] Heq; simpl in Heq; try done.
    apply andb_true_iff in Heq as [Ht Hv]. apply Bool.eqb_prop in Hv.
    f_equal; [by apply IH|done].
Qed.

Lemma ClangType_QualType_eqb_refl :
  (∀ a : ClangType, ClangType_eqb a a = true)
  ∧ (∀ a : QualType, QualType_eqb a a = true).
Proof.
  apply (ClangType_QualType_mutind
           (λ a, ClangType_eqb a a = true) (λ a, QualType_eqb a a = true));
    simpl; intros; rewrite ?N.eqb_refl, ?andb_true_r; try done.
  - by apply bool_decide_eq_true_2.
  - rewrite Bool.eqb_reflx. by rewrite andb_true_r.
Qed.

(** The comparison of two C types of the builder decides their equality. *)
Lemma QualType_eqb_eq (a b : QualType) : QualType_eqb a b = true ↔ a = b.
Proof.
  split; [apply (proj2 ClangType_QualType_eqb_eq)|].
  intros ->. apply (proj2 ClangType_QualType_eqb_refl).
Qed.

(** [getParenthesizedExprForValue] never returns a bare binary or
    conditional operator. *)
Lemma getParenthesizedExprForValue_not_operator SB V E :
  getParenthesizedExprForValue SB V = Some E →
  isa_BinaryOperator E = false ∧ isa_ConditionalOperator E = false.
Proof.
  unfold getParenthesizedExprForValue, getParenthesizedExprForValue_of.
  destruct (getExprForValue SB V) as [Res|]; [|done]. simpl.
  destruct (isa_BinaryOperator Res || isa_ConditionalOperator Res) eqn:Hop;
    intros [= <-]; [done|].
  by apply orb_false_iff in Hop.
Qed.
End more_builder_facts.

(** X11.  [createCast] returns exactly when both types are integer or
    pointer types and the cast is not one of an integer to a narrower pointer.
    What it returns is an rvalue C-style cast to the destination type, of the
    kind that the two types determine, around the operand itself or, for an
    integer narrower than the pointer, around its cast to [uintptr_t]. *)
Theorem createCast_result `{ASTContext} (LHSQualTy : QualType) (RHS : Expr) :
  let RHSQualTy := Expr_getType RHS in
  (is_Some (IR2AST.createCast LHSQualTy RHS) ↔
     isIntegerType LHSQualTy || isPointerType LHSQualTy = true
     ∧ isIntegerType RHSQualTy || isPointerType RHSQualTy = true
     ∧ ¬ (isPointerType LHSQualTy = true ∧ isIntegerType RHSQualTy = true
          ∧ (getTypeSize LHSQualTy < getTypeSize RHSQualTy)%N))
  ∧ ∀ E, IR2AST.createCast LHSQualTy RHS = Some E →
      isLValue E = false ∧ Expr_getType E = LHSQualTy
      ∧ ∃ Op,
          E = CStyleCastExpr LHSQualTy VK_RValue
                (match isIntegerType LHSQualTy, isIntegerType RHSQualTy with
                 | true, true => CK_IntegralCast
                 | true, false => CK_PointerToIntegral
                 | false, true => CK_IntegralToPointer
                 | false, false => CK_BitCast
                 end) Op
          ∧ (Op = RHS
             ∨ Op = CStyleCastExpr getUIntPtrType VK_RValue CK_IntegralCast RHS).
Proof.
  cbv zeta. rewrite createCast_cases. cbv zeta.
  pose proof (isPointerType_not_integer LHSQualTy) as HLx.
  pose proof (isPointerType_not_integer (Expr_getType RHS)) as HRx.
  destruct (isIntegerType LHSQualTy) eqn:HLi, (isPointerType LHSQualTy) eqn:HLp,
    (isIntegerType (Expr_getType RHS)) eqn:HRi,
    (isPointerType (Expr_getType RHS)) eqn:HRp;
    try (by specialize (HLx eq_refl)); try (by specialize (HRx eq_refl));
    clear HLx HRx; simpl;
    try destruct (N.ltb_spec (getTypeSize LHSQualTy) (getTypeSize (Expr_getType RHS)));
    try destruct (N.ltb_spec (getTypeSize (Expr_getType RHS)) (getTypeSize LHSQualTy));
    (split;
     [split;
      [intros [E HE]; try done; repeat split; try done; intros (? & ? & ?); done || lia
      |intros (? & ? & Hn); try done; try (eexists; reflexivity);
       exfalso; apply Hn; repeat split; done || lia]
     |intros E HE; try done; inversion HE; subst E; repeat split; eauto]).
Qed.

Section operand_facts.
Import IR2AST.
Context `{ASTContext} `{IRASTTypeTranslation} `{LLVMBuild}.

Lemma is128Int_toRValue E : is128Int (toRValue E) = is128Int E.
Proof. unfold is128Int. by rewrite Expr_getType_toRValue. Qed.

(** The assertion of [getCastedBinaryOperands] on the widths. *)
Lemma operand_widths_accepted (I : InstructionData) (LHS RHS : Expr) :
  getTypeSize (Expr_getType LHS) = getTypeSize (Expr_getType RHS)
  ∨ getOpcode I ∈ [Shl; LShr; AShr]
  ∨ is128Int RHS = true ∨ is128Int LHS = true →
  (getTypeSize (Expr_getType LHS) =? getTypeSize (Expr_getType RHS))%N
  || match getOpcode I with Shl | LShr | AShr => true | _ => false end
  || is128Int RHS || is128Int LHS = true.
Proof.
  intros [->|[Hop|[->| ->]]]; rewrite ?N.eqb_refl, ?orb_true_r; try done.
  repeat (apply elem_of_cons in Hop as [->|Hop]); rewrite ?orb_true_r; try done.
  by apply elem_of_nil in Hop.
Qed.

(** The operators that take their operands as they are. *)
Lemma getCastedBinaryOperands_unsigned (I : InstructionData) (LHS RHS : Expr) :
  getOpcode I ∈ [Add; Sub; Mul; And; Or; Xor; UDiv; URem; Shl; LShr] →
  isIntegerType (Expr_getType LHS) = true →
  isIntegerType (Expr_getType RHS) = true →
  getTypeSize (Expr_getType LHS) = getTypeSize (Expr_getType RHS)
  ∨ getOpcode I ∈ [Shl; LShr; AShr]
  ∨ is128Int RHS = true ∨ is128Int LHS = true →
  getCastedBinaryOperands I LHS RHS = Some (LHS, RHS).
Proof.
  intros HOp HL HR HSize. unfold getCastedBinaryOperands.
  rewrite HL, HR, (operand_widths_accepted I LHS RHS HSize). simpl.
  repeat (apply elem_of_cons in HOp as [->|HOp]); try done.
  by apply elem_of_nil in HOp.
Qed.

(** The operators that take signed operands: an unsigned operand is cast
    to the signed type of the wider of the two widths. *)
Lemma getCastedBinaryOperands_signed (I : InstructionData) (LHS RHS : Expr) :
  getOpcode I ∈ [SDiv; SRem; AShr]
  ∨ (getOpcode I = ICmp ∧ isSigned (getPredicate I) = true) →
  isIntegerType (Expr_getType LHS) = true →
  isIntegerType (Expr_getType RHS) = true →
  getTypeSize (Expr_getType LHS) = getTypeSize (Expr_getType RHS)
  ∨ getOpcode I ∈ [Shl; LShr; AShr]
  ∨ is128Int RHS = true ∨ is128Int LHS = true →
  let SignedTy :=
    getIntTypeForBitwidth
      (N.max (getTypeSize (Expr_getType LHS)) (getTypeSize (Expr_getType RHS))) true in
  isIntegerType SignedTy = true →
  getCastedBinaryOperands I LHS RHS =
    Some (if isUnsignedIntegerType (Expr_getType LHS)
          then CStyleCastExpr SignedTy VK_RValue CK_IntegralCast LHS else LHS,
          if isUnsignedIntegerType (Expr_getType RHS)
          then CStyleCastExpr SignedTy VK_RValue CK_IntegralCast RHS else RHS).
Proof.
  intros HOp HL HR HSize SignedTy HS. unfold getCastedBinaryOperands.
  rewrite HL, HR, (operand_widths_accepted I LHS RHS HSize). simpl.
  fold SignedTy.
  assert (∀ E, isIntegerType (Expr_getType E) = true →
            (if isUnsignedIntegerType (Expr_getType E)
             then createCast SignedTy E else Some E)
            = Some (if isUnsignedIntegerType (Expr_getType E)
                    then CStyleCastExpr SignedTy VK_RValue CK_IntegralCast E else E))
    as Hoperand.
  { intros E HE. destruct (isUnsignedIntegerType _); [|done].
    by apply createCast_integral. }
  destruct HOp as [HOp|[-> ->]].
  - repeat (apply elem_of_cons in HOp as [->|HOp]);
      try (by apply elem_of_nil in HOp);
      simpl; by rewrite !Hoperand.
  - simpl. by rewrite !Hoperand.
Qed.
End operand_facts.

(** X12.  For an addition, subtraction, multiplication, bitwise operation,
    unsigned division or remainder, or a left or logical right shift on two
    integer operands, the statement built is the bare binary operator on the
    two operand expressions, with no cast around the operands or the result,
    at the type of the left operand.  The operands must be of one width,
    except for the shifts and when one of them is a 128-bit integer. *)
Theorem unsigned_arithmetic_statement `{ASTContext} `{IRASTTypeTranslation} `{LLVMBuild}
    (SB : IR2AST.StmtBuilder) (I : InstructionData) (L R : Value) (EL ER : Expr)
    (HOp : getOpcode I ∈ [Add; Sub; Mul; And; Or; Xor; UDiv; URem; Shl; LShr])
    (HL : IR2AST.getParenthesizedExprForValue SB L = Some EL)
    (HR : IR2AST.getParenthesizedExprForValue SB R = Some ER)
    (HTL : isIntegerType (Expr_getType EL) = true)
    (HTR : isIntegerType (Expr_getType ER) = true)
    (HSize : getTypeSize (Expr_getType EL) = getTypeSize (Expr_getType ER)
             ∨ getOpcode I ∈ [Shl; LShr; AShr]
             ∨ IR2AST.is128Int ER = true ∨ IR2AST.is128Int EL = true) :
  ∃ Opc,
    IR2AST.getClangBinaryOpKind I = Some Opc
    ∧ IR2AST.buildStmt SB I [L; R] =
        Some (ExprStmt (BinaryOperator (IR2AST.toRValue EL) (IR2AST.toRValue ER) Opc
                                       (Expr_getType EL) VK_RValue)).
Proof.
  assert (IR2AST.getCastedBinaryOperands I (IR2AST.toRValue EL) (IR2AST.toRValue ER)
          = Some (IR2AST.toRValue EL, IR2AST.toRValue ER)) as Hcast.
  { apply getCastedBinaryOperands_unsigned; rewrite ?Expr_getType_toRValue,
      ?is128Int_toRValue; done. }
  unfold IR2AST.buildStmt, IR2AST.createRValueExprForBinaryOperator.
  repeat (apply elem_of_cons in HOp as [HOp|HOp]);
    try (by apply elem_of_nil in HOp);
    unfold IR2AST.getClangBinaryOpKind; rewrite HOp in *; simpl;
    rewrite HL, HR; simpl; rewrite Hcast; simpl; rewrite Expr_getType_toRValue;
    eexists; (split; [reflexivity|done]).
Qed.

Lemma unsigned_arithmetic_statement_witness :
  ∃ Opc,
    IR2AST.getClangBinaryOpKind (Example.instruction 5 LShr ICMP_EQ Example.i32 1)
      = Some Opc
    ∧ IR2AST.buildStmt (H1 := withAssertions) Example.builder
        (Example.instruction 5 LShr ICMP_EQ Example.i32 1)
        [Example.x; ConstantInt Example.i64 3] =
        Some (ExprStmt
          (BinaryOperator
             (IR2AST.toRValue
                (DeclRefExpr (DeclParmVar (mkParmVarDecl "x" UnsignedIntTy))
                             UnsignedIntTy VK_LValue))
             (IR2AST.toRValue
                (IntegerLiteral (mkAPInt 64 3) (unqualified (BuiltinType ULong))))
             Opc
             (Expr_getType
                (DeclRefExpr (DeclParmVar (mkParmVarDecl "x" UnsignedIntTy))
                             UnsignedIntTy VK_LValue))
             VK_RValue)).
Proof.
  apply (unsigned_arithmetic_statement (H1 := withAssertions) Example.builder
           (Example.instruction 5 LShr ICMP_EQ Example.i32 1)
           Example.x (ConstantInt Example.i64 3)).
  - vm_compute. set_solver.
  - reflexivity.
  - reflexivity.
  - reflexivity.
  - reflexivity.
  - right. left. vm_compute. set_solver.
Defined.

(** X13.  For a signed division, a signed remainder, an arithmetic right
    shift or a comparison with a signed predicate on two integer operands,
    each operand of unsigned type is cast to the signed integer type of the
    wider of the two widths and a signed operand is left as it is; the
    operator is applied at the type of its left operand, parenthesized, and
    the whole is cast to the translation of the IR result type. *)
Theorem signed_arithmetic_statement `{ASTContext} `{IRASTTypeTranslation} `{LLVMBuild}
    (SB : IR2AST.StmtBuilder) (I : InstructionData) (L R : Value) (EL ER : Expr)
    (HOp : getOpcode I ∈ [SDiv; SRem; AShr]
           ∨ (getOpcode I = ICmp ∧ isSigned (getPredicate I) = true))
    (HL : IR2AST.getParenthesizedExprForValue SB L = Some EL)
    (HR : IR2AST.getParenthesizedExprForValue SB R = Some ER)
    (HTL : isIntegerType (Expr_getType EL) = true)
    (HTR : isIntegerType (Expr_getType ER) = true)
    (HSize : getTypeSize (Expr_getType EL) = getTypeSize (Expr_getType ER)
             ∨ getOpcode I ∈ [Shl; LShr; AShr]
             ∨ IR2AST.is128Int ER = true ∨ IR2AST.is128Int EL = true)
    (HSigned : isIntegerType
                 (getIntTypeForBitwidth
                    (N.max (getTypeSize (Expr_getType EL))
                           (getTypeSize (Expr_getType ER))) true) = true)
    (HRes : isIntegerType (getQualType (Instruction I [L; R])) = true) :
  let SignedTy :=
    getIntTypeForBitwidth
      (N.max (getTypeSize (Expr_getType EL)) (getTypeSize (Expr_getType ER))) true in
  let operand E :=
    if isUnsignedIntegerType (Expr_getType E)
    then CStyleCastExpr SignedTy VK_RValue CK_IntegralCast (IR2AST.toRValue E)
    else IR2AST.toRValue E in
  ∃ Opc,
    IR2AST.getClangBinaryOpKind I = Some Opc
    ∧ IR2AST.buildStmt SB I [L; R] =
        Some (ExprStmt
          (CStyleCastExpr (getQualType (Instruction I [L; R])) VK_RValue
             CK_IntegralCast
             (ParenExpr (BinaryOperator (operand EL) (operand ER) Opc
                           (if isUnsignedIntegerType (Expr_getType EL)
                            then SignedTy else Expr_getType EL)
                           VK_RValue)))).
Proof.
  intros SignedTy operand.
  assert (IR2AST.getCastedBinaryOperands I (IR2AST.toRValue EL) (IR2AST.toRValue ER)
          = Some (operand EL, operand ER)) as Hcast.
  { rewrite getCastedBinaryOperands_signed;
      rewrite ?Expr_getType_toRValue, ?is128Int_toRValue; done. }
  assert (Expr_getType (operand EL)
          = if isUnsignedIntegerType (Expr_getType EL)
            then SignedTy else Expr_getType EL) as HTy.
  { unfold operand. destruct (isUnsignedIntegerType _); [done|].
    apply Expr_getType_toRValue. }
  assert (isIntegerType (Expr_getType (operand EL)) = true) as HInt.
  { rewrite HTy. by destruct (isUnsignedIntegerType _). }
  assert (∃ Opc, IR2AST.getClangBinaryOpKind I = Some Opc) as [Opc HOpc].
  { unfold IR2AST.getClangBinaryOpKind. destruct HOp as [HOp|[-> HPred]].
    - repeat (apply elem_of_cons in HOp as [->|HOp]); eauto.
      by apply elem_of_nil in HOp.
    - destruct (getPredicate I); try done; eauto. }
  exists Opc. split; [done|].
  unfold IR2AST.buildStmt, IR2AST.createRValueExprForBinaryOperator.
  rewrite HOpc.
  assert (getOpcode I ∈ [SDiv; SRem; AShr; ICmp]) as HOp'.
  { destruct HOp as [HOp|[-> _]]; set_solver. }
  repeat (apply elem_of_cons in HOp' as [HOp'|HOp']);
    try (by apply elem_of_nil in HOp');
    rewrite HOp'; simpl; rewrite HL, HR; simpl; rewrite Hcast; simpl;
    (rewrite createCast_integral; [by rewrite HTy|done|done]).
Qed.

Lemma signed_arithmetic_statement_witness :
  let I := Example.instruction 6 SDiv ICMP_EQ Example.i32 1 in
  let EL := DeclRefExpr (DeclParmVar (mkParmVarDecl "x" UnsignedIntTy))
                        UnsignedIntTy VK_LValue in
  let ER := DeclRefExpr (DeclParmVar (mkParmVarDecl "y" UnsignedIntTy))
                        UnsignedIntTy VK_LValue in
  let SignedTy :=
    getIntTypeForBitwidth
      (N.max (getTypeSize (Expr_getType EL)) (getTypeSize (Expr_getType ER))) true in
  let operand E :=
    if isUnsignedIntegerType (Expr_getType E)
    then CStyleCastExpr SignedTy VK_RValue CK_IntegralCast (IR2AST.toRValue E)
    else IR2AST.toRValue E in
  ∃ Opc,
    IR2AST.getClangBinaryOpKind I = Some Opc
    ∧ IR2AST.buildStmt (H1 := withAssertions) Example.builder I
        [Example.x; Example.y] =
        Some (ExprStmt
          (CStyleCastExpr (getQualType (Instruction I [Example.x; Example.y]))
             VK_RValue CK_IntegralCast
             (ParenExpr (BinaryOperator (operand EL) (operand ER) Opc
                           (if isUnsignedIntegerType (Expr_getType EL)
                            then SignedTy else Expr_getType EL)
                           VK_RValue)))).
Proof.
  apply (signed_arithmetic_statement (H1 := withAssertions) Example.builder
           (Example.instruction 6 SDiv ICMP_EQ Example.i32 1) Example.x Example.y).
  - left. vm_compute. set_solver.
  - reflexivity.
  - reflexivity.
  - reflexivity.
  - reflexivity.
  - left. reflexivity.
  - reflexivity.
  - reflexivity.
Defined.

(** X14.  Every statement built for a store is an assignment whose left
    side is the expression of the store itself (the lvalue at its address),
    whose type is the type of that left side, and whose right side has that
    same type: the stored expression as it is when the types agree, and the
    cast of it to the type of the left side when they differ.  The stored
    expression is never parenthesized again before the cast: it comes from
    [getParenthesizedExprForValue] and is no bare binary operator. *)
Theorem store_statement_is_typed `{ASTContext} `{IRASTTypeTranslation} `{LLVMBuild}
    (SB : IR2AST.StmtBuilder) (I : InstructionData) (Operands : list Value) (S : Stmt)
    (HOp : getOpcode I = Store)
    (Hbuild : IR2AST.buildStmt SB I Operands = Some S) :
  ∃ Stored LHS RHS StoredExpr,
    head Operands = Some Stored
    ∧ IR2AST.getParenthesizedExprForValue SB (Instruction I Operands) = Some LHS
    ∧ IR2AST.getParenthesizedExprForValue SB Stored = Some StoredExpr
    ∧ S = ExprStmt (BinaryOperator LHS RHS BO_Assign (Expr_getType LHS) VK_RValue)
    ∧ Expr_getType RHS = Expr_getType LHS
    ∧ ((Expr_getType StoredExpr = Expr_getType LHS ∧ RHS = StoredExpr)
       ∨ (Expr_getType StoredExpr ≠ Expr_getType LHS
          ∧ IR2AST.createCast (Expr_getType LHS) StoredExpr = Some RHS)).
Proof.
  unfold IR2AST.buildStmt in Hbuild. rewrite HOp in Hbuild.
  destruct (head Operands) as [Stored|] eqn:HStored; [|done]. simpl in Hbuild.
  destruct (IR2AST.getParenthesizedExprForValue SB (Instruction I Operands))
    as [LHS|] eqn:HLHS; [|done]. simpl in Hbuild.
  destruct (IR2AST.getParenthesizedExprForValue SB Stored) as [StoredExpr|] eqn:HRHS;
    [|done].
  simpl in Hbuild.
  destruct (getParenthesizedExprForValue_not_operator _ _ _ HRHS) as [HnotBin _].
  rewrite HnotBin in Hbuild.
  destruct (QualType_eqb (Expr_getType StoredExpr) (Expr_getType LHS)) eqn:Heqb;
    simpl in Hbuild.
  - apply QualType_eqb_eq in Heqb.
    inversion Hbuild; subst S. exists Stored, LHS, StoredExpr, StoredExpr.
    repeat (split; [done|]). by left.
  - destruct (IR2AST.createCast _ _) as [RHS|] eqn:Hcast; [|done].
    simpl in Hbuild. inversion Hbuild; subst S.
    exists Stored, LHS, RHS, StoredExpr. repeat (split; [done|]).
    split; [by eapply createCast_type|]. right. split; [|done].
    intros Heq%QualType_eqb_eq. by rewrite Heq in Heqb.
Qed.

Lemma store_statement_is_typed_witness :
  let I := Example.instruction 7 Store ICMP_EQ VoidTy 0 in
  ∃ S,
    IR2AST.buildStmt (H1 := withAssertions) Example.builder I [Example.x; Example.p]
      = Some S
    ∧ ∃ Stored LHS RHS StoredExpr,
        head [Example.x; Example.p] = Some Stored
        ∧ IR2AST.getParenthesizedExprForValue (H1 := withAssertions) Example.builder
            (Instruction I [Example.x; Example.p]) = Some LHS
        ∧ IR2AST.getParenthesizedExprForValue (H1 := withAssertions) Example.builder
            Stored = Some StoredExpr
        ∧ S = ExprStmt (BinaryOperator LHS RHS BO_Assign (Expr_getType LHS) VK_RValue)
        ∧ Expr_getType RHS = Expr_getType LHS
        ∧ ((Expr_getType StoredExpr = Expr_getType LHS ∧ RHS = StoredExpr)
           ∨ (Expr_getType StoredExpr ≠ Expr_getType LHS
              ∧ IR2AST.createCast (Expr_getType LHS) StoredExpr = Some RHS)).
Proof.
  intros I. eexists. split; [vm_compute; reflexivity|].
  apply (store_statement_is_typed (H1 := withAssertions) Example.builder I
           [Example.x; Example.p]).
  - reflexivity.
  - vm_compute. reflexivity.
Defined.

(** X15.  The statement built for a [trunc], [zext], [sext], [inttoptr],
    [ptrtoint] or [bitcast] instruction is an expression of the C type that
    the instruction translates to: the expression of the operand as it is
    when it has that type already, and else the cast of it to that type.  The
    instruction must have one operand. *)
Theorem cast_statement_is_typed `{ASTContext} `{IRASTTypeTranslation} `{LLVMBuild}
    (SB : IR2AST.StmtBuilder) (I : InstructionData) (Operands : list Value) (S : Stmt)
    (HOp : getOpcode I ∈ [Trunc; ZExt; SExt; IntToPtr; PtrToInt; BitCast])
    (Hbuild : IR2AST.buildStmt SB I Operands = Some S) :
  ∃ Op0 OpExpr E,
    Operands = [Op0]
    ∧ IR2AST.getParenthesizedExprForValue SB Op0 = Some OpExpr
    ∧ S = ExprStmt E
    ∧ Expr_getType E = getQualType (Instruction I Operands)
    ∧ ((Expr_getType OpExpr = getQualType (Instruction I Operands) ∧ E = OpExpr)
       ∨ (Expr_getType OpExpr ≠ getQualType (Instruction I Operands)
          ∧ IR2AST.createCast (getQualType (Instruction I Operands)) OpExpr = Some E)).
Proof.
  assert (IR2AST.buildStmt SB I Operands =
            (_ ← revng_assert (bool_decide (length Operands = 1%nat));
             Op0 ← Operands !! 0%nat;
             Res ← IR2AST.getParenthesizedExprForValue SB Op0;
             let LHSQualType := getQualType (Instruction I Operands) in
             Res ← (if negb (QualType_eqb LHSQualType (Expr_getType Res))
                    then IR2AST.createCast LHSQualType Res
                    else Some Res);
             Some (ExprStmt Res))) as Hcase.
  { unfold IR2AST.buildStmt.
    repeat (apply elem_of_cons in HOp as [->|HOp]); try done.
    by apply elem_of_nil in HOp. }
  rewrite Hcase in Hbuild. clear Hcase.
  destruct Operands as [|Op0 [|Op1 Operands]]; try done. simpl in Hbuild.
  destruct (IR2AST.getParenthesizedExprForValue SB Op0) as [OpExpr|] eqn:HOp0;
    [|done].
  simpl in Hbuild.
  destruct (QualType_eqb (getQualType (Instruction I [Op0])) (Expr_getType OpExpr))
    eqn:Heqb; simpl in Hbuild.
  - apply QualType_eqb_eq in Heqb. inversion Hbuild; subst S.
    exists Op0, OpExpr, OpExpr. repeat (split; [done|]). by left.
  - destruct (IR2AST.createCast _ _) as [E|] eqn:Hcast; [|done].
    simpl in Hbuild. inversion Hbuild; subst S.
    exists Op0, OpExpr, E. repeat (split; [done|]).
    split; [by eapply createCast_type|]. right. split; [|done].
    intros Heq. rewrite Heq in Heqb.
    by rewrite (proj2 (QualType_eqb_eq _ _) eq_refl) in Heqb.
Qed.

Lemma cast_statement_is_typed_witness :
  ∃ S,
    IR2AST.buildStmt (H1 := withAssertions) Example.builder Example.p_data [Example.x]
      = Some S
    ∧ ∃ Op0 OpExpr E,
        [Example.x] = [Op0]
        ∧ IR2AST.getParenthesizedExprForValue (H1 := withAssertions) Example.builder
            Op0 = Some OpExpr
        ∧ S = ExprStmt E
        ∧ Expr_getType E = getQualType (Instruction Example.p_data [Example.x])
        ∧ ((Expr_getType OpExpr = getQualType (Instruction Example.p_data [Example.x])
            ∧ E = OpExpr)
           ∨ (Expr_getType OpExpr ≠ getQualType (Instruction Example.p_data [Example.x])
              ∧ IR2AST.createCast
                  (getQualType (Instruction Example.p_data [Example.x])) OpExpr
                = Some E)).
Proof.
  eexists. split; [vm_compute; reflexivity|].
  apply (cast_statement_is_typed (H1 := withAssertions) Example.builder
           Example.p_data [Example.x]).
  - vm_compute. set_solver.
  - vm_compute. reflexivity.
Defined.

Section createAST_facts.
Import IR2AST.
Context `{ASTContext} `{IRASTTypeTranslation} `{LLVMBuild}.

Lemma declared_refl SB : declared SB SB [].
Proof.
  split; [by rewrite app_nil_r|]. split; [simpl; lia|]. by intros i D Hi.
Qed.

Lemma declared_trans SB1 SB2 SB3 New1 New2 :
  declared SB1 SB2 New1 → declared SB2 SB3 New2 → declared SB1 SB3 (New1 ++ New2).
Proof.
  intros (HD1 & HN1 & Hnum1) (HD2 & HN2 & Hnum2).
  split; [by rewrite HD2, HD1, app_assoc|].
  split; [rewrite HN2, HN1, length_app; lia|].
  intros i D Hi. apply lookup_app_Some in Hi as [Hi|[Hge Hi]]; [by apply Hnum1|].
  rewrite (Hnum2 _ _ Hi), HN1. do 2 f_equal. lia.
Qed.

Lemma keeps_refl SB : keeps SB SB.
Proof. unfold keeps. naive_solver. Qed.

Lemma keeps_trans SB1 SB2 SB3 : keeps SB1 SB2 → keeps SB2 SB3 → keeps SB1 SB3.
Proof.
  unfold keeps.
  intros (? & ? & ? & ? & ? & ? & ? & ? & ?) (? & ? & ? & ? & ? & ? & ? & ? & ?).
  repeat split; try congruence; naive_solver.
Qed.

(** [createVarDecl] declares one variable, of the translated type of the
    instruction, and changes nothing else. *)
Lemma createVarDecl_spec SB V D SB' :
  createVarDecl SB V = Some (D, SB') →
  D = mkVarDecl ("var_" +:+ pretty (NVar SB)) (getQualType V)
  ∧ getQualType V ≠ NullQualType
  ∧ declared SB SB' [D] ∧ keeps SB SB'
  ∧ VarDecls SB' = VarDecls SB ∧ InstrStmts SB' = InstrStmts SB
  ∧ AllocaDecls SB' = AllocaDecls SB ∧ BBLabelDecls SB' = BBLabelDecls SB.
Proof.
  unfold createVarDecl. cbv zeta.
  destruct (QualType_eqb (getQualType V) NullQualType) eqn:Hnull; [done|].
  simpl. intros [= <- <-]. split; [done|]. split.
  { intros Heq. rewrite Heq in Hnull. done. }
  split.
  { split; [done|]. split; [done|]. intros [|i] D; [|done]. simpl.
    intros [= <-]. simpl. do 2 f_equal. lia. }
  split; [|done]. unfold keeps. simpl. naive_solver.
Qed.

(** [createAllocaDecl] declares one array of [char], as long as the
    allocation has bits, and records it for the alloca. *)
Lemma createAllocaDecl_spec SB Inst SB' :
  createAllocaDecl SB Inst = Some SB' →
  ∃ Size,
    isStaticAlloca Inst = true ∧ getAllocationSizeInBits Inst = Some Size
    ∧ (Size ≤ UINT_MAX)%N
    ∧ let ArrayDecl := mkVarDecl ("var_" +:+ pretty (NVar SB))
                                 (getConstantArrayType CharTy Size) in
      declared SB SB' [ArrayDecl] ∧ keeps SB SB'
      ∧ AllocaDecls SB' = <[InstructionId Inst := ArrayDecl]> (AllocaDecls SB)
      ∧ VarDecls SB' = VarDecls SB ∧ InstrStmts SB' = InstrStmts SB
      ∧ BBLabelDecls SB' = BBLabelDecls SB.
Proof.
  unfold createAllocaDecl.
  destruct (isStaticAlloca Inst); [|done]. simpl.
  destruct (getAllocationSizeInBits Inst) as [Size|]; [|done]. simpl.
  destruct (N.leb_spec Size UINT_MAX); [|done]. simpl.
  intros [= <-]. exists Size. do 3 (split; [done|]). cbv zeta.
  split.
  { split; [done|]. split; [done|]. intros [|i] D; [|done]. simpl.
    intros [= <-]. simpl. do 2 f_equal. lia. }
  split; [|done]. unfold keeps. simpl.
  do 6 (split; [done|]). split; [|done].
  intros Id HId. destruct (decide (Id = InstructionId Inst)) as [->|Hne].
  - rewrite lookup_insert_eq. eauto.
  - by rewrite lookup_insert_ne.
Qed.
(** The three ways through the body of the loop of [createAST]. *)
Lemma createAST_instruction_cases SB V SB' :
  createAST_instruction SB V = Some SB' →
  ∃ Inst Ops, V = Instruction Inst Ops ∧
    ((getOpcode Inst = Br ∧ SB' = SB)
     ∨ (getOpcode Inst = PHI ∧ VarDecls SB !! InstructionId Inst = None
        ∧ ∃ D SB1, createVarDecl SB V = Some (D, SB1)
                   ∧ SB' = set_VarDecl (InstructionId Inst) D SB1)
     ∨ (getOpcode Inst ≠ Br ∧ getOpcode Inst ≠ PHI
        ∧ ∃ SBa S,
            (if bool_decide (getOpcode Inst = Alloca)
             then createAllocaDecl SB Inst else Some SB) = Some SBa
            ∧ buildStmt SBa Inst Ops = Some S
            ∧ if (0 <? getNumUses Inst)%N
                 && bool_decide (InstructionId Inst ∈ ToSerialize SBa)
              then VarDecls SBa !! InstructionId Inst = None
                   ∧ ∃ D SB1,
                       createVarDecl (set_InstrStmt (InstructionId Inst) S SBa) V
                         = Some (D, SB1)
                       ∧ SB' = set_VarDecl (InstructionId Inst) D SB1
              else SB' = set_InstrStmt (InstructionId Inst) S SBa)).
Proof.
  destruct V as [| | | | | | |Inst Ops|]; try done. intros Hrun.
  exists Inst, Ops. split; [done|]. unfold createAST_instruction in Hrun.
  destruct (bool_decide (getOpcode Inst = Br)) eqn:HBr.
  { apply bool_decide_eq_true in HBr. left. by inversion Hrun. }
  apply bool_decide_eq_false in HBr.
  destruct (bool_decide (getOpcode Inst = PHI)) eqn:HPhi.
  { apply bool_decide_eq_true in HPhi. right. left.
    destruct (bool_decide (VarDecls SB !! InstructionId Inst = None)) eqn:Hnone;
      [|done].
    apply bool_decide_eq_true in Hnone. simpl in Hrun.
    destruct (createVarDecl SB _) as [[D SB1]|] eqn:Hdecl; [|done].
    simpl in Hrun. inversion Hrun. eauto 10. }
  apply bool_decide_eq_false in HPhi. right. right. do 2 (split; [done|]).
  destruct (if bool_decide (getOpcode Inst = Alloca) then _ else _) as [SBa|]
    eqn:Halloca; [|done].
  simpl in Hrun.
  destruct (buildStmt SBa Inst Ops) as [S|] eqn:Hbuild; [|done]. simpl in Hrun.
  exists SBa, S. do 2 (split; [done|]).
  destruct ((0 <? getNumUses Inst)%N && _); [|by inversion Hrun].
  destruct (bool_decide (VarDecls _ !! InstructionId Inst = None)) eqn:Hnone;
    [|done].
  apply bool_decide_eq_true in Hnone. simpl in Hrun.
  destruct (createVarDecl _ _) as [[D SB1]|] eqn:Hdecl; [|done].
  simpl in Hrun. inversion Hrun. eauto 10.
Qed.

Lemma set_VarDecl_keeps Id D SB :
  VarDecls SB !! Id = None → keeps SB (set_VarDecl Id D SB).
Proof.
  intros Hnone. unfold keeps. simpl. do 5 (split; [done|]).
  split; [|done]. intros Id' D' HD'.
  destruct (decide (Id' = Id)) as [->|Hne]; [by rewrite Hnone in HD'|].
  by rewrite lookup_insert_ne.
Qed.

Lemma set_InstrStmt_keeps Id S SB : keeps SB (set_InstrStmt Id S SB).
Proof.
  unfold keeps. simpl. do 7 (split; [done|]). split; [|done].
  intros Id' HId'. destruct (decide (Id' = Id)) as [->|Hne].
  - rewrite lookup_insert_eq. eauto.
  - by rewrite lookup_insert_ne.
Qed.

Lemma declared_same_decls SB1 SB2 SB3 New :
  declared SB1 SB2 New →
  FDeclDecls SB3 = FDeclDecls SB2 → NVar SB3 = NVar SB2 → declared SB1 SB3 New.
Proof. intros (? & ? & ?) HD HN. split; [congruence|]. split; [congruence|done]. Qed.

(** One round of the loop declares at most two variables, numbered from
    the counter, and keeps what the builder knew; it leaves the labels
    alone. *)
Lemma createAST_instruction_declared SB V SB' :
  createAST_instruction SB V = Some SB' →
  (∃ New, declared SB SB' New) ∧ keeps SB SB'
  ∧ BBLabelDecls SB' = BBLabelDecls SB.
Proof.
  intros Hrun.
  destruct (createAST_instruction_cases _ _ _ Hrun)
    as (Inst & Ops & -> & [[_ ->]|[(_ & Hnone & D & SB1 & Hdecl & ->)|
         (_ & _ & SBa & S & Halloca & _ & Hrest)]]).
  - split; [exists []; apply declared_refl|]. split; [apply keeps_refl|done].
  - destruct (createVarDecl_spec _ _ _ _ Hdecl)
      as (_ & _ & Hd & Hk & HV & _ & _ & HB).
    split; [exists [D]; by eapply declared_same_decls|].
    split; [|done].
    eapply keeps_trans; [exact Hk|]. apply set_VarDecl_keeps. by rewrite HV.
  - assert ((∃ New, declared SB SBa New) ∧ keeps SB SBa
            ∧ BBLabelDecls SBa = BBLabelDecls SB ∧ VarDecls SBa = VarDecls SB)
      as ([New1 Hd1] & Hk1 & HB1 & HV1).
    { destruct (bool_decide (getOpcode Inst = Alloca)).
      - destruct (createAllocaDecl_spec _ _ _ Halloca)
          as (Size & _ & _ & _ & Hd & Hk & _ & HV & _ & HB).
        split; [eauto|]. done.
      - inversion Halloca; subst SBa.
        split; [exists []; apply declared_refl|]. split; [apply keeps_refl|done]. }
    destruct ((0 <? getNumUses Inst)%N && _).
    + destruct Hrest as (Hnone & D & SB1 & Hdecl & ->).
      destruct (createVarDecl_spec _ _ _ _ Hdecl)
        as (_ & _ & Hd & Hk & HV & _ & _ & HB).
      split.
      { exists (New1 ++ [D]).
        eapply declared_same_decls; [|reflexivity|reflexivity].
        eapply declared_trans; [exact Hd1|].
        eapply declared_same_decls with (SB2 := SB1); [|done|done].
        destruct Hd as (HD & HN & Hnum). split; [done|]. split; done. }
      split; [|by rewrite <- HB1].
      eapply keeps_trans; [exact Hk1|].
      eapply keeps_trans; [apply (set_InstrStmt_keeps (InstructionId Inst) S)|].
      eapply keeps_trans; [exact Hk|]. apply set_VarDecl_keeps. by rewrite HV.
    + subst SB'. split; [exists New1; by eapply declared_same_decls|].
      split; [|done].
      eapply keeps_trans; [exact Hk1|]. apply set_InstrStmt_keeps.
Qed.
Lemma declared_subset SB SB' New D :
  declared SB SB' New → D ∈ FDeclDecls SB → D ∈ FDeclDecls SB'.
Proof. intros (-> & _) HD. apply elem_of_app. by left. Qed.

Lemma declared_new SB SB' D :
  declared SB SB' [D] → D ∈ FDeclDecls SB'.
Proof. intros (-> & _). apply elem_of_app. right. apply elem_of_cons; by left. Qed.

Lemma hasVariable_kept SB SB' New V Id :
  declared SB SB' New → keeps SB SB' → hasVariable SB V Id → hasVariable SB' V Id.
Proof.
  intros Hd (_ & _ & _ & _ & _ & HV & _) (D & HD & HT & Hin).
  exists D. split; [by apply HV|]. split; [done|]. by eapply declared_subset.
Qed.

Lemma covers_kept SB SB' New V :
  declared SB SB' New → keeps SB SB' → covers SB V → covers SB' V.
Proof.
  intros Hd Hk (Inst & Ops & -> & Hcase). exists Inst, Ops. split; [done|].
  destruct Hcase as [HBr|[[HPhi Hvar]|(HBr & HPhi & HS & HA & Hser)]]; [by left|..].
  - right. left. split; [done|]. by eapply hasVariable_kept.
  - right. right. do 2 (split; [done|]).
    pose proof Hk as (_ & _ & HSer & _ & _ & _ & HAl & HSt & _).
    split; [by apply HSt|]. split; [intros HAlloca; by apply HAl, HA|].
    rewrite HSer. intros Huses. eapply hasVariable_kept; [done..|]. by apply Hser.
Qed.

(** One round of the loop covers its instruction. *)
Lemma createAST_instruction_covers SB V SB' :
  createAST_instruction SB V = Some SB' → covers SB' V.
Proof.
  intros Hrun.
  destruct (createAST_instruction_cases _ _ _ Hrun)
    as (Inst & Ops & -> & [[HBr ->]|[(HPhi & Hnone & D & SB1 & Hdecl & ->)|
         (HBr & HPhi & SBa & S & Halloca & _ & Hrest)]]);
    exists Inst, Ops; (split; [done|]); [by left|..].
  - right. left. split; [done|].
    destruct (createVarDecl_spec _ _ _ _ Hdecl) as (HD & _ & Hd & _).
    exists D. simpl. rewrite lookup_insert_eq. split; [done|].
    split; [by rewrite HD|]. by apply (declared_new SB).
  - right. right. do 2 (split; [done|]).
    assert (getOpcode Inst = Alloca
            → is_Some (AllocaDecls SBa !! InstructionId Inst)) as HAl.
    { intros HAlloca. rewrite bool_decide_eq_true_2 in Halloca by done.
      destruct (createAllocaDecl_spec _ _ _ Halloca)
        as (Size & _ & _ & _ & _ & _ & -> & _).
      rewrite lookup_insert_eq. eauto. }
    destruct ((0 <? getNumUses Inst)%N
              && bool_decide (InstructionId Inst ∈ ToSerialize SBa)) eqn:Hser.
    + destruct Hrest as (Hnone & D & SB1 & Hdecl & ->).
      destruct (createVarDecl_spec _ _ _ _ Hdecl)
        as (HD & _ & Hd & _ & _ & HSt & HA & _).
      simpl. rewrite HSt, HA. simpl. rewrite lookup_insert_eq.
      split; [eauto|]. split; [done|]. intros _.
      exists D. simpl. rewrite lookup_insert_eq. split; [done|].
      split; [by rewrite HD|].
      by apply (declared_new (set_InstrStmt (InstructionId Inst) S SBa)).
    + subst SB'. simpl. rewrite lookup_insert_eq. split; [eauto|].
      split; [done|]. intros [Huses Hin]. exfalso.
      apply N.ltb_lt in Huses. rewrite Huses in Hser. simpl in Hser.
      by apply bool_decide_eq_false in Hser.
Qed.

Lemma createAST_instructions_spec SB Insts SB' :
  createAST_instructions SB Insts = Some SB' →
  (∃ New, declared SB SB' New) ∧ keeps SB SB'
  ∧ BBLabelDecls SB' = BBLabelDecls SB
  ∧ ∀ V, V ∈ Insts → covers SB' V.
Proof.
  revert SB. induction Insts as [|V Insts IH]; intros SB Hrun; simpl in Hrun.
  - inversion Hrun; subst SB'. split; [exists []; apply declared_refl|].
    split; [apply keeps_refl|]. split; [done|]. intros V HV.
    by apply elem_of_nil in HV.
  - destruct (createAST_instruction SB V) as [SB1|] eqn:Hstep; [|done].
    simpl in Hrun.
    destruct (createAST_instruction_declared _ _ _ Hstep) as ([New1 Hd1] & Hk1 & HB1).
    destruct (IH _ Hrun) as ([New2 Hd2] & Hk2 & HB2 & Hcov).
    split; [exists (New1 ++ New2); by eapply declared_trans|].
    split; [by eapply keeps_trans|]. split; [congruence|].
    intros V' [->|HV']%elem_of_cons; [|by apply Hcov].
    eapply covers_kept; [exact Hd2|exact Hk2|].
    by apply (createAST_instruction_covers SB).
Qed.

Lemma set_BBLabelDecl_keeps Id L SB : keeps SB (set_BBLabelDecl Id L SB).
Proof.
  unfold keeps. simpl. do 8 (split; [done|]).
  intros Id' HId'. destruct (decide (Id' = Id)) as [->|Hne].
  - rewrite lookup_insert_eq. eauto.
  - by rewrite lookup_insert_ne.
Qed.

Lemma createAST_blocks_spec SB BBId RPOT SB' :
  createAST_blocks SB BBId RPOT = Some SB' →
  (∃ New, declared SB SB' New) ∧ keeps SB SB'
  ∧ ∀ BB, BB ∈ RPOT →
      is_Some (BBLabelDecls SB' !! BasicBlockId BB)
      ∧ ∀ V, V ∈ Instructions BB → covers SB' V.
Proof.
  revert SB BBId. induction RPOT as [|BB RPOT IH]; intros SB BBId Hrun;
    simpl in Hrun.
  - inversion Hrun; subst SB'. split; [exists []; apply declared_refl|].
    split; [apply keeps_refl|]. intros BB HBB. by apply elem_of_nil in HBB.
  - destruct (createAST_instructions _ (Instructions BB)) as [SB1|] eqn:Hblock;
      [|done].
    simpl in Hrun.
    destruct (createAST_instructions_spec _ _ _ Hblock)
      as ([New1 Hd1] & Hk1 & HB1 & Hcov1).
    destruct (IH _ _ Hrun) as ([New2 Hd2] & Hk2 & Hcov2).
    assert (declared SB SB1 New1) as Hd1'.
    { destruct Hd1 as (? & ? & ?). split; [done|]. split; done. }
    split; [exists (New1 ++ New2); by eapply declared_trans|].
    split.
    { eapply keeps_trans; [|exact Hk2].
      eapply keeps_trans; [|exact Hk1]. apply set_BBLabelDecl_keeps. }
    intros BB' [->|HBB']%elem_of_cons; [|by apply Hcov2].
    split.
    + destruct Hk2 as (_ & _ & _ & _ & _ & _ & _ & _ & HL). apply HL.
      rewrite HB1. simpl. rewrite lookup_insert_eq. eauto.
    + intros V HV. eapply covers_kept; [exact Hd2|exact Hk2|]. by apply Hcov1.
Qed.
End createAST_facts.

(** X16.  [createAST] only appends to the declarations of the function, and
    what it appends is numbered: the declarations added are named [var_n],
    [var_(n+1)], ... in the order of their creation, where [n] is the counter
    of the builder before the call; the counter ends past the last of them, and
    no two of them share a name. *)
Theorem createAST_numbers_its_variables `{ASTContext} `{IRASTTypeTranslation}
    `{LLVMBuild} (SB : IR2AST.StmtBuilder) (RPOT : list IR2AST.BasicBlock)
    (SB' : IR2AST.StmtBuilder)
    (Hrun : IR2AST.createAST SB RPOT = Some SB') :
  ∃ New,
    IR2AST.FDeclDecls SB' = IR2AST.FDeclDecls SB ++ New
    ∧ IR2AST.NVar SB' = (IR2AST.NVar SB + N.of_nat (length New))%N
    ∧ (∀ i D, New !! i = Some D →
         VarName D = "var_" +:+ pretty (IR2AST.NVar SB + N.of_nat i)%N)
    ∧ NoDup (VarName <$> New).
Proof.
  destruct (createAST_blocks_spec _ _ _ _ Hrun) as ([New (HD & HN & Hnum)] & _).
  exists New. do 3 (split; [done|]).
  apply NoDup_alt. intros i j name Hi Hj.
  apply list_lookup_fmap_Some in Hi as (Di & -> & HDi).
  apply list_lookup_fmap_Some in Hj as (Dj & Heq & HDj).
  pose proof (Hnum _ _ HDi) as Hni. pose proof (Hnum _ _ HDj) as Hnj.
  rewrite Hni, Hnj in Heq.
  apply (String.app_inj "var_") in Heq. apply (inj pretty) in Heq. lia.
Qed.

Lemma createAST_numbers_its_variables_witness :
  let SB := IR2AST.mkStmtBuilder Example.f [Example.f] {[1%N]} []
              {[1%N := Example.fDecl]} ∅ ∅ ∅ ∅ ∅ 7 in
  ∃ SB',
    IR2AST.createAST (H1 := withAssertions) SB
      [IR2AST.mkBasicBlock 0 [Example.c; Example.ret_c]] = Some SB'
    ∧ ∃ New,
        IR2AST.FDeclDecls SB' = IR2AST.FDeclDecls SB ++ New
        ∧ IR2AST.NVar SB' = (IR2AST.NVar SB + N.of_nat (length New))%N
        ∧ (∀ i D, New !! i = Some D →
             VarName D = "var_" +:+ pretty (IR2AST.NVar SB + N.of_nat i)%N)
        ∧ NoDup (VarName <$> New).
Proof.
  intros SB. eexists. split; [vm_compute; reflexivity|].
  apply (createAST_numbers_its_variables (H1 := withAssertions) SB
           [IR2AST.mkBasicBlock 0 [Example.c; Example.ret_c]]).
  vm_compute. reflexivity.
Defined.

(** X17.  After [createAST] every basic block visited has a label and
    every instruction of it is covered: an instruction other than a branch or
    a PHI has a statement, an alloca has its array besides, a PHI and every
    instruction with uses that is to be serialized has a variable of the
    translated type of the instruction, declared in the function.  What the
    builder held before is kept. *)
Theorem createAST_covers_every_instruction `{ASTContext} `{IRASTTypeTranslation}
    `{LLVMBuild} (SB : IR2AST.StmtBuilder) (RPOT : list IR2AST.BasicBlock)
    (SB' : IR2AST.StmtBuilder) (BB : IR2AST.BasicBlock) (V : Value)
    (Hrun : IR2AST.createAST SB RPOT = Some SB')
    (HBB : BB ∈ RPOT) (HV : V ∈ IR2AST.Instructions BB) :
  is_Some (IR2AST.BBLabelDecls SB' !! IR2AST.BasicBlockId BB)
  ∧ covers SB' V ∧ keeps SB SB'.
Proof.
  destruct (createAST_blocks_spec _ _ _ _ Hrun) as (_ & Hk & Hcov).
  destruct (Hcov _ HBB) as [HL HI]. split; [done|]. split; [by apply HI|done].
Qed.

Lemma createAST_covers_every_instruction_witness :
  let BB := IR2AST.mkBasicBlock 0 [Example.c; Example.ret_c] in
  ∃ SB',
    IR2AST.createAST (H1 := withAssertions) Example.builder [BB] = Some SB'
    ∧ is_Some (IR2AST.BBLabelDecls SB' !! IR2AST.BasicBlockId BB)
    ∧ covers SB' Example.ret_c ∧ keeps Example.builder SB'.
Proof.
  intros BB. eexists. split; [vm_compute; reflexivity|].
  apply (createAST_covers_every_instruction (H1 := withAssertions) Example.builder
           [BB] _ BB Example.ret_c).
  - vm_compute. reflexivity.
  - apply elem_of_cons. by left.
  - apply elem_of_cons. right. apply elem_of_cons. by left.
Defined.

(** X18.  After [createAST] the expression of a PHI, and of an instruction
    with uses that is to be serialized, is a reference to its variable: an
    lvalue of the translated type of the instruction, naming a declaration of
    the function.  The expression built for the instruction is not inlined at
    its uses. *)
Theorem serialized_values_are_variables `{ASTContext} `{IRASTTypeTranslation}
    `{LLVMBuild} (SB : IR2AST.StmtBuilder) (RPOT : list IR2AST.BasicBlock)
    (SB' : IR2AST.StmtBuilder) (BB : IR2AST.BasicBlock)
    (Inst : InstructionData) (Ops : list Value)
    (Hrun : IR2AST.createAST SB RPOT = Some SB')
    (HBB : BB ∈ RPOT) (HV : Instruction Inst Ops ∈ IR2AST.Instructions BB)
    (Hser : getOpcode Inst = PHI
            ∨ (getOpcode Inst ≠ Br ∧ (0 < getNumUses Inst)%N
               ∧ InstructionId Inst ∈ IR2AST.ToSerialize SB)) :
  ∃ D,
    D ∈ IR2AST.FDeclDecls SB'
    ∧ VarType D = getQualType (Instruction Inst Ops)
    ∧ IR2AST.getExprForValue SB' (Instruction Inst Ops) =
        Some (DeclRefExpr (DeclVar D) (getQualType (Instruction Inst Ops)) VK_LValue)
    ∧ IR2AST.getParenthesizedExprForValue SB' (Instruction Inst Ops) =
        Some (DeclRefExpr (DeclVar D) (getQualType (Instruction Inst Ops)) VK_LValue).
Proof.
  destruct (createAST_blocks_spec _ _ _ _ Hrun) as (_ & Hk & Hcov).
  destruct (Hcov _ HBB) as [_ HI].
  destruct (HI _ HV) as (Inst' & Ops' & [= <- <-] & Hcase).
  assert (hasVariable SB' (Instruction Inst Ops) (InstructionId Inst))
    as (D & HD & HT & Hin).
  { destruct Hk as (_ & _ & HSer & _).
    destruct Hcase as [HBr|[[HPhi Hvar]|(HBr & HPhi & _ & _ & Hvar)]].
    - destruct Hser as [HPhi|[? _]]; [by rewrite HBr in HPhi|done].
    - done.
    - destruct Hser as [?|(_ & Huses & HinS)]; [done|]. apply Hvar.
      by rewrite HSer. }
  exists D. do 2 (split; [done|]).
  assert (IR2AST.getExprForValue SB' (Instruction Inst Ops) =
            Some (DeclRefExpr (DeclVar D) (getQualType (Instruction Inst Ops))
                              VK_LValue)) as Hexpr.
  { cbn [IR2AST.getExprForValue]. rewrite HD. by rewrite HT. }
  split; [done|].
  unfold IR2AST.getParenthesizedExprForValue, IR2AST.getParenthesizedExprForValue_of.
  by rewrite Hexpr.
Qed.

Lemma serialized_values_are_variables_witness :
  let SB := IR2AST.mkStmtBuilder Example.f [Example.f] {[1%N]} []
              {[1%N := Example.fDecl]} ∅ ∅ ∅ ∅ ∅ 0 in
  let BB := IR2AST.mkBasicBlock 0 [Example.c; Example.ret_c] in
  ∃ SB',
    IR2AST.createAST (H1 := withAssertions) SB [BB] = Some SB'
    ∧ ∃ D,
        D ∈ IR2AST.FDeclDecls SB'
        ∧ VarType D = getQualType Example.c
        ∧ IR2AST.getExprForValue (H1 := withAssertions) SB' Example.c =
            Some (DeclRefExpr (DeclVar D) (getQualType Example.c) VK_LValue)
        ∧ IR2AST.getParenthesizedExprForValue (H1 := withAssertions) SB' Example.c =
            Some (DeclRefExpr (DeclVar D) (getQualType Example.c) VK_LValue).
Proof.
  intros SB BB. eexists. split; [vm_compute; reflexivity|].
  apply (serialized_values_are_variables (H1 := withAssertions) SB [BB] _ BB
           Example.c_data [Example.x; Example.y]).
  - vm_compute. reflexivity.
  - apply elem_of_cons. by left.
  - apply elem_of_cons. by left.
  - right. split; [done|]. split; [done|]. vm_compute. set_solver.
Defined.

(** X19.  When the loop of [createAST] gets past an alloca, the alloca is
    static and its size in bits is known and fits an [unsigned]; the function
    has gained an array of [char] named after the counter, with as many
    elements as the allocation has bits; the array is recorded for the alloca;
    and the statement of the alloca is the address of the first element of the
    array, [&var[0]], of type pointer to [char]. *)
Theorem alloca_statement `{ASTContext} `{IRASTTypeTranslation} `{LLVMBuild}
    (SB : IR2AST.StmtBuilder) (Inst : InstructionData) (Ops : list Value)
    (SB' : IR2AST.StmtBuilder)
    (HOp : getOpcode Inst = Alloca)
    (Hrun : IR2AST.createAST_instruction SB (Instruction Inst Ops) = Some SB') :
  ∃ Size,
    isStaticAlloca Inst = true ∧ getAllocationSizeInBits Inst = Some Size
    ∧ (Size ≤ UINT_MAX)%N
    ∧ let ArrayTy := getConstantArrayType CharTy Size in
      let ArrayDecl := mkVarDecl ("var_" +:+ pretty (IR2AST.NVar SB)) ArrayTy in
      let CharPtrTy := getPointerType CharTy in
      IR2AST.AllocaDecls SB' !! InstructionId Inst = Some ArrayDecl
      ∧ ArrayDecl ∈ IR2AST.FDeclDecls SB'
      ∧ IR2AST.InstrStmts SB' !! InstructionId Inst =
          Some (ExprStmt
            (UnaryOperator
               (ArraySubscriptExpr
                  (ImplicitCastExpr CharPtrTy CK_ArrayToPointerDecay
                     (DeclRefExpr (DeclVar ArrayDecl) ArrayTy VK_LValue) VK_RValue)
                  (IntegerLiteral (APInt_getNullValue 32) IntTy) CharTy VK_LValue)
               UO_AddrOf CharPtrTy VK_RValue)).
Proof.
  destruct (createAST_instruction_cases _ _ _ Hrun)
    as (Inst' & Ops' & [= <- <-] & [[HBr _]|[(HPhi & _)|
         (_ & _ & SBa & S & Halloca & Hbuild & Hrest)]]);
    [by rewrite HOp in HBr|by rewrite HOp in HPhi|].
  rewrite bool_decide_eq_true_2 in Halloca by done.
  destruct (createAllocaDecl_spec _ _ _ Halloca)
    as (Size & HStatic & HSize & HMax & Hd & _ & HAl & _ & _ & _).
  exists Size. do 3 (split; [done|]). cbv zeta.
  pose proof (declared_new _ _ _ Hd) as Hin.
  unfold IR2AST.buildStmt in Hbuild. rewrite HOp, HAl, lookup_insert_eq in Hbuild.
  simpl in Hbuild. inversion Hbuild as [HS]. clear Hbuild.
  destruct ((0 <? getNumUses Inst)%N && _).
  - destruct Hrest as (_ & D & SB1 & Hdecl & ->).
    destruct (createVarDecl_spec _ _ _ _ Hdecl)
      as (_ & _ & Hd1 & _ & _ & HSt & HA & _).
    simpl. rewrite HSt, HA. simpl. rewrite HAl, !lookup_insert_eq.
    split; [done|]. split; [eapply declared_subset; [exact Hd1|exact Hin]|].
    by rewrite <- HS.
  - subst SB'. simpl. rewrite HAl, !lookup_insert_eq. by rewrite <- HS.
Qed.

Lemma alloca_statement_witness :
  let Inst := mkInstructionData 8 Alloca ICMP_EQ (PointerTy Example.i64) 1 true
                (Some 64%N) in
  ∃ SB' Size,
    IR2AST.createAST_instruction (H1 := withAssertions) Example.builder
      (Instruction Inst [ConstantInt Example.i32 1]) = Some SB'
    ∧ isStaticAlloca Inst = true ∧ getAllocationSizeInBits Inst = Some Size
    ∧ (Size ≤ UINT_MAX)%N
    ∧ let ArrayTy := getConstantArrayType CharTy Size in
      let ArrayDecl :=
        mkVarDecl ("var_" +:+ pretty (IR2AST.NVar Example.builder)) ArrayTy in
      let CharPtrTy := getPointerType CharTy in
      IR2AST.AllocaDecls SB' !! InstructionId Inst = Some ArrayDecl
      ∧ ArrayDecl ∈ IR2AST.FDeclDecls SB'
      ∧ IR2AST.InstrStmts SB' !! InstructionId Inst =
          Some (ExprStmt
            (UnaryOperator
               (ArraySubscriptExpr
                  (ImplicitCastExpr CharPtrTy CK_ArrayToPointerDecay
                     (DeclRefExpr (DeclVar ArrayDecl) ArrayTy VK_LValue) VK_RValue)
                  (IntegerLiteral (APInt_getNullValue 32) IntTy) CharTy VK_LValue)
               UO_AddrOf CharPtrTy VK_RValue)).
Proof.
  intros Inst. eexists.
  assert (∀ (P : Prop) (Q : N → Prop), P → (P → ∃ Size, Q Size) → ∃ Size, P ∧ Q Size)
    as Hsplit by (intros P Q HP HQ; destruct (HQ HP) as [Size HSize]; eauto).
  apply Hsplit; [vm_compute; reflexivity|]. intros Hrun.
  exact (alloca_statement (H1 := withAssertions) Example.builder Inst
           [ConstantInt Example.i32 1] _ eq_refl Hrun).
Defined.

(** Every statement that [buildStmt] returns for an instruction other than
    a [ret] is an expression. *)
Lemma buildStmt_expression `{ASTContext} `{IRASTTypeTranslation} `{LLVMBuild}
    (SB : IR2AST.StmtBuilder) (I : InstructionData) (Operands : list Value)
    (S : Stmt) :
  getOpcode I ≠ Ret → IR2AST.buildStmt SB I Operands = Some S →
  ∃ E, S = ExprStmt E.
Proof.
  intros HRet Hbuild. unfold IR2AST.buildStmt in Hbuild.
  destruct (getOpcode I); try done;
    repeat match type of Hbuild with
           | (_ <$> ?m) = Some _ => destruct m; simpl in Hbuild
           | (?m ≫= _) = Some _ => destruct m; simpl in Hbuild
           | (if ?b then _ else _) = Some _ => destruct b; simpl in Hbuild
           | match ?m with _ => _ end = Some _ => destruct m; simpl in Hbuild
           end;
    try done; inversion Hbuild; eauto.
Qed.

(** X20.  When the loop of [createAST] gets past an instruction that is
    neither a branch, a PHI nor a [ret], that has no variable, and that is not
    to be serialized or has no uses, the statement that [buildStmt] built for
    it is an expression, it is recorded, and the expression of the instruction
    is from then on that very expression: its uses inline it, in parentheses
    when it is a binary or a conditional operator. *)
Theorem unserialized_values_are_inlined `{ASTContext} `{IRASTTypeTranslation}
    `{LLVMBuild} (SB : IR2AST.StmtBuilder) (Inst : InstructionData)
    (Ops : list Value) (SB' : IR2AST.StmtBuilder)
    (HBr : getOpcode Inst ≠ Br) (HPhi : getOpcode Inst ≠ PHI)
    (HRet : getOpcode Inst ≠ Ret)
    (Hnot : ¬ ((0 < getNumUses Inst)%N
               ∧ InstructionId Inst ∈ IR2AST.ToSerialize SB))
    (Hfresh : IR2AST.VarDecls SB !! InstructionId Inst = None)
    (Hrun : IR2AST.createAST_instruction SB (Instruction Inst Ops) = Some SB') :
  ∃ SBa E,
    (if bool_decide (getOpcode Inst = Alloca)
     then IR2AST.createAllocaDecl SB Inst else Some SB) = Some SBa
    ∧ IR2AST.buildStmt SBa Inst Ops = Some (ExprStmt E)
    ∧ IR2AST.InstrStmts SB' !! InstructionId Inst = Some (ExprStmt E)
    ∧ IR2AST.VarDecls SB' !! InstructionId Inst = None
    ∧ IR2AST.getExprForValue SB' (Instruction Inst Ops) = Some E
    ∧ IR2AST.getParenthesizedExprForValue SB' (Instruction Inst Ops) =
        Some (if isa_BinaryOperator E || isa_ConditionalOperator E
              then ParenExpr E else E).
Proof.
  destruct (createAST_instruction_cases _ _ _ Hrun)
    as (Inst' & Ops' & [= <- <-] & [[? _]|[(? & _)|
         (_ & _ & SBa & S & Halloca & Hbuild & Hrest)]]); [done..|].
  destruct (buildStmt_expression _ _ _ _ HRet Hbuild) as [E ->].
  assert (IR2AST.ToSerialize SBa = IR2AST.ToSerialize SB
          ∧ IR2AST.VarDecls SBa = IR2AST.VarDecls SB) as [HSer HVar].
  { destruct (bool_decide (getOpcode Inst = Alloca)).
    - destruct (createAllocaDecl_spec _ _ _ Halloca)
        as (Size & _ & _ & _ & _ & (_ & _ & HSer & _) & _ & HV & _). done.
    - by inversion Halloca. }
  assert ((0 <? getNumUses Inst)%N
          && bool_decide (InstructionId Inst ∈ IR2AST.ToSerialize SBa) = false)
    as Hfalse.
  { apply not_true_is_false. intros [Huses Hin]%andb_true_iff. apply Hnot.
    split; [by apply N.ltb_lt|]. rewrite <- HSer. by apply bool_decide_eq_true in Hin. }
  rewrite Hfalse in Hrest. subst SB'.
  assert (IR2AST.getExprForValue
            (IR2AST.set_InstrStmt (InstructionId Inst) (ExprStmt E) SBa)
            (Instruction Inst Ops) = Some E) as Hexpr.
  { cbn [IR2AST.getExprForValue]. simpl. by rewrite ?HVar, Hfresh, lookup_insert_eq. }
  exists SBa, E. do 2 (split; [done|]).
  split; [simpl; by rewrite lookup_insert_eq|].
  split; [simpl; by rewrite HVar|].
  split; [exact Hexpr|].
  unfold IR2AST.getParenthesizedExprForValue, IR2AST.getParenthesizedExprForValue_of.
  by rewrite Hexpr.
Qed.

Lemma unserialized_values_are_inlined_witness :
  ∃ SB' SBa E,
    IR2AST.createAST_instruction (H1 := withAssertions) Example.builder Example.c
      = Some SB'
    ∧ (if bool_decide (getOpcode Example.c_data = Alloca)
       then IR2AST.createAllocaDecl Example.builder Example.c_data
       else Some Example.builder) = Some SBa
    ∧ IR2AST.buildStmt (H1 := withAssertions) SBa Example.c_data
        [Example.x; Example.y] = Some (ExprStmt E)
    ∧ IR2AST.InstrStmts SB' !! InstructionId Example.c_data = Some (ExprStmt E)
    ∧ IR2AST.VarDecls SB' !! InstructionId Example.c_data = None
    ∧ IR2AST.getExprForValue (H1 := withAssertions) SB' Example.c = Some E
    ∧ IR2AST.getParenthesizedExprForValue (H1 := withAssertions) SB' Example.c =
        Some (if isa_BinaryOperator E || isa_ConditionalOperator E
              then ParenExpr E else E).
Proof.
  eexists.
  assert (∀ (P : Prop) (Q : IR2AST.StmtBuilder → Expr → Prop),
            P → (P → ∃ SBa E, Q SBa E) → ∃ SBa E, P ∧ Q SBa E) as Hsplit.
  { intros P Q HP HQ. destruct (HQ HP) as (SBa & E & HE). eauto. }
  apply Hsplit; [vm_compute; reflexivity|]. intros Hrun.
  apply (unserialized_values_are_inlined (H1 := withAssertions) Example.builder
           Example.c_data [Example.x; Example.y] _).
  - done.
  - done.
  - done.
  - intros [_ Hin]. vm_compute in Hin. set_solver.
  - reflexivity.
  - exact Hrun.
Defined.

(** X21.  A load whose address is the null pointer constant, on a target
    where [uintptr_t] is as wide as a pointer, dereferences a pointer to
    volatile: the literal [0] of type [uintptr_t] is cast to a pointer to the
    loaded type, that pointer is cast to a pointer to the volatile loaded
    type, and the result is dereferenced at the loaded type. *)
Theorem load_from_null_is_volatile `{ASTContext} `{IRASTTypeTranslation} `{LLVMBuild}
    (SB : IR2AST.StmtBuilder) (I : InstructionData) (Ty : LLVMType)
    (HOp : getOpcode I = Load)
    (HSize : getTypeSize getUIntPtrType
             = getTypeSize (getPointerType
                              (getQualType (Instruction I [ConstantPointerNull Ty])))) :
  let PointeeType := getQualType (Instruction I [ConstantPointerNull Ty]) in
  IR2AST.buildStmt SB I [ConstantPointerNull Ty] =
    Some (ExprStmt
      (UnaryOperator
         (CStyleCastExpr (getPointerType (addVolatile PointeeType)) VK_RValue CK_BitCast
            (CStyleCastExpr (getPointerType PointeeType) VK_RValue
               CK_IntegralToPointer
               (IntegerLiteral (APInt_getNullValue (getTypeSize getUIntPtrType))
                               getUIntPtrType)))
         UO_Deref PointeeType VK_LValue)).
Proof.
  intros PointeeType.
  pose proof getUIntPtrType_isIntegerType as HInt.
  assert (isPointerType getUIntPtrType = false
          ∧ isBuiltinType getUIntPtrType = true) as [HnotPtr HBuiltin].
  { destruct getUIntPtrType as [|[] ?]; done. }
  unfold IR2AST.buildStmt. rewrite HOp. simpl. fold PointeeType.
  unfold IR2AST.castAddrToPointer. simpl.
  rewrite HnotPtr, HBuiltin, HInt. simpl.
  fold PointeeType in HSize. rewrite HSize, N.leb_refl, N.ltb_irrefl. simpl.
  rewrite (createCast_cases (H := H)). simpl.
  rewrite HInt, ?HSize, N.ltb_irrefl. simpl.
  unfold IR2AST.castNullAddrToVolatile. simpl. done.
Qed.

Lemma load_from_null_is_volatile_witness :
  let I := Example.instruction 9 Load ICMP_EQ Example.i32 1 in
  let PointeeType :=
    getQualType (Instruction I [ConstantPointerNull (PointerTy Example.i32)]) in
  IR2AST.buildStmt (H1 := withAssertions) Example.builder I
    [ConstantPointerNull (PointerTy Example.i32)] =
    Some (ExprStmt
      (UnaryOperator
         (CStyleCastExpr (getPointerType (addVolatile PointeeType)) VK_RValue CK_BitCast
            (CStyleCastExpr (getPointerType PointeeType) VK_RValue
               CK_IntegralToPointer
               (IntegerLiteral (APInt_getNullValue (getTypeSize getUIntPtrType))
                               getUIntPtrType)))
         UO_Deref PointeeType VK_LValue)).
Proof.
  apply (load_from_null_is_volatile (H1 := withAssertions) Example.builder
           (Example.instruction 9 Load ICMP_EQ Example.i32 1)
           (PointerTy Example.i32)).
  - reflexivity.
  - reflexivity.
Defined.

(** X22.  The literal of an integer constant is typed by the kind of the C
    type that the constant translates to: plain [char] for the four character
    kinds, the unqualified short types for the shorts (a cast of an [int]
    literal), the 64-bit [long long] types for the 128-bit kinds, and the
    translated type itself for the other integer kinds.  A constant that
    translates to [bool], [void] or a floating-point type has no literal. *)
Theorem integer_literal_type `{ASTContext} `{IRASTTypeTranslation} `{LLVMBuild}
    (SB : IR2AST.StmtBuilder) (Ty : LLVMType) (Val : Z) (E : Expr)
    (HE : IR2AST.getLiteralFromConstant SB (ConstantInt Ty Val) = Some E) :
  ∃ Kind Vol,
    getQualType (ConstantInt Ty Val) = mkQualType (BuiltinType Kind) Vol
    ∧ (Kind ∉ [Void; Bool; Float; Double])
    ∧ isLValue E = false
    ∧ Expr_getType E =
        match Kind with
        | Char_U | Char_S | UChar | SChar => CharTy
        | UShort => UnsignedShortTy
        | Short => ShortTy
        | UInt128 => UnsignedLongLongTy
        | Int128 => LongLongTy
        | _ => getQualType (ConstantInt Ty Val)
        end.
Proof.
  unfold IR2AST.getLiteralFromConstant, IR2AST.getLiteralFromConstant_of in HE.
  destruct (getQualType (ConstantInt Ty Val)) as [|[Kind| | | |] Vol] eqn:HTy;
    try done.
  exists Kind, Vol. split; [done|].
  destruct (getZExtValue _) as [ConstValue|]; [|done]. simpl in HE.
  destruct Kind; try done;
    (split; [set_solver|]);
    try (inversion HE; subst E; by split);
    (rewrite createCast_cases in HE; simpl in HE; by inversion HE).
Qed.

Lemma integer_literal_type_witness :
  ∃ E Kind Vol,
    IR2AST.getLiteralFromConstant (H1 := withAssertions) Example.builder
      (ConstantInt (IntegerTy 16) 7) = Some E
    ∧ getQualType (ConstantInt (IntegerTy 16) 7) = mkQualType (BuiltinType Kind) Vol
    ∧ (Kind ∉ [Void; Bool; Float; Double])
    ∧ isLValue E = false
    ∧ Expr_getType E =
        match Kind with
        | Char_U | Char_S | UChar | SChar => CharTy
        | UShort => UnsignedShortTy
        | Short => ShortTy
        | UInt128 => UnsignedLongLongTy
        | Int128 => LongLongTy
        | _ => getQualType (ConstantInt (IntegerTy 16) 7)
        end.
Proof.
  eexists.
  assert (∀ (P : Prop) (Q : BuiltinKind → bool → Prop),
            P → (P → ∃ Kind Vol, Q Kind Vol) → ∃ Kind Vol, P ∧ Q Kind Vol) as Hsplit.
  { intros P Q HP HQ. destruct (HQ HP) as (Kind & Vol & HK). eauto. }
  apply Hsplit; [vm_compute; reflexivity|]. intros HE.
  exact (integer_literal_type (H1 := withAssertions) Example.builder
           (IntegerTy 16) 7 _ HE).
Defined.
